(** * GeneticProgram.py: the evolutionary loop, its fitness assignment and
      its selection strategies, as a shallow embedding.

    Conventions of the embedding.

    - Python floats.  The values returned by the objective functions are
      finite floats; they are modelled as exact rationals ([Q]), rounding
      being abstracted.  The crowding-distance code introduces [-np.inf]
      itself, and from it [+inf] and [nan] can arise; these three special
      values are explicit in [fl], with the IEEE rules Python applies to
      them (every ordered comparison with [nan] is false, [nan != x] is
      true, [-inf - -inf] is [nan]).
    - Exceptions.  A computation that can raise returns a [result].
    - The random source.  [rd.choices] reads the global generator; the
      sequence of values its [random()] returns is a function
      [random : nat -> Q] and the world records how many were consumed.
    - Objects.  Every [IndividualClass] instance carries the allocation
      number it was created with ([ident]); the population list never holds
      the same object twice ([fit_population_NoDup] below), so the in-place
      updates of [_evaluate_population] are a map over the list.
    - [sorted] and [list.sort] are stable and use [<] only, comparing a
      later element against an earlier one; on the orders met here (strict
      weak orders) their result is the one of the stable insertion sort
      [py_sorted]. *)

From Stdlib Require Import Ascii String.
From Stdlib Require Import List ZArith QArith Qround Lia Lqa Bool.
From Stdlib Require Import Permutation Sorted.
Import ListNotations.

Set Implicit Arguments.

(** ** Exceptions *)

Inductive exn : Type :=
| IndexError
| TypeError
| ValueError
| NameError.

Inductive result (A : Type) : Type :=
| Ok (a : A)
| Raise (e : exn).

Arguments Ok {A} a.
Arguments Raise {A} e.

Definition bind {A B : Type} (c : result A) (k : A -> result B) : result B :=
  match c with
  | Ok a => k a
  | Raise e => Raise e
  end.

Notation "x <- c ;; k" := (bind c (fun x => k))
  (at level 61, c at next level, right associativity).
Notation "' pat <- c ;; k" := (bind c (fun x => match x with pat => k end))
  (at level 61, pat pattern, c at next level, right associativity).

(** [for x in xs: acc = body(acc, x)], where the body can raise. *)
Fixpoint for_each {A S : Type} (body : S -> A -> result S) (xs : list A) (acc : S)
  : result S :=
  match xs with
  | [] => Ok acc
  | x :: xs' => acc' <- body acc x ;; for_each body xs' acc'
  end.

(** [[f(x) for x in xs]], where [f] can raise. *)
Fixpoint map_m {A B : Type} (f : A -> result B) (xs : list A) : result (list B) :=
  match xs with
  | [] => Ok []
  | x :: xs' => y <- f x ;; ys <- map_m f xs' ;; Ok (y :: ys)
  end.

(** ** Python sequences *)

(** [l[i]] for a Python integer [i]: a negative index counts from the end. *)
Definition subscript {A : Type} (l : list A) (i : Z) : result A :=
  let n := Z.of_nat (length l) in
  let j := if (i <? 0)%Z then (n + i)%Z else i in
  if (j <? 0)%Z then Raise IndexError
  else match nth_error l (Z.to_nat j) with
       | Some a => Ok a
       | None => Raise IndexError
       end.

(** [l[:k]]. *)
Definition slice_to {A : Type} (l : list A) (k : Z) : list A :=
  if (k <? 0)%Z then firstn (Z.to_nat (Z.of_nat (length l) + k)) l
  else firstn (Z.to_nat k) l.

(** [range(a, b)] and [range(b)]. *)
Definition range2 (a b : Z) : list Z :=
  map (fun i => (a + Z.of_nat i)%Z) (seq 0 (Z.to_nat (b - a))).

Definition range (b : Z) : list Z := range2 0 b.

(** ** Floats *)

Inductive fl : Type :=
| Fin (q : Q)
| PInf
| NInf
| NaN.

Definition Qltb (a b : Q) : bool := negb (Qle_bool b a).

(** [a < b] *)
Definition fl_ltb (a b : fl) : bool :=
  match a, b with
  | NaN, _ | _, NaN => false
  | Fin x, Fin y => Qltb x y
  | NInf, NInf => false
  | NInf, _ => true
  | _, NInf => false
  | PInf, _ => false
  | _, PInf => true
  end.

(** [a > b] *)
Definition fl_gtb (a b : fl) : bool := fl_ltb b a.

(** [a == b] and [a != b] *)
Definition fl_eqb (a b : fl) : bool :=
  match a, b with
  | Fin x, Fin y => Qeq_bool x y
  | PInf, PInf => true
  | NInf, NInf => true
  | _, _ => false
  end.

Definition fl_neqb (a b : fl) : bool := negb (fl_eqb a b).


(** [a + b] *)
Definition fl_add (a b : fl) : fl :=
  match a, b with
  | NaN, _ | _, NaN => NaN
  | Fin x, Fin y => Fin (x + y)
  | PInf, NInf | NInf, PInf => NaN
  | PInf, _ | _, PInf => PInf
  | NInf, _ | _, NInf => NInf
  end.

(** [-a] and [a - b] *)
Definition fl_opp (a : fl) : fl :=
  match a with
  | Fin x => Fin (- x)
  | PInf => NInf
  | NInf => PInf
  | NaN => NaN
  end.

Definition fl_sub (a b : fl) : fl :=
  match a, b with
  | Fin x, Fin y => Fin (x - y)
  | _, _ => fl_add a (fl_opp b)
  end.

(** [a / n] for a positive integer [n] ([n] is a [len] that is not zero
    where the code divides). *)
Definition fl_div_nat (a : fl) (n : nat) : fl :=
  match a with
  | Fin x => Fin (x / inject_Z (Z.of_nat n))
  | other => other
  end.

(** [sum(ds)]: starts from the integer 0 and adds from the left. *)
Definition py_sum (ds : list fl) : fl := fold_left fl_add ds (Fin 0).

(** [max(xs)]: keeps the first element and replaces it by every later one
    that is greater; raises on the empty list. *)
Definition py_max (xs : list fl) : result fl :=
  match xs with
  | [] => Raise ValueError
  | x :: xs' => Ok (fold_left (fun m y => if fl_gtb y m then y else m) xs' x)
  end.

(** ** Stable sorting with [<] *)

Section Sorting.

Variable A : Type.

Section Pure.

Variable lt : A -> A -> bool.

(** The later element [x] goes before the first earlier element it is less
    than. *)
Fixpoint py_insert (x : A) (l : list A) : list A :=
  match l with
  | [] => [x]
  | y :: l' => if lt x y then x :: y :: l' else y :: py_insert x l'
  end.

Definition py_sorted (l : list A) : list A :=
  fold_left (fun acc x => py_insert x acc) l [].

End Pure.

Section Raising.

(** The same when [<] can raise, as [__lt__] can. *)
Variable lt : A -> A -> result bool.

Fixpoint py_insert_m (x : A) (l : list A) : result (list A) :=
  match l with
  | [] => Ok [x]
  | y :: l' =>
      b <- lt x y ;;
      if b then Ok (x :: y :: l')
      else l'' <- py_insert_m x l' ;; Ok (y :: l'')
  end.

Definition py_sorted_m (l : list A) : result (list A) :=
  for_each (fun acc x => py_insert_m x acc) l [].

End Raising.

End Sorting.

(** ** IndividualClass *)

(** [evaluation] is a float in single-objective mode and a list otherwise
    (it is the empty list when the object is created). *)
Inductive evaluation_t : Type :=
| EvFloat (x : fl)
| EvList (l : list fl).

(** [e[i]] on an evaluation: a float is not subscriptable. *)
Definition ev_subscript (e : evaluation_t) (i : nat) : result fl :=
  match e with
  | EvFloat _ => Raise TypeError
  | EvList l => subscript l (Z.of_nat i)
  end.

Section GeneticProgram.

(** Fenotypes: opaque values the engine only hands to the Model. *)
Variable F : Type.

(** [ident] is the allocation number of the object; the class has no such
    field. *)
Record IndividualClass : Type := {
  ident : nat;
  fenotype : F;
  evaluation : evaluation_t;
  objective_values : option (list Q)
}.

(** [IndividualClass(fenotype)] for the object allocated as number [i]. *)
Definition new_individual (i : nat) (f : F) : IndividualClass :=
  {| ident := i; fenotype := f; evaluation := EvList []; objective_values := None |}.

(** The loop of [__lt__] from index [i] on, over the components of
    [self.evaluation] that are left.  Falling off the loop returns [None],
    which is false where [sorted] tests it. *)
Fixpoint lt_loop (self_ev : list fl) (other_ev : evaluation_t) (i : nat)
  : result bool :=
  match self_ev with
  | [] => Ok false
  | a :: rest =>
      b <- ev_subscript other_ev i ;;
      if fl_gtb a b then Ok false
      else if fl_ltb a b then Ok true
      else lt_loop rest other_ev (S i)
  end.

(** [__lt__] on the two evaluations: on a float [self.evaluation] the
    [else] branch compares the two values, and a float does not compare
    with a list. *)
Definition ev_lt (s o : evaluation_t) : result bool :=
  match s with
  | EvList l => lt_loop l o 0
  | EvFloat x =>
      match o with
      | EvFloat y => Ok (fl_ltb x y)
      | EvList _ => Raise TypeError
      end
  end.

Definition __lt__ (self other : IndividualClass) : result bool :=
  ev_lt (evaluation self) (evaluation other).

(** The loop of [__eq__] from index [i] on. *)
Fixpoint eq_loop (self_ev : list fl) (other_ev : evaluation_t) (i : nat)
  : result bool :=
  match self_ev with
  | [] => Ok true
  | a :: rest =>
      b <- ev_subscript other_ev i ;;
      if fl_neqb a b then Ok false
      else eq_loop rest other_ev (S i)
  end.

(** [__eq__] on the two evaluations: a float is not equal to a list. *)
Definition ev_eq (s o : evaluation_t) : result bool :=
  match s with
  | EvList l => eq_loop l o 0
  | EvFloat x =>
      match o with
      | EvFloat y => Ok (fl_eqb x y)
      | EvList _ => Ok false
      end
  end.

Definition __eq__ (self other : IndividualClass) : result bool :=
  ev_eq (evaluation self) (evaluation other).

(** ** The collaborators *)

(** Inputs, labels, predictions and the extra arguments of an objective
    function. *)
Variables X Y P Arg : Type.

(** [[]], the value [__init__] gives [x_train] and [y_train]. *)
Variable x_empty : X.
Variable y_empty : Y.

(** The Model.  [generate_population], [mutate] and [crossover] may draw
    from the random source: they receive the number of values consumed so
    far and return the new number. *)
Variable Model_generate_population : Z -> nat -> list F * nat.
Variable Model_mutate : F -> nat -> F * nat.
Variable Model_crossover : F -> F -> nat -> F * nat.
Variable Model_evaluate : F -> X -> P.

(** The values [random()] returns, in order. *)
Variable random : nat -> Q.

Definition objective_function : Type := Y -> P -> list Arg -> Q.

(** What is outside [self]: the random source, the allocator and the record
    of the calls of [Model.evaluate] (the [ident] of the individual each
    call was made for, oldest first). *)
Record world : Type := {
  rand_pos : nat;
  next_id : nat;
  eval_calls : list nat
}.

Definition set_rand_pos (w : world) (p : nat) : world :=
  {| rand_pos := p; next_id := next_id w; eval_calls := eval_calls w |}.

Definition allocate (w : world) : world :=
  {| rand_pos := rand_pos w; next_id := S (next_id w); eval_calls := eval_calls w |}.

Definition record_call (w : world) (i : nat) : world :=
  {| rand_pos := rand_pos w; next_id := next_id w; eval_calls := eval_calls w ++ [i] |}.

(** ** GeneticProgramClass *)

(** [logs] keeps, for every call of [logs_checkpoint], the value of
    [ran_generations] and the evaluations written for the indices
    [0 .. len(population) - 1], oldest first. *)
Record GeneticProgramClass : Type := {
  population_size : Z;
  generations : Z;
  objective_functions : list objective_function;
  objective_functions_arguments : list (list Arg);
  multiobjective_fitness : string;
  sampling_method : string;
  mutation_ratio : Q;
  tournament_size : Z;
  logs_level : Z;
  objectives : nat;
  darwin_champion : option F;
  population : list IndividualClass;
  x_train : X;
  y_train : Y;
  logs : list (Z * list evaluation_t);
  ran_generations : Z
}.

(** [__init__]: [objective_functions] is one function or a list of them;
    [objective_functions_arguments] is [None] or a list.  The experiment
    name only names the output folder and is left out. *)
Definition __init__
  (population_size0 generations0 : Z)
  (objective_functions0 : objective_function + list objective_function)
  (objective_functions_arguments0 : option (list (list Arg)))
  (multiobjective_fitness0 sampling_method0 : string)
  (mutation_ratio0 : Q) (tournament_size0 : Z)
  : result GeneticProgramClass :=
  let fs := match objective_functions0 with
            | inl f => [f]
            | inr l => l
            end in
  let args := match objective_functions_arguments0 with
              | None => map (fun _ => []) (range (Z.of_nat (length fs)))
              | Some a => a
              end in
  Ok {| population_size := population_size0;
        generations := generations0;
        objective_functions := fs;
        objective_functions_arguments := args;
        multiobjective_fitness := multiobjective_fitness0;
        sampling_method := sampling_method0;
        mutation_ratio := mutation_ratio0;
        tournament_size := tournament_size0;
        logs_level := 0;
        objectives := length fs;
        darwin_champion := None;
        population := [];
        x_train := x_empty;
        y_train := y_empty;
        logs := [];
        ran_generations := 0 |}.

Definition set_population (self : GeneticProgramClass) (pop : list IndividualClass)
  : GeneticProgramClass :=
  {| population_size := population_size self;
     generations := generations self;
     objective_functions := objective_functions self;
     objective_functions_arguments := objective_functions_arguments self;
     multiobjective_fitness := multiobjective_fitness self;
     sampling_method := sampling_method self;
     mutation_ratio := mutation_ratio self;
     tournament_size := tournament_size self;
     logs_level := logs_level self;
     objectives := objectives self;
     darwin_champion := darwin_champion self;
     population := pop;
     x_train := x_train self;
     y_train := y_train self;
     logs := logs self;
     ran_generations := ran_generations self |}.

Definition set_ran_generations (self : GeneticProgramClass) (g : Z)
  : GeneticProgramClass :=
  {| population_size := population_size self;
     generations := generations self;
     objective_functions := objective_functions self;
     objective_functions_arguments := objective_functions_arguments self;
     multiobjective_fitness := multiobjective_fitness self;
     sampling_method := sampling_method self;
     mutation_ratio := mutation_ratio self;
     tournament_size := tournament_size self;
     logs_level := logs_level self;
     objectives := objectives self;
     darwin_champion := darwin_champion self;
     population := population self;
     x_train := x_train self;
     y_train := y_train self;
     logs := logs self;
     ran_generations := g |}.

Definition set_train (self : GeneticProgramClass) (x : X) (y : Y)
  : GeneticProgramClass :=
  {| population_size := population_size self;
     generations := generations self;
     objective_functions := objective_functions self;
     objective_functions_arguments := objective_functions_arguments self;
     multiobjective_fitness := multiobjective_fitness self;
     sampling_method := sampling_method self;
     mutation_ratio := mutation_ratio self;
     tournament_size := tournament_size self;
     logs_level := logs_level self;
     objectives := objectives self;
     darwin_champion := darwin_champion self;
     population := population self;
     x_train := x;
     y_train := y;
     logs := logs self;
     ran_generations := ran_generations self |}.

Definition set_darwin_champion (self : GeneticProgramClass) (f : F)
  : GeneticProgramClass :=
  {| population_size := population_size self;
     generations := generations self;
     objective_functions := objective_functions self;
     objective_functions_arguments := objective_functions_arguments self;
     multiobjective_fitness := multiobjective_fitness self;
     sampling_method := sampling_method self;
     mutation_ratio := mutation_ratio self;
     tournament_size := tournament_size self;
     logs_level := logs_level self;
     objectives := objectives self;
     darwin_champion := Some f;
     population := population self;
     x_train := x_train self;
     y_train := y_train self;
     logs := logs self;
     ran_generations := ran_generations self |}.

(** [logs_checkpoint]: the entries of the current generation.  The string,
    the depth and the number of nodes of the fenotypes are the Model's, and
    writing the file is left out. *)
Definition logs_checkpoint (self : GeneticProgramClass) : GeneticProgramClass :=
  {| population_size := population_size self;
     generations := generations self;
     objective_functions := objective_functions self;
     objective_functions_arguments := objective_functions_arguments self;
     multiobjective_fitness := multiobjective_fitness self;
     sampling_method := sampling_method self;
     mutation_ratio := mutation_ratio self;
     tournament_size := tournament_size self;
     logs_level := logs_level self;
     objectives := objectives self;
     darwin_champion := darwin_champion self;
     population := population self;
     x_train := x_train self;
     y_train := y_train self;
     logs := logs self ++ [(ran_generations self, map evaluation (population self))];
     ran_generations := ran_generations self |}.

(** ** Fitness assignment *)

(** [objective_values[obj_idx][ind_idx]] *)
Definition ov_at (ov : list (list Q)) (obj_idx ind_idx : nat) : result Q :=
  row <- subscript ov (Z.of_nat obj_idx) ;;
  subscript row (Z.of_nat ind_idx).

(** The innermost loop of the strengths calculation: [dominated] starts
    true and the loop breaks at the first objective where the individual
    is below the one it is compared with. *)
Fixpoint dominated_loop (ov : list (list Q)) (ind_idx comparison_ind_idx : nat)
  (objs : list nat) : result bool :=
  match objs with
  | [] => Ok true
  | obj_idx :: rest =>
      a <- ov_at ov obj_idx ind_idx ;;
      b <- ov_at ov obj_idx comparison_ind_idx ;;
      if Qltb a b then Ok false
      else dominated_loop ov ind_idx comparison_ind_idx rest
  end.

(** The innermost loop of the strengths sum: [dominates_me] starts true
    and the loop breaks at the first objective where the individual is at
    least as high as the one it is compared with. *)
Fixpoint dominates_me_loop (ov : list (list Q)) (ind_idx comparison_ind_idx : nat)
  (objs : list nat) : result bool :=
  match objs with
  | [] => Ok true
  | obj_idx :: rest =>
      a <- ov_at ov obj_idx ind_idx ;;
      b <- ov_at ov obj_idx comparison_ind_idx ;;
      if Qle_bool b a then Ok false
      else dominates_me_loop ov ind_idx comparison_ind_idx rest
  end.

(** The first half of [_spea2]: the list [strengths]. *)
Definition spea2_strengths (n_objectives : nat) (ov : list (list Q))
  : result (list Z) :=
  first <- subscript ov 0 ;;
  let individuals := length first in
  map_m (fun ind_idx =>
           dominated_solutions <-
             for_each (fun acc comparison_ind_idx =>
                         dominated <- dominated_loop ov ind_idx comparison_ind_idx
                                        (seq 0 n_objectives) ;;
                         Ok (if dominated then (acc + 1)%Z else acc))
                      (seq 0 individuals) 0%Z ;;
           Ok (dominated_solutions - 1)%Z)
        (seq 0 individuals).

(** The second half of [_spea2]: the list [evaluations]. *)
Definition spea2_sums (n_objectives : nat) (ov : list (list Q)) (strengths : list Z)
  : result (list Z) :=
  first <- subscript ov 0 ;;
  let individuals := length first in
  map_m (fun ind_idx =>
           for_each (fun total_strengths comparison_ind_idx =>
                       dominates_me <- dominates_me_loop ov ind_idx comparison_ind_idx
                                         (seq 0 n_objectives) ;;
                       if dominates_me
                       then s <- subscript strengths (Z.of_nat comparison_ind_idx) ;;
                            Ok (total_strengths + s)%Z
                       else Ok total_strengths)
                    (seq 0 individuals) 0%Z)
        (seq 0 individuals).

Definition _spea2 (self : GeneticProgramClass) (ov : list (list Q))
  : result (list Z) :=
  strengths <- spea2_strengths (objectives self) ov ;;
  spea2_sums (objectives self) ov strengths.

(** An element of [items]: the objective values of one individual and, last,
    its index. *)
Definition item : Type := (list Q * nat)%type.

(** [item[objective_idx]] for an objective index, which is always below the
    number of values of the tuple. *)
Definition item_value (objective_idx : nat) (it : item) : Q :=
  nth objective_idx (fst it) 0.

(** [item[-1]] *)
Definition item_index (it : item) : nat := snd it.

(** [items]: the zip of the rows of [objective_values] and of
    [list(range(n))], as long as the shortest of them. *)
Definition zip_items (ov : list (list Q)) (n : nat) : list item :=
  let len := fold_right (fun row m => Nat.min (length row) m) n ov in
  map (fun k => (map (fun row => nth k row 0) ov, k)) (seq 0 len).

(** [distances], a [defaultdict(list)], as an association list in insertion
    order. *)
Definition distances_t : Type := list (nat * list fl).

(** [distances[key].append(v)] *)
Fixpoint dd_append (key : nat) (v : fl) (d : distances_t) : distances_t :=
  match d with
  | [] => [(key, [v])]
  | (k, ds) :: d' =>
      if Nat.eqb k key then (k, ds ++ [v]) :: d'
      else (k, ds) :: dd_append key v d'
  end.

(** The body of the loop of [_crowding_distance] over the objectives; the
    state is [items] (sorted in place) and [distances]. *)
Definition crowding_step (st : list item * distances_t) (objective_idx : nat)
  : result (list item * distances_t) :=
  let items := py_sorted (fun a b => Qltb (item_value objective_idx a)
                                          (item_value objective_idx b)) (fst st) in
  first <- subscript items 0 ;;
  let d1 := dd_append (item_index first) NInf (snd st) in
  last <- subscript items (-1) ;;
  let d2 := dd_append (item_index last) NInf d1 in
  d3 <- for_each (fun d i =>
                    it <- subscript items i ;;
                    next <- subscript items (i + 1) ;;
                    prev <- subscript items (i - 1) ;;
                    Ok (dd_append (item_index it)
                          (Fin (item_value objective_idx next
                                - item_value objective_idx prev)) d))
                 (range2 1 (Z.of_nat (length items) - 1)) d2 ;;
  Ok (items, d3).

Definition _crowding_distance (ov : list (list Q)) : result (list fl) :=
  first <- subscript ov 0 ;;
  let items := zip_items ov (length first) in
  '(_, distances) <- for_each crowding_step (seq 0 (length ov)) (items, []) ;;
  let indexes_mean_distances :=
    map (fun kd => (fst kd, fl_div_nat (py_sum (snd kd)) (length ov))) distances in
  let indexes_mean_distances :=
    py_sorted (fun a b => Nat.ltb (fst a) (fst b)) indexes_mean_distances in
  let crowding_distances := map snd indexes_mean_distances in
  max_cd <- py_max crowding_distances ;;
  Ok (map (fun cd => fl_sub max_cd cd) crowding_distances).

(** What [colored_plot] needs of its arguments: it takes [max(values)]. *)
Definition colored_plot (xs ys : list Q) (values : list Z) : result unit :=
  match values with
  | [] => Raise ValueError
  | _ => Ok tt
  end.

Definition set_evaluation (ind : IndividualClass) (e : evaluation_t) : IndividualClass :=
  {| ident := ident ind; fenotype := fenotype ind; evaluation := e;
     objective_values := objective_values ind |}.

Definition set_objective_values (ind : IndividualClass) (v : list Q) : IndividualClass :=
  {| ident := ident ind; fenotype := fenotype ind; evaluation := evaluation ind;
     objective_values := Some v |}.

(** [individual.objective_values[i]]; [None] is not subscriptable. *)
Definition objective_value (ind : IndividualClass) (i : nat) : result Q :=
  match objective_values ind with
  | None => Raise TypeError
  | Some v => subscript v (Z.of_nat i)
  end.

(** [individual.evaluation.append(v)]; a float has no [append]. *)
Definition evaluation_append (ind : IndividualClass) (v : fl) : result IndividualClass :=
  match evaluation ind with
  | EvFloat _ => Raise TypeError
  | EvList l => Ok (set_evaluation ind (EvList (l ++ [v])))
  end.

(** [[f(y, prediction, *args[obj_idx]) for obj_idx, f in enumerate(fs)]] *)
Fixpoint apply_objectives (fs : list objective_function) (args : list (list Arg))
  (y : Y) (prediction : P) (obj_idx : nat) : result (list Q) :=
  match fs with
  | [] => Ok []
  | f :: fs' =>
      a <- subscript args (Z.of_nat obj_idx) ;;
      vs <- apply_objectives fs' args y prediction (S obj_idx) ;;
      Ok (f y prediction a :: vs)
  end.

(** The first loop of [_evaluate_population]: objective values are computed
    for the individuals that have none. *)
Definition compute_objective_values (self : GeneticProgramClass)
  (st : list IndividualClass * world) (individual : IndividualClass)
  : result (list IndividualClass * world) :=
  match objective_values individual with
  | None =>
      let prediction := Model_evaluate (fenotype individual) (x_train self) in
      let w := record_call (snd st) (ident individual) in
      vs <- apply_objectives (objective_functions self)
              (objective_functions_arguments self) (y_train self) prediction 0 ;;
      Ok (fst st ++ [set_objective_values individual vs], w)
  | Some _ => Ok (fst st ++ [individual], snd st)
  end.

(** [for ind_idx, individual in enumerate(pop): individual = f(ind_idx, individual)] *)
Fixpoint map_enumerate (f : nat -> IndividualClass -> result IndividualClass)
  (ind_idx : nat) (pop : list IndividualClass) : result (list IndividualClass) :=
  match pop with
  | [] => Ok []
  | individual :: pop' =>
      individual' <- f ind_idx individual ;;
      rest <- map_enumerate f (S ind_idx) pop' ;;
      Ok (individual' :: rest)
  end.

Definition _evaluate_population (self : GeneticProgramClass) (w : world)
  : result (GeneticProgramClass * world) :=
  '(pop, w1) <- for_each (compute_objective_values self) (population self) ([], w) ;;
  if Nat.eqb (objectives self) 1 then
    pop1 <- map_enumerate (fun _ individual =>
                             v <- objective_value individual 0 ;;
                             Ok (set_evaluation individual (EvFloat (Fin v)))) 0 pop ;;
    Ok (set_population self pop1, w1)
  else if String.eqb (multiobjective_fitness self) "SPEA2" then
    ov <- map_m (fun obj_idx => map_m (fun individual => objective_value individual obj_idx) pop)
            (seq 0 (objectives self)) ;;
    evaluations <- _spea2 self ov ;;
    pop1 <- map_enumerate (fun ind_idx individual =>
                             e <- subscript evaluations (Z.of_nat ind_idx) ;;
                             Ok (set_evaluation individual (EvList [Fin (inject_Z e)]))) 0 pop ;;
    xs <- subscript ov 0 ;;
    ys <- subscript ov 1 ;;
    _ <- colored_plot xs ys evaluations ;;
    crowding_distances <- _crowding_distance ov ;;
    pop2 <- map_enumerate (fun ind_idx individual =>
                             cd <- subscript crowding_distances (Z.of_nat ind_idx) ;;
                             evaluation_append individual cd) 0 pop1 ;;
    Ok (set_population self pop2, w1)
  else
    (* [objective_values] is read without having been assigned *)
    Raise NameError.

(** ** Selection *)

(** [random()], once. *)
Definition draw (w : world) : Q * world :=
  (random (rand_pos w), set_rand_pos w (S (rand_pos w))).

(** [rd.choices(population, k = k)]: [k] times,
    [population[floor(random() * n)]] with [n = len(population)]. *)
Fixpoint choices_loop {A : Type} (pop : list A) (k : nat) (w : world)
  : result (list A * world) :=
  match k with
  | O => Ok ([], w)
  | S k' =>
      let (u, w1) := draw w in
      a <- subscript pop (Qfloor (u * inject_Z (Z.of_nat (length pop)))) ;;
      '(rest, w2) <- choices_loop pop k' w1 ;;
      Ok (a :: rest, w2)
  end.

Definition rd_choices {A : Type} (pop : list A) (k : Z) (w : world)
  : result (list A * world) :=
  choices_loop pop (Z.to_nat k) w.

(** [itertools.accumulate(weights)] *)
Fixpoint accumulate_from (s : Q) (ws : list Q) : list Q :=
  match ws with
  | [] => []
  | x :: ws' => (s + x) :: accumulate_from (s + x) ws'
  end.

Definition accumulate (ws : list Q) : list Q :=
  match ws with
  | [] => []
  | x :: ws' => x :: accumulate_from x ws'
  end.

(** [bisect(a, x, 0, hi)] on an ascending [a]: the first position below
    [hi] whose element is above [x], else [hi]. *)
Fixpoint bisect (a : list Q) (x : Q) (hi : nat) : nat :=
  match hi, a with
  | S hi', c :: a' => if Qltb x c then O else S (bisect a' x hi')
  | _, _ => O
  end.

Fixpoint weighted_choices_loop {A : Type} (pop : list A) (cum_weights : list Q)
  (total : Q) (k : nat) (w : world) : result (list A * world) :=
  match k with
  | O => Ok ([], w)
  | S k' =>
      let (u, w1) := draw w in
      a <- subscript pop
             (Z.of_nat (bisect cum_weights (u * total) (length pop - 1))) ;;
      '(rest, w2) <- weighted_choices_loop pop cum_weights total k' w1 ;;
      Ok (a :: rest, w2)
  end.

(** [rd.choices(population, weights = weights, k = k)], for the positive
    weights the engine passes. *)
Definition rd_choices_weighted {A : Type} (pop : list A) (weights : list Q) (k : Z)
  (w : world) : result (list A * world) :=
  let cum_weights := accumulate weights in
  if negb (Nat.eqb (length cum_weights) (length pop)) then Raise ValueError
  else
    total <- subscript cum_weights (-1) ;;
    weighted_choices_loop pop cum_weights total (Z.to_nat k) w.

(** [sorted(l)] on individuals, with [__lt__]. *)
Definition sorted_individuals (l : list IndividualClass)
  : result (list IndividualClass) :=
  py_sorted_m __lt__ l.

Definition _weighted_random_sample (self : GeneticProgramClass)
  (parent_population : list IndividualClass) (amount : Z) (w : world)
  : result (list IndividualClass * world) :=
  sorted_population <- sorted_individuals parent_population ;;
  let total_proportion := Z.of_nat (length sorted_population) in
  let probabilities :=
    map (fun i => inject_Z (total_proportion - i) / inject_Z total_proportion)
        (range total_proportion) in
  rd_choices_weighted sorted_population probabilities amount w.

Definition _tournament_selection (self : GeneticProgramClass)
  (parent_population : list IndividualClass) (amount : Z) (w : world)
  : result (list IndividualClass * world) :=
  for_each (fun (st : list IndividualClass * world) (_ : Z) =>
              '(competitors, w1) <- rd_choices parent_population
                                      (tournament_size self) (snd st) ;;
              sorted_competitors <- sorted_individuals competitors ;;
              winner <- subscript sorted_competitors 0 ;;
              Ok (fst st ++ [winner], w1))
           (range amount) ([], w).

(** The branch of [fit] on [sampling_method], for one of its three
    selections. *)
Definition select (self : GeneticProgramClass) (amount : Z) (w : world)
  : result (list IndividualClass * world) :=
  if String.eqb (sampling_method self) "tournament" then
    _tournament_selection self (population self) amount w
  else if String.eqb (sampling_method self) "weighted_random" then
    _weighted_random_sample self (population self) amount w
  else
    rd_choices (population self) amount w.

(** ** fit *)

(** [IndividualClass(fenotype)]: the new object takes the next allocation
    number. *)
Definition construct (f : F) (w : world) : IndividualClass * world :=
  (new_individual (next_id w) f, allocate w).

(** [[IndividualClass(individual) for individual in fenotypes]] *)
Fixpoint construct_all (fs : list F) (w : world) : list IndividualClass * world :=
  match fs with
  | [] => ([], w)
  | f :: fs' =>
      let (ind, w1) := construct f w in
      let (rest, w2) := construct_all fs' w1 in
      (ind :: rest, w2)
  end.

(** [[IndividualClass(self.Model.mutate(individual.fenotype))
      for individual in selected_mutations]] *)
Fixpoint mutate_all (selected_mutations : list IndividualClass) (w : world)
  : list IndividualClass * world :=
  match selected_mutations with
  | [] => ([], w)
  | individual :: rest =>
      let (f, p) := Model_mutate (fenotype individual) (rand_pos w) in
      let (ind, w1) := construct f (set_rand_pos w p) in
      let (inds, w2) := mutate_all rest w1 in
      (ind :: inds, w2)
  end.

(** [[IndividualClass(self.Model.crossover(selected_first_parents[i].fenotype,
      selected_second_parents[i].fenotype)) for i in range(crossovers)]] *)
Fixpoint crossover_all (selected_first_parents selected_second_parents : list IndividualClass)
  (indices : list Z) (w : world) : result (list IndividualClass * world) :=
  match indices with
  | [] => Ok ([], w)
  | i :: rest =>
      a <- subscript selected_first_parents i ;;
      b <- subscript selected_second_parents i ;;
      let (f, p) := Model_crossover (fenotype a) (fenotype b) (rand_pos w) in
      let (ind, w1) := construct f (set_rand_pos w p) in
      '(inds, w2) <- crossover_all selected_first_parents selected_second_parents rest w1 ;;
      Ok (ind :: inds, w2)
  end.

(** Parents selection and "increase population". *)
Definition reproduce (mutations crossovers : Z) (self : GeneticProgramClass) (w : world)
  : result (GeneticProgramClass * world) :=
  '(selected_first_parents, w1) <- select self crossovers w ;;
  '(selected_second_parents, w2) <- select self crossovers w1 ;;
  '(selected_mutations, w3) <- select self mutations w2 ;;
  let (mutated, w4) := mutate_all selected_mutations w3 in
  let self1 := set_population self (population self ++ mutated) in
  '(crossed, w5) <- crossover_all selected_first_parents selected_second_parents
                      (range crossovers) w4 ;;
  Ok (set_population self1 (population self1 ++ crossed), w5).

(** "select next generation's population", the checkpoint and the report of
    the champion of the generation. *)
Definition truncate (self : GeneticProgramClass) : result GeneticProgramClass :=
  sorted_population <- sorted_individuals (population self) ;;
  let self1 := set_population self (slice_to sorted_population (population_size self)) in
  let self2 := logs_checkpoint self1 in
  _ <- subscript (population self2) 0 ;;
  Ok self2.

(** The body of the loop over the generations. *)
Definition generation_step (mutations crossovers : Z)
  (st : GeneticProgramClass * world) (generation : Z)
  : result (GeneticProgramClass * world) :=
  let self := set_ran_generations (fst st) generation in
  '(self1, w1) <- reproduce mutations crossovers self (snd st) ;;
  '(self2, w2) <- _evaluate_population self1 w1 ;;
  self3 <- truncate self2 ;;
  Ok (self3, w2).

(** "Initial population initialisation" *)
Definition initialise (self : GeneticProgramClass) (x : X) (y : Y) (w : world)
  : result (GeneticProgramClass * world) :=
  let self := set_ran_generations (set_train self x y) 0 in
  let (fenotypes, p) := Model_generate_population (population_size self) (rand_pos w) in
  let (pop, w1) := construct_all fenotypes (set_rand_pos w p) in
  '(self1, w2) <- _evaluate_population (set_population self pop) w1 ;;
  sorted_population <- sorted_individuals (population self1) ;;
  Ok (logs_checkpoint (set_population self1 sorted_population), w2).

(** [math.ceil(self.population_size * self.mutation_ratio)] *)
Definition mutations_of (self : GeneticProgramClass) : Z :=
  Qceiling (inject_Z (population_size self) * mutation_ratio self).

Definition crossovers_of (self : GeneticProgramClass) : Z :=
  (population_size self - mutations_of self)%Z.

Definition fit (self : GeneticProgramClass) (x : X) (y : Y) (w : world)
  : result (F * GeneticProgramClass * world) :=
  '(self1, w1) <- initialise self x y w ;;
  let mutations := mutations_of self1 in
  let crossovers := crossovers_of self1 in
  '(self2, w2) <- for_each (generation_step mutations crossovers)
                    (range2 1 (generations self1)) (self1, w1) ;;
  champion <- subscript (population self2) 0 ;;
  Ok (fenotype champion, set_darwin_champion self2 (fenotype champion), w2).

(** ** The output folder *)

(** [verify_path]: the folder the log file and the plots go to.  A name
    that does not end with a slash is put under [outputs/]; creating the
    folder when it does not exist is left out. *)
Definition verify_path (tpath : option string) : result string :=
  match tpath with
  | None => Ok EmptyString
  | Some t =>
      c <- subscript (list_ascii_of_string t) (-1) ;;
      Ok (if negb (Ascii.eqb c "/"%char)
          then String.append "outputs/" (String.append t "/")
          else t)
  end.

(** ** predict *)

(** What [Model.evaluate] does when it is given [None] in the place of a
    fenotype, as [predict] gives it before any run of [fit]. *)
Variable Model_evaluate_None : X -> result P.

Definition predict (self : GeneticProgramClass) (x : X) : result P :=
  match darwin_champion self with
  | Some champion => Ok (Model_evaluate champion x)
  | None => Model_evaluate_None x
  end.

(** ** Definitions the statements use *)

(** Component-wise equality of two evaluation sequences of the same
    length, with the float equality of Python. *)
Definition components_equal (la lb : list fl) : Prop :=
  Forall2 (fun a b => fl_eqb a b = true) la lb.

(** [objective_values] is a matrix: one row per objective, one column per
    individual. *)
Definition matrix (ov : list (list Q)) (n_objectives n : nat) : Prop :=
  length ov = n_objectives /\ Forall (fun row => length row = n) ov.

(** Individual [j] is at most individual [i] in every objective. *)
Definition le_in_every_objective (ov : list (list Q)) (j i : nat) : bool :=
  forallb (fun row => Qle_bool (nth j row 0) (nth i row 0)) ov.

(** Individual [i] is strictly below individual [j] in every objective:
    [j] strictly dominates [i]. *)
Definition lt_in_every_objective (ov : list (list Q)) (i j : nat) : bool :=
  forallb (fun row => Qltb (nth i row 0) (nth j row 0)) ov.

(** The number of individuals, [i] included, that are at most [i] in every
    objective. *)
Definition weak_domination_count (ov : list (list Q)) (n i : nat) : Z :=
  Z.of_nat (length (filter (fun j => le_in_every_objective ov j i) (seq 0 n))).

Definition strength (ov : list (list Q)) (n i : nat) : Z :=
  (weak_domination_count ov n i - 1)%Z.

Definition Zsum (l : list Z) : Z := fold_right Z.add 0%Z l.

(** The other individuals that strictly dominate [i]. *)
Definition dominators (ov : list (list Q)) (n i : nat) : list nat :=
  filter (fun j => negb (Nat.eqb j i) && lt_in_every_objective ov i j) (seq 0 n).

(** The sum of the strengths of the other individuals that strictly
    dominate [i]. *)
Definition raw_fitness (ov : list (list Q)) (n i : nat) : Z :=
  Zsum (map (strength ov n) (dominators ov n i)).

(** [b] is [a] after [_evaluate_population]: the same object, with its
    objective values kept if it had some. *)
Definition evaluated_from (a b : IndividualClass) : Prop :=
  ident b = ident a /\ fenotype b = fenotype a /\
  objective_values b <> None /\
  (forall v, objective_values a = Some v -> objective_values b = Some v).

Definition unevaluated (a : IndividualClass) : bool :=
  match objective_values a with
  | None => true
  | Some _ => false
  end.


(** The record of the calls of [Model.evaluate] names no object twice and
    only objects that exist. *)
Definition world_wf (w : world) : Prop :=
  NoDup (eval_calls w) /\ forall i, In i (eval_calls w) -> (i < next_id w)%nat.

(** The population holds distinct objects that exist, and those without
    objective values have not been evaluated. *)
Definition objects_wf (pop : list IndividualClass) (w : world) : Prop :=
  world_wf w /\
  NoDup (map ident pop) /\
  (forall a, In a pop -> (ident a < next_id w)%nat) /\
  (forall a, In a pop -> objective_values a = None -> ~ In (ident a) (eval_calls w)).



Definition is_nan (x : fl) : bool :=
  match x with
  | NaN => true
  | _ => false
  end.

Definition ev_has_nan (e : evaluation_t) : bool :=
  match e with
  | EvFloat x => is_nan x
  | EvList l => existsb is_nan l
  end.

(** The three shapes the evaluations of a population can have after
    [_evaluate_population]: a finite float; a finite raw fitness with a
    crowding value that is finite or [+inf]; a finite raw fitness with
    [nan]. *)
Inductive shape : Type :=
| ShFloat
| ShPair
| ShPairNaN.

Definition has_shape (s : shape) (e : evaluation_t) : bool :=
  match e with
  | EvFloat (Fin _) =>
      match s with
      | ShFloat => true
      | _ => false
      end
  | EvList [Fin _; c] =>
      match s, c with
      | ShPair, Fin _ => true
      | ShPair, PInf => true
      | ShPairNaN, NaN => true
      | _, _ => false
      end
  | _ => false
  end.

(** What [__lt__] compares on an evaluation of one of these shapes: the
    first component and, when it is not [nan], the second. *)
Definition sort_key (e : evaluation_t) : Q * fl :=
  match e with
  | EvFloat (Fin q) => (q, Fin 0)
  | EvList [Fin r; NaN] => (r, Fin 0)
  | EvList [Fin r; c] => (r, c)
  | _ => (0, Fin 0)
  end.

Definition key_ltb (k1 k2 : Q * fl) : bool :=
  if Qltb (fst k2) (fst k1) then false
  else if Qltb (fst k1) (fst k2) then true
  else fl_ltb (snd k1) (snd k2).



(** An item that is never read: the default of [nth]. *)
Definition no_item : item := ([], O).



(** ** Definitions the proofs use *)

(** Selection allocates nothing and evaluates nothing. *)
Definition same_objects (w w' : world) : Prop :=
  next_id w' = next_id w /\ eval_calls w' = eval_calls w.

(** [inds] are new objects: they take the allocation numbers from [n] on and
    have no objective values yet. *)
Definition fresh_from (n : nat) (inds : list IndividualClass) : Prop :=
  map ident inds = seq n (length inds) /\
  Forall (fun a => objective_values a = None) inds.


(** An individual whose evaluation has the shape [s]. *)
Definition shaped (s : shape) (a : IndividualClass) : Prop :=
  has_shape s (evaluation a) = true.

(** [__lt__] on two individuals of one shape. *)
Definition ind_ltb (a b : IndividualClass) : bool :=
  key_ltb (sort_key (evaluation a)) (sort_key (evaluation b)).





(** A sequence of appends. *)
Definition dd_append_all (appends : list (nat * fl)) (d : distances_t) : distances_t :=
  fold_left (fun d kv => dd_append (fst kv) (snd kv) d) appends d.

(** [items] after [items.sort] on one objective. *)
Definition sort_items (objective_idx : nat) (items : list item) : list item :=
  py_sorted (fun a b => Qltb (item_value objective_idx a) (item_value objective_idx b))
            items.

(** The appends of one pass of the loop over the objectives, in the order
    of the code: the first item, the last one, then the items between. *)
Definition step_appends (objective_idx : nat) (order : list item) : list (nat * fl) :=
  (item_index (nth 0 order no_item), NInf)
  :: (item_index (nth (length order - 1) order no_item), NInf)
  :: map (fun p => (item_index (nth p order no_item),
                    Fin (item_value objective_idx (nth (p + 1) order no_item)
                         - item_value objective_idx (nth (p - 1) order no_item))))
         (seq 1 (length order - 2)).

(** The successive values of [items]. *)
Fixpoint orders_from (items : list item) (objs : list nat) : list (list item) :=
  match objs with
  | [] => []
  | objective_idx :: rest =>
      let order := sort_items objective_idx items in
      order :: orders_from order rest
  end.

(** The appends of all the passes, in order. *)
Fixpoint all_appends (objs : list nat) (orders : list (list item)) : list (nat * fl) :=
  match objs, orders with
  | objective_idx :: objs', order :: orders' =>
      step_appends objective_idx order ++ all_appends objs' orders'
  | _, _ => []
  end.


(** ** Definitions for the further properties *)

(** The loop of [__lt__] on what is left of the two lists. *)
Fixpoint lt_lists (la lb : list fl) : result bool :=
  match la with
  | [] => Ok false
  | a :: la' =>
      match lb with
      | [] => Raise IndexError
      | b :: lb' =>
          if fl_gtb a b then Ok false
          else if fl_ltb a b then Ok true
          else lt_lists la' lb'
      end
  end.

(** The loop of [__eq__] on what is left of the two lists. *)
Fixpoint eq_lists (la lb : list fl) : result bool :=
  match la with
  | [] => Ok true
  | a :: la' =>
      match lb with
      | [] => Raise IndexError
      | b :: lb' => if fl_neqb a b then Ok false else eq_lists la' lb'
      end
  end.

(** The two evaluations are of the same kind: two floats, or two lists of
    the same length. *)
Definition same_kind (e1 e2 : evaluation_t) : Prop :=
  match e1, e2 with
  | EvFloat _, EvFloat _ => True
  | EvList l1, EvList l2 => length l1 = length l2
  | _, _ => False
  end.

(** [b] is the object [a] with, possibly, another evaluation. *)
Definition same_but_evaluation (a b : IndividualClass) : Prop :=
  ident b = ident a /\ fenotype b = fenotype a /\
  objective_values b = objective_values a.

(** The body of the loop of [_tournament_selection]. *)
Definition tournament_round (self : GeneticProgramClass)
  (parent_population : list IndividualClass)
  (st : list IndividualClass * world) (i : Z)
  : result (list IndividualClass * world) :=
  '(competitors, w1) <- rd_choices parent_population (tournament_size self) (snd st) ;;
  sorted_competitors <- sorted_individuals competitors ;;
  winner <- subscript sorted_competitors 0 ;;
  Ok (fst st ++ [winner], w1).

(** The number of values of the random source a selection of [amount]
    individuals reads. *)
Definition draws_of (self : GeneticProgramClass) (amount : Z) : nat :=
  if String.eqb (sampling_method self) "tournament"
  then (Z.to_nat amount * Z.to_nat (tournament_size self))%nat
  else Z.to_nat amount.




(** The individual has objective values. *)
Definition evaluated (a : IndividualClass) : Prop := objective_values a <> None.

(** The number of individuals a run of [fit] creates: those of the initial
    population and, in every generation, one per mutation and one per
    crossover. *)
Definition created_by_fit (self : GeneticProgramClass) (w : world) : nat :=
  (length (fst (Model_generate_population (population_size self) (rand_pos w)))
   + Z.to_nat (generations self - 1)
     * (Z.to_nat (mutations_of self) + Z.to_nat (crossovers_of self)))%nat.


(** [b] has the configuration of [a]: what [__init__] was given. *)
Definition same_configuration (a b : GeneticProgramClass) : Prop :=
  population_size b = population_size a /\
  generations b = generations a /\
  objective_functions b = objective_functions a /\
  objective_functions_arguments b = objective_functions_arguments a /\
  multiobjective_fitness b = multiobjective_fitness a /\
  sampling_method b = sampling_method a /\
  mutation_ratio b = mutation_ratio a /\
  tournament_size b = tournament_size a /\
  logs_level b = logs_level a /\
  objectives b = objectives a.






(** * Properties *)

Unset Implicit Arguments.
Set Default Proof Using "Type".

(** ** The exception monad and Python sequences *)

Lemma bind_Ok {A B : Type} (c : result A) (k : A -> result B) (b : B) :
  bind c k = Ok b -> exists a, c = Ok a /\ k a = Ok b.
Proof.
  destruct c as [a|e]; simpl; intros H; [eauto | discriminate].
Qed.

(** Propositional steps look at the context only for propositions. *)
Ltac clear_functions :=
  repeat match goal with
         | f : ?T |- _ =>
             lazymatch T with
             | _ -> _ => idtac
             end;
             lazymatch type of T with
             | Prop => fail
             | _ => clear f
             end
         end.

Ltac prop := clear_functions; tauto.

Tactic Notation "inv_bind" hyp(H) "as" simple_intropattern(a) ident(Ha) :=
  apply bind_Ok in H; destruct H as (a & Ha & H).

Lemma subscript_nat {A : Type} (l : list A) (i : nat) :
  subscript l (Z.of_nat i) =
  match nth_error l i with
  | Some a => Ok a
  | None => Raise IndexError
  end.
Proof.
  unfold subscript.
  destruct (Z.of_nat i <? 0)%Z eqn:E; [apply Z.ltb_lt in E; lia|].
  rewrite E, Nat2Z.id. reflexivity.
Qed.

Lemma subscript_nat_Ok {A : Type} (l : list A) (i : nat) (a : A) :
  subscript l (Z.of_nat i) = Ok a <-> nth_error l i = Some a.
Proof.
  rewrite subscript_nat. destruct (nth_error l i); split; intros H;
    inversion H; reflexivity.
Qed.

Lemma subscript_0 {A : Type} (l : list A) :
  subscript l 0 = match l with
                  | [] => Raise IndexError
                  | a :: _ => Ok a
                  end.
Proof.
  change 0%Z with (Z.of_nat 0). rewrite subscript_nat. destruct l; reflexivity.
Qed.

Lemma subscript_in {A : Type} (l : list A) (i : Z) (a : A) :
  subscript l i = Ok a -> In a l.
Proof.
  unfold subscript.
  destruct (_ <? 0)%Z; [discriminate|].
  destruct (nth_error l _) eqn:E; [|discriminate].
  intros H; inversion H; subst. eapply nth_error_In; eauto.
Qed.

Lemma for_each_app {A S : Type} (body : S -> A -> result S) (xs ys : list A) (acc : S) :
  for_each body (xs ++ ys) acc = (acc' <- for_each body xs acc ;; for_each body ys acc').
Proof.
  revert acc. induction xs as [|x xs IH]; intros acc; simpl; [reflexivity|].
  destruct (body acc x); simpl; auto.
Qed.

(** A loop invariant. *)
Lemma for_each_invariant {A S : Type} (I : S -> Prop) (body : S -> A -> result S)
  (xs : list A) (acc acc' : S) :
  (forall s x s', In x xs -> I s -> body s x = Ok s' -> I s') ->
  I acc -> for_each body xs acc = Ok acc' -> I acc'.
Proof.
  revert acc. induction xs as [|x xs IH]; intros acc Hstep Hacc H; simpl in H.
  - inversion H; subst; assumption.
  - inv_bind H as s1 Hs1. eapply IH; [| |exact H].
    + intros; eapply Hstep; eauto. right; assumption.
    + eapply Hstep; eauto. left; reflexivity.
Qed.



Lemma map_m_total {A B : Type} (f : A -> result B) (g : A -> B) (xs : list A) :
  (forall x, In x xs -> f x = Ok (g x)) -> map_m f xs = Ok (map g xs).
Proof.
  induction xs as [|x xs IH]; intros H; simpl; [reflexivity|].
  rewrite (H x) by (left; reflexivity). simpl.
  rewrite IH by (intros; apply H; right; assumption). reflexivity.
Qed.

Lemma range2_length (a b : Z) : length (range2 a b) = Z.to_nat (b - a).
Proof. unfold range2. rewrite length_map, length_seq. reflexivity. Qed.

Lemma range2_nil (a b : Z) : (b <= a)%Z -> range2 a b = [].
Proof.
  intros H. unfold range2. replace (Z.to_nat (b - a)) with O by lia. reflexivity.
Qed.

(** ** IndividualClass.__eq__ *)

Lemma ev_subscript_app (pre lb : list fl) :
  ev_subscript (EvList (pre ++ lb)) (length pre) =
  match lb with
  | [] => Raise IndexError
  | b :: _ => Ok b
  end.
Proof.
  unfold ev_subscript. rewrite subscript_nat.
  rewrite nth_error_app2 by lia. rewrite Nat.sub_diag.
  destruct lb; reflexivity.
Qed.

Lemma app_cons_assoc {A : Type} (pre : list A) (b : A) (lb : list A) :
  pre ++ b :: lb = (pre ++ [b]) ++ lb.
Proof. rewrite <- app_assoc. reflexivity. Qed.

Lemma eq_loop_true (la lb pre : list fl) :
  eq_loop la (EvList (pre ++ lb)) (length pre) = Ok true <->
  components_equal la (firstn (length la) lb).
Proof.
  unfold components_equal.
  revert lb pre. induction la as [|a la IH]; intros lb pre; cbn [eq_loop].
  - simpl. split; intros; [constructor | reflexivity].
  - rewrite ev_subscript_app. destruct lb as [|b lb]; simpl.
    + split; intros H; [discriminate | inversion H].
    + unfold fl_neqb. destruct (fl_eqb a b) eqn:E; simpl.
      * rewrite app_cons_assoc.
        replace (S (length pre)) with (length (pre ++ [b]))
          by (rewrite length_app; simpl; lia).
        rewrite IH. split; intros H.
        -- constructor; assumption.
        -- inversion H; assumption.
      * split; intros H; [discriminate|].
        inversion H; subst. congruence.
Qed.

Lemma eq_loop_raises (la lb pre : list fl) :
  eq_loop la (EvList (pre ++ lb)) (length pre) = Raise IndexError <->
  (length lb < length la)%nat /\ components_equal (firstn (length lb) la) lb.
Proof.
  unfold components_equal.
  revert lb pre. induction la as [|a la IH]; intros lb pre; cbn [eq_loop].
  - simpl. split; [discriminate | intros [H _]; lia].
  - rewrite ev_subscript_app. destruct lb as [|b lb]; simpl.
    + split; intros _; [split; [lia | constructor] | reflexivity].
    + unfold fl_neqb. destruct (fl_eqb a b) eqn:E; simpl.
      * rewrite app_cons_assoc.
        replace (S (length pre)) with (length (pre ++ [b]))
          by (rewrite length_app; simpl; lia).
        rewrite IH. split; intros [H1 H2].
        -- split; [lia | constructor; assumption].
        -- split; [lia | inversion H2; assumption].
      * split; [discriminate|].
        intros [_ H]. inversion H; subst. congruence.
Qed.

(** C10, as the code has it.  On two list evaluations [__eq__] returns
    True exactly when every component of [self.evaluation] equals the
    component of [other.evaluation] at the same index, whatever
    [other.evaluation] holds after them; on lists of equal length this is
    component-wise equality; and when [other.evaluation] is the shorter one
    and agrees on all its components, the comparison raises [IndexError]. *)
Theorem eq_compares_the_components_of_self (a b : IndividualClass) (la lb : list fl) :
  let self := set_evaluation a (EvList la) in
  let other := set_evaluation b (EvList lb) in
  (__eq__ self other = Ok true <-> components_equal la (firstn (length la) lb)) /\
  (length la = length lb ->
   (__eq__ self other = Ok true <-> components_equal la lb)) /\
  (__eq__ self other = Raise IndexError <->
   (length lb < length la)%nat /\ components_equal (firstn (length lb) la) lb).
Proof.
  simpl. unfold __eq__, ev_eq. simpl.
  pose proof (eq_loop_true la lb []) as Ht.
  pose proof (eq_loop_raises la lb []) as Hr.
  simpl in Ht, Hr.
  split; [exact Ht|]. split; [|exact Hr].
  intros Hlen. rewrite Ht, Hlen, firstn_all. reflexivity.
Qed.

(** ** __init__ *)

(** C9, as the code has it.  [__init__] checks nothing: whatever the
    population size, the number of generations, the mutation ratio and the
    tournament size are, it returns an engine that stores them unchanged. *)
Theorem init_accepts_every_configuration
  (ps gens : Z) (fs : objective_function + list objective_function)
  (args : option (list (list Arg))) (mf sm : string) (ratio : Q) (ts : Z) :
  exists self,
    __init__ ps gens fs args mf sm ratio ts = Ok self /\
    population_size self = ps /\ generations self = gens /\
    mutation_ratio self = ratio /\ tournament_size self = ts /\
    population self = [] /\ ran_generations self = 0%Z.
Proof.
  unfold __init__. eexists. split; [reflexivity|].
  repeat split.
Qed.

(** ** Tournaments of one competitor *)

Lemma sorted_individuals_singleton (a : IndividualClass) :
  sorted_individuals [a] = Ok [a].
Proof. reflexivity. Qed.

Lemma tournament_loop_of_one (self : GeneticProgramClass)
  (pop : list IndividualClass) (rounds : list Z)
  (selection : list IndividualClass) (w : world) :
  tournament_size self = 1%Z ->
  for_each (fun (st : list IndividualClass * world) (_ : Z) =>
              '(competitors, w1) <- rd_choices pop (tournament_size self) (snd st) ;;
              sorted_competitors <- sorted_individuals competitors ;;
              winner <- subscript sorted_competitors 0 ;;
              Ok (fst st ++ [winner], w1))
           rounds (selection, w) =
  ('(rest, w') <- choices_loop pop (length rounds) w ;; Ok (selection ++ rest, w')).
Proof.
  intros Hts. revert selection w.
  induction rounds as [|r rounds IH]; intros selection w; simpl.
  - rewrite app_nil_r. reflexivity.
  - assert (Hround : rd_choices pop (tournament_size self) w =
                     (a <- subscript pop (Qfloor (random (rand_pos w)
                                                  * inject_Z (Z.of_nat (length pop)))) ;;
                      Ok ([a], set_rand_pos w (S (rand_pos w))))).
    { rewrite Hts. unfold rd_choices. simpl.
      destruct (subscript pop _); reflexivity. }
    rewrite Hround.
    destruct (subscript pop _) as [a|e]; simpl; [|reflexivity].
    rewrite IH.
    destruct (choices_loop pop (length rounds) _) as [[rest w']|e]; simpl;
      [|reflexivity].
    rewrite <- app_assoc. reflexivity.
Qed.

(** C8.  With [tournament_size = 1], [_tournament_selection] returns, for
    the same values of [random()], what [rd.choices(population, k = amount)]
    returns: the same individuals in the same order (or the same
    exception), having consumed the same number of random values.  The two
    strategies are the same function of the random source, hence induce the
    same distribution. *)
Theorem tournament_of_one_is_uniform (self : GeneticProgramClass)
  (parent_population : list IndividualClass) (amount : Z) (w : world) :
  tournament_size self = 1%Z ->
  _tournament_selection self parent_population amount w =
  rd_choices parent_population amount w.
Proof.
  intros Hts. unfold _tournament_selection.
  rewrite (tournament_loop_of_one self parent_population (range amount) [] w Hts).
  unfold rd_choices, range. rewrite range2_length, Z.sub_0_r.
  destruct (choices_loop parent_population (Z.to_nat amount) w) as [[rest w']|e];
    reflexivity.
Qed.

(** ** _spea2 *)

Lemma map_nth_seq {A : Type} (l : list A) (d : A) :
  map (fun i => nth i l d) (seq 0 (length l)) = l.
Proof.
  induction l as [|a l IH]; simpl; [reflexivity|].
  f_equal. rewrite <- seq_shift, map_map. exact IH.
Qed.

Lemma forallb_nth_seq {A : Type} (f : A -> bool) (l : list A) (d : A) :
  forallb (fun i => f (nth i l d)) (seq 0 (length l)) = forallb f l.
Proof.
  transitivity (forallb f (map (fun i => nth i l d) (seq 0 (length l)))).
  - generalize (seq 0 (length l)). intros s.
    induction s as [|x s IH]; simpl; [reflexivity | rewrite IH; reflexivity].
  - rewrite map_nth_seq. reflexivity.
Qed.

Lemma subscript_nth {A : Type} (l : list A) (i : nat) (d : A) :
  (i < length l)%nat -> subscript l (Z.of_nat i) = Ok (nth i l d).
Proof.
  intros H. rewrite subscript_nat.
  rewrite (nth_error_nth' l d H). reflexivity.
Qed.

Section Spea2.

#[local] Set Default Proof Using "Type*".

Variable ov : list (list Q).
Variables n_objectives n : nat.
Hypothesis Hmatrix : matrix ov n_objectives n.

Lemma matrix_row (o : nat) : (o < n_objectives)%nat -> length (nth o ov []) = n.
Proof.
  destruct Hmatrix as [Hlen Hrows]. intros Ho.
  rewrite Forall_forall in Hrows. apply Hrows. apply nth_In. lia.
Qed.

Lemma ov_at_Ok (o i : nat) :
  (o < n_objectives)%nat -> (i < n)%nat ->
  ov_at ov o i = Ok (nth i (nth o ov []) 0).
Proof.
  intros Ho Hi. unfold ov_at.
  rewrite (subscript_nth ov o []) by (destruct Hmatrix; lia). simpl.
  apply subscript_nth. rewrite matrix_row; assumption.
Qed.

Lemma matrix_first :
  (1 <= n_objectives)%nat ->
  exists first, subscript ov 0 = Ok first /\ length first = n.
Proof.
  intros H. exists (nth 0 ov []). split.
  - change 0%Z with (Z.of_nat 0). apply subscript_nth. destruct Hmatrix; lia.
  - apply matrix_row. lia.
Qed.

Lemma dominated_loop_Ok (i j : nat) (objs : list nat) :
  (i < n)%nat -> (j < n)%nat -> Forall (fun o => (o < n_objectives)%nat) objs ->
  dominated_loop ov i j objs =
  Ok (forallb (fun o => Qle_bool (nth j (nth o ov []) 0) (nth i (nth o ov []) 0)) objs).
Proof.
  intros Hi Hj. induction objs as [|o objs IH]; intros Hobjs; simpl; [reflexivity|].
  apply Forall_cons_iff in Hobjs. destruct Hobjs as [Ho Hobjs].
  rewrite !ov_at_Ok by assumption. simpl. unfold Qltb.
  destruct (Qle_bool _ _); simpl; auto.
Qed.

Lemma dominates_me_loop_Ok (i j : nat) (objs : list nat) :
  (i < n)%nat -> (j < n)%nat -> Forall (fun o => (o < n_objectives)%nat) objs ->
  dominates_me_loop ov i j objs =
  Ok (forallb (fun o => Qltb (nth i (nth o ov []) 0) (nth j (nth o ov []) 0)) objs).
Proof.
  intros Hi Hj. induction objs as [|o objs IH]; intros Hobjs; simpl; [reflexivity|].
  apply Forall_cons_iff in Hobjs. destruct Hobjs as [Ho Hobjs].
  rewrite !ov_at_Ok by assumption. simpl. unfold Qltb.
  destruct (Qle_bool _ _); simpl; auto.
Qed.

Lemma objectives_in_range : Forall (fun o => (o < n_objectives)%nat) (seq 0 n_objectives).
Proof. apply Forall_forall. intros o Ho. apply in_seq in Ho. lia. Qed.

Lemma dominated_all (i j : nat) :
  (i < n)%nat -> (j < n)%nat ->
  dominated_loop ov i j (seq 0 n_objectives) = Ok (le_in_every_objective ov j i).
Proof.
  intros Hi Hj. rewrite dominated_loop_Ok by auto using objectives_in_range.
  unfold le_in_every_objective. destruct Hmatrix as [<- _].
  rewrite (forallb_nth_seq (fun row => Qle_bool (nth j row 0) (nth i row 0)) ov []).
  reflexivity.
Qed.

Lemma dominates_me_all (i j : nat) :
  (i < n)%nat -> (j < n)%nat ->
  dominates_me_loop ov i j (seq 0 n_objectives) = Ok (lt_in_every_objective ov i j).
Proof.
  intros Hi Hj. rewrite dominates_me_loop_Ok by auto using objectives_in_range.
  unfold lt_in_every_objective. destruct Hmatrix as [<- _].
  rewrite (forallb_nth_seq (fun row => Qltb (nth i row 0) (nth j row 0)) ov []).
  reflexivity.
Qed.

(** The loop that counts [dominated_solutions]. *)
Lemma count_dominated (i : nat) (js : list nat) (acc : Z) :
  (i < n)%nat -> Forall (fun j => (j < n)%nat) js ->
  for_each (fun acc j =>
              dominated <- dominated_loop ov i j (seq 0 n_objectives) ;;
              Ok (if dominated then (acc + 1)%Z else acc)) js acc =
  Ok (acc + Z.of_nat (length (filter (fun j => le_in_every_objective ov j i) js)))%Z.
Proof.
  intros Hi. revert acc. induction js as [|j js IH]; intros acc Hjs; simpl.
  - f_equal. lia.
  - apply Forall_cons_iff in Hjs. destruct Hjs as [Hj Hjs].
    rewrite dominated_all by assumption. simpl.
    rewrite IH by assumption.
    destruct (le_in_every_objective ov j i); simpl; f_equal; lia.
Qed.

(** The loop that adds up [total_strengths]. *)
Lemma sum_strengths (strengths : list Z) (i : nat) (js : list nat) (acc : Z) :
  length strengths = n ->
  (i < n)%nat -> Forall (fun j => (j < n)%nat) js ->
  for_each (fun total_strengths j =>
              dominates_me <- dominates_me_loop ov i j (seq 0 n_objectives) ;;
              if dominates_me
              then s <- subscript strengths (Z.of_nat j) ;; Ok (total_strengths + s)%Z
              else Ok total_strengths) js acc =
  Ok (acc + Zsum (map (fun j => nth j strengths 0%Z)
                      (filter (fun j => lt_in_every_objective ov i j) js)))%Z.
Proof.
  intros Hlen Hi. revert acc. induction js as [|j js IH]; intros acc Hjs; simpl.
  - f_equal. lia.
  - apply Forall_cons_iff in Hjs. destruct Hjs as [Hj Hjs].
    rewrite dominates_me_all by assumption. simpl.
    destruct (lt_in_every_objective ov i j); simpl.
    + rewrite (subscript_nth strengths j 0%Z) by lia. simpl.
      rewrite IH by assumption. f_equal. lia.
    + apply IH; assumption.
Qed.

Lemma individuals_in_range : Forall (fun j => (j < n)%nat) (seq 0 n).
Proof. apply Forall_forall. intros j Hj. apply in_seq in Hj. lia. Qed.

Lemma spea2_strengths_Ok :
  (1 <= n_objectives)%nat ->
  spea2_strengths n_objectives ov = Ok (map (strength ov n) (seq 0 n)).
Proof.
  intros H. unfold spea2_strengths.
  destruct (matrix_first H) as (first & -> & Hfirst). simpl. rewrite Hfirst.
  apply map_m_total. intros i Hi. apply in_seq in Hi.
  rewrite count_dominated by (try lia; apply individuals_in_range).
  reflexivity.
Qed.

(** No individual is strictly below itself when there is an objective. *)
Lemma not_below_itself (i : nat) :
  (1 <= n_objectives)%nat -> lt_in_every_objective ov i i = false.
Proof.
  intros H. unfold lt_in_every_objective.
  destruct Hmatrix as [Hlen _]. destruct ov as [|row rows]; simpl in *; [lia|].
  unfold Qltb. replace (Qle_bool (nth i row 0) (nth i row 0)) with true; [reflexivity|].
  symmetry. apply Qle_bool_iff. apply Qle_refl.
Qed.

Lemma dominators_filter (i : nat) :
  (1 <= n_objectives)%nat ->
  filter (fun j => lt_in_every_objective ov i j) (seq 0 n) = dominators ov n i.
Proof.
  intros H. unfold dominators. apply filter_ext_in. intros j _.
  destruct (Nat.eqb j i) eqn:E; simpl; [|reflexivity].
  apply Nat.eqb_eq in E. subst. apply not_below_itself. assumption.
Qed.

Lemma spea2_sums_Ok :
  (1 <= n_objectives)%nat ->
  spea2_sums n_objectives ov (map (strength ov n) (seq 0 n)) =
  Ok (map (raw_fitness ov n) (seq 0 n)).
Proof.
  intros H. unfold spea2_sums.
  destruct (matrix_first H) as (first & -> & Hfirst). simpl. rewrite Hfirst.
  apply map_m_total. intros i Hi. apply in_seq in Hi.
  rewrite sum_strengths;
    [| rewrite length_map, length_seq; reflexivity | lia | apply individuals_in_range].
  rewrite dominators_filter by assumption.
  unfold raw_fitness. simpl. f_equal. f_equal.
  apply map_ext_in. intros j Hj.
  apply filter_In in Hj. destruct Hj as [Hj _]. apply in_seq in Hj.
  rewrite (nth_indep _ 0%Z (strength ov n 0)) by (rewrite length_map, length_seq; lia).
  rewrite map_nth, seq_nth by lia. reflexivity.
Qed.

End Spea2.

Lemma le_in_every_objective_refl (ov : list (list Q)) (i : nat) :
  le_in_every_objective ov i i = true.
Proof.
  unfold le_in_every_objective. apply forallb_forall. intros row _.
  apply Qle_bool_iff. apply Qle_refl.
Qed.

Lemma lt_le_in_every_objective (ov : list (list Q)) (i j : nat) :
  lt_in_every_objective ov i j = true -> le_in_every_objective ov i j = true.
Proof.
  unfold lt_in_every_objective, le_in_every_objective.
  rewrite !forallb_forall. intros H row Hrow. specialize (H row Hrow).
  apply Qle_bool_iff. unfold Qltb in H. apply negb_true_iff in H.
  destruct (Qlt_le_dec (nth i row 0) (nth j row 0)) as [Hlt|Hle].
  - apply Qlt_le_weak. assumption.
  - apply Qle_bool_iff in Hle. congruence.
Qed.

Lemma strength_nonneg (ov : list (list Q)) (n i : nat) :
  (i < n)%nat -> (0 <= strength ov n i)%Z.
Proof.
  intros Hi. unfold strength, weak_domination_count.
  assert (In i (filter (fun j => le_in_every_objective ov j i) (seq 0 n))) as Hin.
  { apply filter_In. split; [apply in_seq; lia | apply le_in_every_objective_refl]. }
  destruct (filter _ _); [contradiction | simpl length; lia].
Qed.

Lemma strength_of_dominator (ov : list (list Q)) (n i j : nat) :
  (i < n)%nat -> (j < n)%nat -> i <> j ->
  lt_in_every_objective ov i j = true -> (1 <= strength ov n j)%Z.
Proof.
  intros Hi Hj Hij Hlt. unfold strength, weak_domination_count.
  set (below := filter (fun k => le_in_every_objective ov k j) (seq 0 n)).
  assert (incl [i; j] below) as Hincl.
  { intros k [<-|[<-|[]]]; apply filter_In; split; try (apply in_seq; lia).
    - apply lt_le_in_every_objective. assumption.
    - apply le_in_every_objective_refl. }
  assert (NoDup [i; j]) as Hnd.
  { constructor; [intros [H|[]]; congruence|]. constructor; [intros []|constructor]. }
  pose proof (NoDup_incl_length Hnd Hincl) as Hlen. simpl in Hlen. lia.
Qed.




Lemma spea2_Ok (self : GeneticProgramClass) (ov : list (list Q)) (n : nat) :
  (1 <= objectives self)%nat -> matrix ov (objectives self) n ->
  spea2_strengths (objectives self) ov = Ok (map (strength ov n) (seq 0 n)) /\
  _spea2 self ov = Ok (map (raw_fitness ov n) (seq 0 n)).
Proof.
  intros Hobj Hm. unfold _spea2.
  rewrite (spea2_strengths_Ok _ _ _ Hm Hobj). simpl.
  rewrite (spea2_sums_Ok _ _ _ Hm Hobj). split; reflexivity.
Qed.

Lemma nth_map_seq {A : Type} (f : nat -> A) (n i : nat) (d : A) :
  (i < n)%nat -> nth i (map f (seq 0 n)) d = f i.
Proof.
  intros Hi. rewrite (nth_indep _ d (f 0%nat)) by (rewrite length_map, length_seq; lia).
  rewrite map_nth, seq_nth by lia. reflexivity.
Qed.



(** ** _evaluate_population: what it changes *)

Lemma compute_objective_values_loop (self : GeneticProgramClass)
  (pop done pop1 : list IndividualClass) (w w1 : world) :
  for_each (compute_objective_values self) pop (done, w) = Ok (pop1, w1) ->
  exists pop', pop1 = done ++ pop' /\
    Forall2 evaluated_from pop pop' /\
    Forall2 (fun a b => evaluation b = evaluation a) pop pop' /\
    eval_calls w1 = eval_calls w ++ map ident (filter unevaluated pop) /\
    rand_pos w1 = rand_pos w /\ next_id w1 = next_id w.
Proof.
  revert done w. induction pop as [|a pop IH]; intros done w H; simpl in H.
  - inversion H; subst. exists []. rewrite !app_nil_r. repeat split; constructor.
  - inv_bind H as [done' w'] Ha.
    apply IH in H. destruct H as (pop' & -> & HF & HE & Hc & Hr & Hn).
    unfold compute_objective_values in Ha. unfold unevaluated at 1. simpl.
    destruct (objective_values a) as [v|] eqn:Eov; simpl in Ha.
    + inversion Ha; subst; clear Ha.
      exists (a :: pop'). rewrite <- app_assoc. simpl.
      repeat split; auto.
      constructor; [|assumption].
      repeat split; auto. congruence.
    + inv_bind Ha as vs Hvs. inversion Ha; subst; clear Ha. simpl in *.
      exists (set_objective_values a vs :: pop'). rewrite <- app_assoc. simpl.
      repeat split; auto.
      * constructor; [|assumption].
        repeat split; simpl; congruence.
      * rewrite Hc, <- app_assoc. reflexivity.
Qed.

Lemma map_enumerate_Forall2 (f : nat -> IndividualClass -> result IndividualClass)
  (k : nat) (pop pop' : list IndividualClass) :
  map_enumerate f k pop = Ok pop' ->
  Forall2 (fun a b => exists i, f i a = Ok b) pop pop'.
Proof.
  revert k pop'. induction pop as [|a pop IH]; intros k pop' H; simpl in H.
  - inversion H; constructor.
  - inv_bind H as b Hb. inv_bind H as rest Hrest. inversion H; subst.
    constructor; eauto.
Qed.


Lemma Forall2_trans_rel {A : Type} (R S T : A -> A -> Prop) (l1 l2 l3 : list A) :
  (forall a b c, R a b -> S b c -> T a c) ->
  Forall2 R l1 l2 -> Forall2 S l2 l3 -> Forall2 T l1 l3.
Proof.
  intros HRS H12. revert l3. induction H12; intros l3 H23; inversion H23; subst;
    constructor; eauto.
Qed.

Lemma evaluated_from_set_evaluation (a b c : IndividualClass) :
  evaluated_from a b -> (exists e, c = set_evaluation b e) -> evaluated_from a c.
Proof.
  intros (Hi & Hf & Hn & Hv) (e & ->). unfold evaluated_from. simpl. auto.
Qed.

(** [_evaluate_population] changes the population only: every individual
    stays in its place, [Model.evaluate] is called for those whose
    [objective_values] is [None], in order, and for no other. *)
Lemma evaluate_population_spec (self self' : GeneticProgramClass) (w w' : world) :
  _evaluate_population self w = Ok (self', w') ->
  exists pop',
    self' = set_population self pop' /\
    Forall2 evaluated_from (population self) pop' /\
    eval_calls w' = eval_calls w ++ map ident (filter unevaluated (population self)) /\
    rand_pos w' = rand_pos w /\ next_id w' = next_id w.
Proof.
  unfold _evaluate_population. intros H.
  inv_bind H as [pop w1] Ha.
  apply compute_objective_values_loop in Ha.
  destruct Ha as (pop0 & Hpop & HF & _ & Hc & Hr & Hn). simpl in Hpop. subst pop0.
  destruct (Nat.eqb (objectives self) 1).
  - inv_bind H as pop1 Hpop1. inversion H; subst; clear H.
    exists pop1. repeat split; auto.
    apply map_enumerate_Forall2 in Hpop1.
    eapply Forall2_trans_rel; [| exact HF | exact Hpop1].
    intros x y z Hxy [i Hz]. eapply evaluated_from_set_evaluation; [exact Hxy|].
    inv_bind Hz as v Hv. inversion Hz; eauto.
  - destruct (String.eqb (multiobjective_fitness self) "SPEA2"); [|discriminate].
    inv_bind H as ov Hov. inv_bind H as evaluations Hevs.
    inv_bind H as pop1 Hpop1. inv_bind H as xs Hxs. inv_bind H as ys Hys.
    inv_bind H as u Hu. inv_bind H as cds Hcds. inv_bind H as pop2 Hpop2.
    inversion H; subst; clear H.
    exists pop2. repeat split; auto.
    apply map_enumerate_Forall2 in Hpop1, Hpop2.
    eapply Forall2_trans_rel; [| exact HF |].
    2:{ eapply Forall2_trans_rel; [| exact Hpop1 | exact Hpop2].
        intros x y z Hxy Hyz. exact (ex_intro _ y (conj Hxy Hyz)). }
    intros x y z Hxy [y' [[i Hy'] [j Hz]]]. simpl in *.
    inv_bind Hy' as e He. inversion Hy'; subst; clear Hy'.
    inv_bind Hz as cd Hcd. unfold evaluation_append in Hz. simpl in Hz.
    inversion Hz; subst; clear Hz.
    eapply evaluated_from_set_evaluation; [exact Hxy|].
    eexists. reflexivity.
Qed.

(** ** Sorting, selection and reproduction: what they keep *)

Lemma py_insert_m_Permutation {A : Type} (lt : A -> A -> result bool)
  (x : A) (l l' : list A) :
  py_insert_m lt x l = Ok l' -> Permutation (x :: l) l'.
Proof.
  revert l'. induction l as [|y l IH]; intros l' H; simpl in H.
  - inversion H. apply Permutation_refl.
  - inv_bind H as b Hb. destruct b.
    + inversion H. apply Permutation_refl.
    + inv_bind H as l'' Hl''. inversion H; subst.
      eapply perm_trans; [apply perm_swap|]. apply perm_skip. auto.
Qed.

Lemma py_sorted_m_loop_Permutation {A : Type} (lt : A -> A -> result bool)
  (l acc l' : list A) :
  for_each (fun acc x => py_insert_m lt x acc) l acc = Ok l' ->
  Permutation (acc ++ l) l'.
Proof.
  revert acc. induction l as [|x l IH]; intros acc H; simpl in H.
  - inversion H; subst. rewrite app_nil_r. apply Permutation_refl.
  - inv_bind H as acc1 Hacc1. apply IH in H.
    apply py_insert_m_Permutation in Hacc1.
    eapply perm_trans; [|exact H].
    eapply perm_trans; [apply Permutation_sym, Permutation_middle|].
    change (Permutation ((x :: acc) ++ l) (acc1 ++ l)).
    apply Permutation_app_tail. assumption.
Qed.

Lemma sorted_individuals_Permutation (l l' : list IndividualClass) :
  sorted_individuals l = Ok l' -> Permutation l l'.
Proof.
  intros H. apply py_sorted_m_loop_Permutation in H. exact H.
Qed.

Lemma same_objects_refl (w : world) : same_objects w w.
Proof. split; reflexivity. Qed.

Lemma same_objects_trans (w1 w2 w3 : world) :
  same_objects w1 w2 -> same_objects w2 w3 -> same_objects w1 w3.
Proof. unfold same_objects. intros [? ?] [? ?]. split; congruence. Qed.

Lemma choices_loop_spec {A : Type} (pop : list A) (k : nat) (w w' : world)
  (sel : list A) :
  choices_loop pop k w = Ok (sel, w') ->
  length sel = k /\ Forall (fun a => In a pop) sel /\ same_objects w w'.
Proof.
  revert w sel. induction k as [|k IH]; intros w sel H; simpl in H.
  - inversion H; subst. repeat split; constructor.
  - inv_bind H as a Ha. inv_bind H as [rest w2] Hrest. inversion H; subst.
    apply IH in Hrest. destruct Hrest as (Hlen & Hin & Hobj).
    split; [simpl; lia|]. split.
    + constructor; [eapply subscript_in; eauto | assumption].
    + eapply same_objects_trans; [|exact Hobj]. split; reflexivity.
Qed.

Lemma weighted_choices_loop_spec {A : Type} (pop : list A) (cum : list Q) (total : Q)
  (k : nat) (w w' : world) (sel : list A) :
  weighted_choices_loop pop cum total k w = Ok (sel, w') ->
  length sel = k /\ Forall (fun a => In a pop) sel /\ same_objects w w'.
Proof.
  revert w sel. induction k as [|k IH]; intros w sel H; simpl in H.
  - inversion H; subst. repeat split; constructor.
  - inv_bind H as a Ha. inv_bind H as [rest w2] Hrest. inversion H; subst.
    apply IH in Hrest. destruct Hrest as (Hlen & Hin & Hobj).
    split; [simpl; lia|]. split.
    + constructor; [eapply subscript_in; eauto | assumption].
    + eapply same_objects_trans; [|exact Hobj]. split; reflexivity.
Qed.

Lemma tournament_loop_spec (self : GeneticProgramClass) (pop : list IndividualClass)
  (rounds : list Z) (sel0 sel : list IndividualClass) (w w' : world) :
  for_each (fun (st : list IndividualClass * world) (_ : Z) =>
              '(competitors, w1) <- rd_choices pop (tournament_size self) (snd st) ;;
              sorted_competitors <- sorted_individuals competitors ;;
              winner <- subscript sorted_competitors 0 ;;
              Ok (fst st ++ [winner], w1))
           rounds (sel0, w) = Ok (sel, w') ->
  length sel = (length sel0 + length rounds)%nat /\
  (Forall (fun a => In a pop) sel0 -> Forall (fun a => In a pop) sel) /\
  same_objects w w'.
Proof.
  revert sel0 w. induction rounds as [|r rounds IH]; intros sel0 w H; simpl in H.
  - inversion H; subst. split; [simpl; lia|]. split; [auto | apply same_objects_refl].
  - inv_bind H as [sel1 w1] Hround. apply IH in H. destruct H as (Hlen & Hin & Hobj).
    inv_bind Hround as [competitors w1'] Hc. simpl in Hround.
    inv_bind Hround as sorted_competitors Hs. inv_bind Hround as winner Hw.
    inversion Hround; subst; clear Hround.
    apply choices_loop_spec in Hc. destruct Hc as (_ & Hcin & Hcobj).
    apply sorted_individuals_Permutation in Hs. apply subscript_in in Hw.
    split; [rewrite Hlen, length_app; simpl; lia|]. split.
    + intros H0. apply Hin. apply Forall_app. split; [assumption|].
      constructor; [|constructor].
      rewrite Forall_forall in Hcin. apply Hcin.
      eapply Permutation_in; [apply Permutation_sym; exact Hs | exact Hw].
    + eapply same_objects_trans; eauto.
Qed.

Lemma select_spec (self : GeneticProgramClass) (amount : Z) (w w' : world)
  (sel : list IndividualClass) :
  select self amount w = Ok (sel, w') ->
  length sel = Z.to_nat amount /\
  Forall (fun a => In a (population self)) sel /\ same_objects w w'.
Proof.
  unfold select. intros H.
  destruct (String.eqb (sampling_method self) "tournament").
  - apply tournament_loop_spec in H. destruct H as (Hlen & Hin & Hobj).
    unfold range in Hlen. rewrite range2_length, Z.sub_0_r in Hlen.
    repeat split; try apply Hobj; [exact Hlen | apply Hin; constructor].
  - destruct (String.eqb (sampling_method self) "weighted_random").
    + unfold _weighted_random_sample in H. inv_bind H as sorted_population Hs.
      unfold rd_choices_weighted in H.
      destruct (negb _); [discriminate|]. inv_bind H as total Ht.
      apply weighted_choices_loop_spec in H. destruct H as (Hlen & Hin & Hobj).
      repeat split; try apply Hobj; [exact Hlen|].
      apply sorted_individuals_Permutation in Hs.
      eapply Forall_impl; [|exact Hin]. intros a Ha.
      eapply Permutation_in; [apply Permutation_sym; exact Hs | exact Ha].
    + apply choices_loop_spec in H. exact H.
Qed.

Lemma fresh_from_app (n : nat) (l1 l2 : list IndividualClass) :
  fresh_from n l1 -> fresh_from (n + length l1) l2 -> fresh_from n (l1 ++ l2).
Proof.
  intros [H1 F1] [H2 F2]. split.
  - rewrite map_app, length_app, seq_app, H1, H2. reflexivity.
  - apply Forall_app. split; assumption.
Qed.

Lemma fresh_from_cons (n : nat) (f : F) (l : list IndividualClass) :
  fresh_from (S n) l -> fresh_from n (new_individual n f :: l).
Proof.
  intros [H1 F1]. split; simpl.
  - f_equal. exact H1.
  - constructor; [reflexivity | assumption].
Qed.

Lemma construct_all_spec (fs : list F) (w w' : world) (inds : list IndividualClass) :
  construct_all fs w = (inds, w') ->
  length inds = length fs /\ fresh_from (next_id w) inds /\
  next_id w' = (next_id w + length inds)%nat /\ eval_calls w' = eval_calls w /\
  rand_pos w' = rand_pos w.
Proof.
  revert w inds. induction fs as [|f fs IH]; intros w inds H; simpl in H.
  - inversion H; subst. simpl. repeat split; try constructor; lia.
  - destruct (construct_all fs (allocate w)) as [rest w2] eqn:E.
    inversion H; subst; clear H.
    apply IH in E. destruct E as (Hlen & Hfresh & Hn & Hc & Hr). simpl in *.
    repeat split; try (apply fresh_from_cons; assumption); try lia; try assumption;
      apply fresh_from_cons in Hfresh; apply Hfresh.
Qed.

Lemma mutate_all_spec (sel : list IndividualClass) (w w' : world)
  (inds : list IndividualClass) :
  mutate_all sel w = (inds, w') ->
  length inds = length sel /\ fresh_from (next_id w) inds /\
  next_id w' = (next_id w + length inds)%nat /\ eval_calls w' = eval_calls w.
Proof.
  revert w inds. induction sel as [|a sel IH]; intros w inds H; simpl in H.
  - inversion H; subst. simpl. repeat split; try constructor; lia.
  - destruct (Model_mutate (fenotype a) (rand_pos w)) as [f p].
    unfold construct in H. simpl in H.
    destruct (mutate_all sel _) as [rest w2] eqn:E.
    inversion H; subst; clear H.
    apply IH in E. destruct E as (Hlen & Hfresh & Hn & Hc). simpl in *.
    apply (fresh_from_cons _ f) in Hfresh.
    repeat split; try apply Hfresh; try lia; assumption.
Qed.

Lemma crossover_all_spec (first second : list IndividualClass) (indices : list Z)
  (w w' : world) (inds : list IndividualClass) :
  crossover_all first second indices w = Ok (inds, w') ->
  length inds = length indices /\ fresh_from (next_id w) inds /\
  next_id w' = (next_id w + length inds)%nat /\ eval_calls w' = eval_calls w.
Proof.
  revert w inds. induction indices as [|i indices IH]; intros w inds H; simpl in H.
  - inversion H; subst. simpl. repeat split; try constructor; lia.
  - inv_bind H as a Ha. inv_bind H as b Hb.
    destruct (Model_crossover (fenotype a) (fenotype b) (rand_pos w)) as [f p].
    unfold construct in H. simpl in H.
    inv_bind H as [rest w2] E. inversion H; subst; clear H.
    apply IH in E. destruct E as (Hlen & Hfresh & Hn & Hc). simpl in *.
    apply (fresh_from_cons _ f) in Hfresh.
    repeat split; try apply Hfresh; try lia; assumption.
Qed.

(** [reproduce] appends new objects to the population, one per selected
    mutation and one per index of [range(crossovers)], and changes nothing
    else of [self]. *)
Lemma reproduce_spec (mutations crossovers : Z) (self self' : GeneticProgramClass)
  (w w' : world) :
  reproduce mutations crossovers self w = Ok (self', w') ->
  exists offspring,
    self' = set_population self (population self ++ offspring) /\
    length offspring = (Z.to_nat mutations + Z.to_nat crossovers)%nat /\
    fresh_from (next_id w) offspring /\
    next_id w' = (next_id w + length offspring)%nat /\
    eval_calls w' = eval_calls w.
Proof.
  unfold reproduce. intros H.
  inv_bind H as [first w1] H1. inv_bind H as [second w2] H2.
  inv_bind H as [muts w3] H3.
  destruct (mutate_all muts w3) as [mutated w4] eqn:Hm.
  inv_bind H as [crossed w5] Hc. inversion H; subst; clear H.
  apply select_spec in H1, H2, H3.
  destruct H1 as (_ & _ & [N1 C1]), H2 as (_ & _ & [N2 C2]), H3 as (L3 & _ & [N3 C3]).
  apply mutate_all_spec in Hm. destruct Hm as (Lm & Fm & Nm & Cm).
  apply crossover_all_spec in Hc. destruct Hc as (Lc & Fc & Nc & Cc).
  unfold range in Lc. rewrite range2_length, Z.sub_0_r in Lc.
  exists (mutated ++ crossed). simpl.
  rewrite <- app_assoc. split; [reflexivity|].
  rewrite length_app. split; [lia|]. split.
  - apply fresh_from_app.
    + replace (next_id w) with (next_id w3) by congruence. assumption.
    + replace (next_id w + length mutated)%nat with (next_id w4) by lia. assumption.
  - split; [lia | congruence].
Qed.

(** ** One generation and the initial population *)

Lemma truncate_spec (self self' : GeneticProgramClass) :
  truncate self = Ok self' ->
  exists sorted_population,
    sorted_individuals (population self) = Ok sorted_population /\
    self' = logs_checkpoint
              (set_population self (slice_to sorted_population (population_size self))) /\
    population self' <> [].
Proof.
  unfold truncate. intros H. inv_bind H as sorted_population Hs.
  inv_bind H as best Hb. inversion H; subst; clear H.
  exists sorted_population. repeat split; auto.
  simpl in *. rewrite subscript_0 in Hb.
  destruct (slice_to _ _); [discriminate | discriminate].
Qed.

(** The stages of one generation, in the order of the code. *)
Lemma generation_step_spec (mutations crossovers : Z) (self self' : GeneticProgramClass)
  (w w' : world) (generation : Z) :
  generation_step mutations crossovers (self, w) generation = Ok (self', w') ->
  exists offspring self1 w1 self2 sorted_population,
    length offspring = (Z.to_nat mutations + Z.to_nat crossovers)%nat /\
    fresh_from (next_id w) offspring /\
    self1 = set_population (set_ran_generations self generation)
              (population self ++ offspring) /\
    _evaluate_population self1 w1 = Ok (self2, w') /\
    Forall2 evaluated_from (population self ++ offspring) (population self2) /\
    sorted_individuals (population self2) = Ok sorted_population /\
    self' = logs_checkpoint
              (set_population self1 (slice_to sorted_population (population_size self))) /\
    population self' <> [] /\
    next_id w' = (next_id w + length offspring)%nat /\
    eval_calls w' = eval_calls w ++
                    map ident (filter unevaluated (population self ++ offspring)).
Proof.
  unfold generation_step. simpl. intros H.
  inv_bind H as [self1 w1] Hr. inv_bind H as [self2 w2] He.
  inv_bind H as self3 Ht. inversion H; subst; clear H.
  apply reproduce_spec in Hr.
  destruct Hr as (offspring & -> & Hlen & Hfresh & Hn & Hc). simpl in *.
  pose proof He as He'. apply evaluate_population_spec in He'.
  destruct He' as (pop' & -> & HF & Hc' & _ & Hn'). simpl in *.
  apply truncate_spec in Ht. destruct Ht as (sorted_population & Hs & -> & Hne).
  simpl in *.
  exists offspring. eexists. exists w1. eexists. exists sorted_population.
  split; [exact Hlen|]. split; [exact Hfresh|]. split; [reflexivity|].
  split; [exact He|]. simpl.
  repeat split; auto; congruence.
Qed.

Lemma filter_unevaluated_fresh (n : nat) (inds : list IndividualClass) :
  fresh_from n inds -> filter unevaluated inds = inds.
Proof.
  intros [_ H]. induction H as [|a inds Ha H IH]; simpl; [reflexivity|].
  unfold unevaluated at 1. rewrite Ha, IH. reflexivity.
Qed.

Lemma initialise_spec (self self' : GeneticProgramClass) (x : X) (y : Y) (w w' : world) :
  initialise self x y w = Ok (self', w') ->
  exists inds self1 w1 self2 sorted_population,
    length inds =
      length (fst (Model_generate_population (population_size self) (rand_pos w))) /\
    fresh_from (next_id w) inds /\
    self1 = set_population (set_ran_generations (set_train self x y) 0) inds /\
    _evaluate_population self1 w1 = Ok (self2, w') /\
    Forall2 evaluated_from inds (population self2) /\
    sorted_individuals (population self2) = Ok sorted_population /\
    self' = logs_checkpoint (set_population self1 sorted_population) /\
    next_id w' = (next_id w + length inds)%nat /\
    eval_calls w' = eval_calls w ++ map ident inds.
Proof.
  unfold initialise. simpl. intros H.
  destruct (Model_generate_population (population_size self) (rand_pos w))
    as [fenotypes p] eqn:Hg.
  destruct (construct_all fenotypes (set_rand_pos w p)) as [inds w1] eqn:Hc.
  inv_bind H as [self2 w2] He. inv_bind H as sorted_population Hs.
  inversion H; subst; clear H.
  apply construct_all_spec in Hc. destruct Hc as (Hlen & Hfresh & Hn & Hcalls & _).
  simpl in *.
  pose proof He as He'. apply evaluate_population_spec in He'.
  destruct He' as (pop' & -> & HF & Hc' & _ & Hn'). simpl in *.
  exists inds. eexists. exists w1. eexists. exists sorted_population.
  split; [exact Hlen|]. split; [exact Hfresh|]. split; [reflexivity|].
  split; [exact He|]. simpl.
  rewrite (filter_unevaluated_fresh _ _ Hfresh) in Hc'.
  repeat split; auto; congruence.
Qed.

(** [fit] is the initialisation, the loop and the choice of the champion. *)
Lemma fit_spec (self self' : GeneticProgramClass) (x : X) (y : Y) (w w' : world)
  (champion : F) :
  fit self x y w = Ok (champion, self', w') ->
  exists self1 w1 self2 best,
    initialise self x y w = Ok (self1, w1) /\
    for_each (generation_step (mutations_of self1) (crossovers_of self1))
      (range2 1 (generations self1)) (self1, w1) = Ok (self2, w') /\
    nth_error (population self2) 0 = Some best /\
    champion = fenotype best /\
    self' = set_darwin_champion self2 champion.
Proof.
  unfold fit. intros H.
  inv_bind H as [self1 w1] Hi. inv_bind H as [self2 w2] Hl.
  inv_bind H as best Hb. inversion H; subst; clear H.
  exists self1, w1, self2, best. repeat split; auto.
  change 0%Z with (Z.of_nat 0) in Hb. apply subscript_nat_Ok in Hb. exact Hb.
Qed.

(** ** The loop over the generations *)

Lemma sorted_individuals_length (l l' : list IndividualClass) :
  sorted_individuals l = Ok l' -> length l' = length l.
Proof.
  intros H. apply sorted_individuals_Permutation in H.
  symmetry. apply Permutation_length. assumption.
Qed.

Lemma Forall2_length_eq {A B : Type} (R : A -> B -> Prop) (l1 : list A) (l2 : list B) :
  Forall2 R l1 l2 -> length l1 = length l2.
Proof. induction 1; simpl; congruence. Qed.

Lemma slice_to_length {A : Type} (l : list A) (k : Z) :
  (0 <= k)%Z -> (Z.to_nat k <= length l)%nat -> length (slice_to l k) = Z.to_nat k.
Proof.
  intros Hk Hl. unfold slice_to.
  destruct (k <? 0)%Z eqn:E; [apply Z.ltb_lt in E; lia|].
  rewrite length_firstn. lia.
Qed.

(** What one generation does to [self]: the configuration stays, one
    checkpoint is written under the number of the generation, and a
    population of [population_size] individuals stays one. *)
Lemma generation_step_boundary (mutations crossovers : Z)
  (self self' : GeneticProgramClass) (w w' : world) (generation : Z) :
  generation_step mutations crossovers (self, w) generation = Ok (self', w') ->
  population_size self' = population_size self /\
  generations self' = generations self /\
  mutation_ratio self' = mutation_ratio self /\
  ran_generations self' = generation /\
  logs self' = logs self ++ [(generation, map evaluation (population self'))] /\
  ((0 <= population_size self)%Z ->
   length (population self) = Z.to_nat (population_size self) ->
   length (population self') = Z.to_nat (population_size self)).
Proof.
  intros H. apply generation_step_spec in H.
  destruct H as (offspring & self1 & w1 & self2 & sorted_population & Hlen & _ &
                 -> & _ & HF & Hs & -> & _ & _ & _).
  simpl. repeat split.
  intros Hps Hpop. apply slice_to_length; [assumption|].
  rewrite (sorted_individuals_length _ _ Hs).
  rewrite <- (Forall2_length_eq _ _ _ HF), length_app. lia.
Qed.

Lemma last_cons_default {A : Type} (l : list A) (z d1 d2 : A) :
  last (z :: l) d1 = last (z :: l) d2.
Proof.
  revert z. induction l as [|a l IH]; intros z; [reflexivity|].
  change (last (a :: l) d1 = last (a :: l) d2). apply IH.
Qed.

Lemma generations_loop (mutations crossovers : Z) (gens : list Z)
  (self self' : GeneticProgramClass) (w w' : world) :
  for_each (generation_step mutations crossovers) gens (self, w) = Ok (self', w') ->
  population_size self' = population_size self /\
  generations self' = generations self /\
  mutation_ratio self' = mutation_ratio self /\
  ran_generations self' = last gens (ran_generations self) /\
  exists checkpoints,
    logs self' = logs self ++ checkpoints /\
    map fst checkpoints = gens /\
    ((0 <= population_size self)%Z ->
     length (population self) = Z.to_nat (population_size self) ->
     length (population self') = Z.to_nat (population_size self) /\
     Forall (fun c => length (snd c) = Z.to_nat (population_size self)) checkpoints).
Proof.
  revert self w. induction gens as [|g gens IH]; intros self w H.
  - simpl in H. inversion H; subst. repeat split.
    exists []. rewrite app_nil_r. repeat split; auto.
  - cbn [for_each] in H. inv_bind H as [self1 w1] Hstep.
    apply generation_step_boundary in Hstep.
    destruct Hstep as (Hps & Hg & Hm & Hran & Hlogs & Hlen).
    apply IH in H.
    destruct H as (Hps' & Hg' & Hm' & Hran' & checkpoints & Hlogs' & Hfst & Hlen').
    split; [congruence|]. split; [congruence|]. split; [congruence|]. split.
    { rewrite Hran'. destruct gens as [|z gens]; [exact Hran|].
      change (last (g :: z :: gens) (ran_generations self))
        with (last (z :: gens) (ran_generations self)).
      apply last_cons_default. }
    exists ((g, map evaluation (population self1)) :: checkpoints).
    split; [rewrite Hlogs', Hlogs, <- app_assoc; reflexivity|].
    split; [simpl; congruence|].
    intros H0 Hpop. specialize (Hlen H0 Hpop).
    rewrite Hps in Hlen'.
    destruct Hlen' as [Hl HF]; [lia | exact Hlen |].
    split; [exact Hl|].
    constructor; [simpl; rewrite length_map; exact Hlen | exact HF].
Qed.

Lemma initialise_boundary (self self' : GeneticProgramClass) (x : X) (y : Y)
  (w w' : world) :
  initialise self x y w = Ok (self', w') ->
  population_size self' = population_size self /\
  generations self' = generations self /\
  mutation_ratio self' = mutation_ratio self /\
  ran_generations self' = 0%Z /\
  logs self' = logs self ++ [(0%Z, map evaluation (population self'))] /\
  length (population self') =
    length (fst (Model_generate_population (population_size self) (rand_pos w))).
Proof.
  intros H. apply initialise_spec in H.
  destruct H as (inds & self1 & w1 & self2 & sorted_population & Hlen & _ &
                 -> & _ & HF & Hs & -> & _ & _).
  simpl. repeat split.
  rewrite (sorted_individuals_length _ _ Hs), <- (Forall2_length_eq _ _ _ HF).
  exact Hlen.
Qed.


(** ** The size of the population *)

Lemma mutations_in_range (self : GeneticProgramClass) :
  (0 <= population_size self)%Z ->
  0 <= mutation_ratio self -> mutation_ratio self <= 1 ->
  (0 <= mutations_of self <= population_size self)%Z.
Proof.
  intros Hps H0 H1. unfold mutations_of.
  assert (0 <= inject_Z (population_size self)) as Hq.
  { rewrite <- (Zle_Qle 0). assumption. }
  split.
  - change 0%Z with (Qceiling 0). apply Qceiling_resp_le. nra.
  - rewrite <- (Qceiling_Z (population_size self)) at 2.
    apply Qceiling_resp_le. nra.
Qed.

Lemma reproduce_length (mutations crossovers : Z) (s s' : GeneticProgramClass)
  (wa wb : world) :
  reproduce mutations crossovers s wa = Ok (s', wb) ->
  Z.of_nat (length (population s')) =
  (Z.of_nat (length (population s)) + Z.max 0 mutations + Z.max 0 crossovers)%Z.
Proof.
  intros H. apply reproduce_spec in H.
  destruct H as (offspring & -> & Hlen & _). simpl.
  rewrite length_app, Hlen. lia.
Qed.

(** C5, as the code has it.  When [Model.generate_population] returns
    [population_size] fenotypes, every checkpoint of a run of [fit] (the
    one after the initial evaluation and the one after the truncation of
    each generation) holds [population_size] individuals, and so does the
    final population.  In between, reproduction on such a population leaves
    [population_size + max(0, mutations) + max(0, crossovers)] individuals;
    this is [population_size + mutations + crossovers] when the mutation
    ratio is between 0 and 1. *)
Theorem population_size_at_generation_boundaries
  (self self' : GeneticProgramClass) (x : X) (y : Y) (w w' : world) (champion : F) :
  Z.of_nat (length (fst (Model_generate_population (population_size self) (rand_pos w))))
    = population_size self ->
  fit self x y w = Ok (champion, self', w') ->
  (exists checkpoints,
     logs self' = logs self ++ checkpoints /\
     map fst checkpoints = 0%Z :: range2 1 (generations self) /\
     Forall (fun c => Z.of_nat (length (snd c)) = population_size self) checkpoints) /\
  Z.of_nat (length (population self')) = population_size self /\
  (forall (s s' : GeneticProgramClass) (wa wb : world),
     Z.of_nat (length (population s)) = population_size self ->
     reproduce (mutations_of self) (crossovers_of self) s wa = Ok (s', wb) ->
     Z.of_nat (length (population s')) =
       (population_size self + Z.max 0 (mutations_of self)
        + Z.max 0 (crossovers_of self))%Z /\
     (0 <= mutation_ratio self /\ mutation_ratio self <= 1 ->
      Z.of_nat (length (population s')) =
        (population_size self + mutations_of self + crossovers_of self)%Z)).
Proof.
  intros Hgen H. apply fit_spec in H.
  destruct H as (self1 & w1 & self2 & best & Hi & Hl & Hb & Hc & ->).
  pose proof (initialise_boundary _ _ _ _ _ _ Hi)
    as (Hps & Hg & _ & _ & Hlogs & Hlen).
  pose proof (generations_loop _ _ _ _ _ _ _ Hl)
    as (Hps' & _ & _ & _ & checkpoints & Hlogs' & Hfst & Hlen').
  assert (0 <= population_size self)%Z as Hnonneg by lia.
  destruct Hlen' as [Hfinal Hall]; [lia | lia |].
  split; [|split].
  - exists ((0%Z, map evaluation (population self1)) :: checkpoints).
    split; [simpl; rewrite Hlogs', Hlogs, <- app_assoc; reflexivity|].
    split; [simpl; congruence|].
    constructor.
    + simpl. rewrite length_map. lia.
    + eapply Forall_impl; [|exact Hall]. simpl. intros c Hc'. lia.
  - simpl. lia.
  - intros s s' wa wb Hs Hr. apply reproduce_length in Hr. split; [lia|].
    intros [H0 H1].
    pose proof (mutations_in_range self Hnonneg H0 H1). unfold crossovers_of in *. lia.
Qed.

(** ** Objects and memoization *)

Lemma fresh_from_ident (n : nat) (inds : list IndividualClass) (a : IndividualClass) :
  fresh_from n inds -> In a inds ->
  (n <= ident a < n + length inds)%nat /\ objective_values a = None.
Proof.
  intros [Hid Hnone] Hin. split.
  - assert (In (ident a) (seq n (length inds))) as H
        by (rewrite <- Hid; apply in_map; assumption).
    apply in_seq in H. lia.
  - rewrite Forall_forall in Hnone. auto.
Qed.

Lemma objects_wf_extend (pop offspring : list IndividualClass) (w w' : world) :
  objects_wf pop w -> fresh_from (next_id w) offspring ->
  next_id w' = (next_id w + length offspring)%nat ->
  eval_calls w' = eval_calls w ->
  objects_wf (pop ++ offspring) w'.
Proof.
  intros ((Hnd & Hlt) & Hpop & Hid & Hnone) Hfresh Hn Hc.
  unfold objects_wf, world_wf. rewrite Hc, Hn.
  split; [split; [assumption | intros i Hi; specialize (Hlt i Hi); lia]|].
  split; [|split].
  - rewrite map_app. apply NoDup_app; [assumption | | ].
    + destruct Hfresh as [-> _]. apply seq_NoDup.
    + intros i Hi Hi'. apply in_map_iff in Hi. destruct Hi as (a & <- & Ha).
      apply in_map_iff in Hi'. destruct Hi' as (b & Hab & Hb).
      pose proof (fresh_from_ident _ _ _ Hfresh Hb) as [Hrange _].
      specialize (Hid a Ha). lia.
  - intros a Ha. apply in_app_or in Ha. destruct Ha as [Ha|Ha].
    + specialize (Hid a Ha). lia.
    + pose proof (fresh_from_ident _ _ _ Hfresh Ha). lia.
  - intros a Ha. apply in_app_or in Ha. destruct Ha as [Ha|Ha]; [auto|].
    intros _ Hin. specialize (Hlt _ Hin).
    pose proof (fresh_from_ident _ _ _ Hfresh Ha). lia.
Qed.

Lemma evaluated_from_idents (pop pop' : list IndividualClass) :
  Forall2 evaluated_from pop pop' -> map ident pop' = map ident pop.
Proof.
  induction 1 as [|a b pop pop' (Hi & _) _ IH]; simpl; [reflexivity|].
  rewrite Hi, IH. reflexivity.
Qed.

(** Keeping some elements of a list keeps their keys distinct. *)
Lemma filter_keeps_distinct_keys {V K : Type} (key : V -> K) (keep : V -> bool)
  (vs : list V) :
  NoDup (map key vs) -> NoDup (map key (filter keep vs)).
Proof.
  induction vs as [|v vs IH]; simpl; intros Hvs; [constructor|].
  apply NoDup_cons_iff in Hvs. destruct Hvs as [Hfresh Hrest].
  destruct (keep v); simpl; [|auto].
  constructor; [|auto].
  intros Hin. apply Hfresh. apply in_map_iff in Hin.
  destruct Hin as (v' & Hkey & Hin). apply filter_In in Hin.
  rewrite <- Hkey. apply in_map. prop.
Qed.

Lemma objects_wf_evaluate (pop pop' : list IndividualClass) (w w' : world) :
  objects_wf pop w -> Forall2 evaluated_from pop pop' ->
  eval_calls w' = eval_calls w ++ map ident (filter unevaluated pop) ->
  next_id w' = next_id w ->
  objects_wf pop' w'.
Proof.
  intros ((Hnd & Hlt) & Hpop & Hid & Hnone) HF Hc Hn.
  pose proof (evaluated_from_idents _ _ HF) as Hids.
  unfold objects_wf, world_wf. rewrite Hc, Hn, Hids.
  split; [split|split; [assumption|split]].
  - apply NoDup_app; [assumption | apply filter_keeps_distinct_keys; assumption |].
    intros i Hi Hi'. apply in_map_iff in Hi'. destruct Hi' as (a & <- & Ha).
    apply filter_In in Ha. destruct Ha as [Ha Hu].
    apply (Hnone a Ha); [|assumption].
    unfold unevaluated in Hu. destruct (objective_values a); [discriminate | reflexivity].
  - intros i Hi. apply in_app_or in Hi. destruct Hi as [Hi|Hi]; [auto|].
    apply in_map_iff in Hi. destruct Hi as (a & <- & Ha).
    apply filter_In in Ha. apply Hid. prop.
  - intros b Hb. assert (In (ident b) (map ident pop)) as Hin
        by (rewrite <- Hids; apply in_map; assumption).
    apply in_map_iff in Hin. destruct Hin as (a & <- & Ha). auto.
  - intros b Hb Hbnone. exfalso.
    clear -HF Hb Hbnone. induction HF as [|a b' pop pop' (_ & _ & Hne & _) _ IH];
      [contradiction|].
    destruct Hb as [->|Hb]; [congruence | auto].
Qed.

Lemma NoDup_firstn {A : Type} (n : nat) (l : list A) : NoDup l -> NoDup (firstn n l).
Proof.
  intros H. rewrite <- (firstn_skipn n l) in H.
  apply NoDup_app_remove_r in H. assumption.
Qed.

Lemma In_firstn {A : Type} (n : nat) (l : list A) (a : A) :
  In a (firstn n l) -> In a l.
Proof.
  intros H. rewrite <- (firstn_skipn n l). apply in_or_app. left. assumption.
Qed.

Lemma slice_to_firstn {A : Type} (l : list A) (k : Z) :
  exists n, slice_to l k = firstn n l.
Proof. unfold slice_to. destruct (k <? 0)%Z; eauto. Qed.

Lemma objects_wf_truncate (pop sorted_population : list IndividualClass) (k : Z)
  (w : world) :
  objects_wf pop w -> sorted_individuals pop = Ok sorted_population ->
  objects_wf (slice_to sorted_population k) w.
Proof.
  intros (Hw & Hpop & Hid & Hnone) Hs.
  apply sorted_individuals_Permutation in Hs.
  destruct (slice_to_firstn sorted_population k) as [n ->].
  assert (forall a, In a (firstn n sorted_population) -> In a pop) as Hin.
  { intros a Ha. apply In_firstn in Ha.
    eapply Permutation_in; [apply Permutation_sym; exact Hs | exact Ha]. }
  split; [assumption|]. split; [|split; auto].
  rewrite <- firstn_map. apply NoDup_firstn.
  eapply Permutation_NoDup; [apply Permutation_map; exact Hs | assumption].
Qed.

Lemma generation_step_objects (mutations crossovers : Z)
  (self self' : GeneticProgramClass) (w w' : world) (generation : Z) :
  objects_wf (population self) w ->
  generation_step mutations crossovers (self, w) generation = Ok (self', w') ->
  objects_wf (population self') w'.
Proof.
  intros Hwf H. apply generation_step_spec in H.
  destruct H as (offspring & self1 & w1 & self2 & sorted_population & _ & Hfresh &
                 -> & _ & HF & Hs & -> & _ & Hn & Hc).
  simpl.
  eapply objects_wf_truncate; [|exact Hs].
  eapply (objects_wf_evaluate (population self ++ offspring) _
            {| rand_pos := rand_pos w; next_id := next_id w'; eval_calls := eval_calls w |});
    [| exact HF | exact Hc | reflexivity].
  eapply objects_wf_extend; eauto.
Qed.

Lemma initialise_objects (self self' : GeneticProgramClass) (x : X) (y : Y)
  (w w' : world) :
  world_wf w -> initialise self x y w = Ok (self', w') ->
  objects_wf (population self') w'.
Proof.
  intros Hwf H. apply initialise_spec in H.
  destruct H as (inds & self1 & w1 & self2 & sorted_population & _ & Hfresh &
                 -> & _ & HF & Hs & -> & Hn & Hc).
  simpl.
  assert (objects_wf (slice_to sorted_population (Z.of_nat (length sorted_population))) w')
    as H.
  { eapply objects_wf_truncate; [|exact Hs].
    eapply (objects_wf_evaluate inds _
              {| rand_pos := rand_pos w; next_id := next_id w'; eval_calls := eval_calls w |});
      [| exact HF | | reflexivity].
    - apply (objects_wf_extend [] inds w); auto.
      split; [assumption|]. split; [constructor|]. split; intros a [].
    - simpl. rewrite (filter_unevaluated_fresh _ _ Hfresh). exact Hc. }
  unfold slice_to in H.
  destruct (_ <? 0)%Z eqn:E; [apply Z.ltb_lt in E; lia|].
  rewrite Nat2Z.id, firstn_all in H. exact H.
Qed.

(** The invariant of a run of [fit]. *)
Lemma fit_objects (self self' : GeneticProgramClass) (x : X) (y : Y) (w w' : world)
  (champion : F) :
  world_wf w -> fit self x y w = Ok (champion, self', w') ->
  objects_wf (population self') w'.
Proof.
  intros Hwf H. apply fit_spec in H.
  destruct H as (self1 & w1 & self2 & best & Hi & Hl & _ & _ & ->). simpl.
  apply (initialise_objects _ _ _ _ _ _ Hwf) in Hi.
  apply (for_each_invariant (fun st => objects_wf (population (fst st)) (snd st))
           _ _ _ _) in Hl; [exact Hl | | exact Hi].
  intros [s ws] g [s' ws'] _ Hs Hstep. simpl in *.
  eapply generation_step_objects; eauto.
Qed.

(** The population never holds the same object twice. *)
Lemma fit_population_NoDup (self self' : GeneticProgramClass) (x : X) (y : Y)
  (w w' : world) (champion : F) :
  world_wf w -> fit self x y w = Ok (champion, self', w') ->
  NoDup (map ident (population self')).
Proof.
  intros Hwf H. apply (fit_objects _ _ _ _ _ _ _ Hwf) in H. apply H.
Qed.

Lemma Forall2_In_r {A B : Type} (R : A -> B -> Prop) (l : list A) (l' : list B) (b : B) :
  Forall2 R l l' -> In b l' -> exists a, In a l /\ R a b.
Proof.
  induction 1 as [|a0 b0 l l' Hab _ IH]; intros Hin; [contradiction|].
  destruct Hin as [->|Hin].
  - exists a0. split; [left; reflexivity | assumption].
  - destruct (IH Hin) as (a & Ha & Hr). exists a. split; [right; assumption | assumption].
Qed.

Lemma distinct_keys_injective {V K : Type} (key : V -> K) (vs : list V) (a b : V) :
  NoDup (map key vs) -> In a vs -> In b vs -> key a = key b -> a = b.
Proof.
  induction vs as [|v vs IH]; simpl; intros Hnd Ha Hb Hkey; [contradiction|].
  apply NoDup_cons_iff in Hnd. destruct Hnd as [Hfresh Hnd].
  destruct Ha as [->|Ha], Hb as [->|Hb]; auto.
  - exfalso. apply Hfresh. rewrite Hkey. apply in_map. assumption.
  - exfalso. apply Hfresh. rewrite <- Hkey. apply in_map. assumption.
Qed.

(** An individual that survives a generation keeps its objective values. *)
Lemma generation_step_keeps_values (mutations crossovers : Z)
  (self self' : GeneticProgramClass) (w w' : world) (generation : Z)
  (a b : IndividualClass) :
  objects_wf (population self) w ->
  generation_step mutations crossovers (self, w) generation = Ok (self', w') ->
  In a (population self) -> In b (population self') -> ident b = ident a ->
  forall v, objective_values a = Some v -> objective_values b = Some v.
Proof.
  intros (_ & Hnd & Hid & _) H Ha Hb Hab v Hv. apply generation_step_spec in H.
  destruct H as (offspring & self1 & w1 & self2 & sorted_population & _ & Hfresh &
                 -> & _ & HF & Hs & -> & _).
  simpl in Hb. destruct (slice_to_firstn sorted_population (population_size self))
    as [k Hk]. rewrite Hk in Hb. apply In_firstn in Hb.
  apply sorted_individuals_Permutation in Hs.
  apply (Permutation_in _ (Permutation_sym Hs)) in Hb.
  destruct (Forall2_In_r _ _ _ b HF Hb) as (a' & Ha' & (Hi & _ & _ & Hkeep)).
  apply in_app_or in Ha'. destruct Ha' as [Ha'|Ha'].
  - assert (a' = a) as -> by
        (apply (distinct_keys_injective ident (population self)); auto; congruence).
    auto.
  - exfalso. pose proof (fresh_from_ident _ _ _ Hfresh Ha') as [Hrange _].
    specialize (Hid a Ha). lia.
Qed.

(** C6.  A call of [_evaluate_population] invokes [Model.evaluate] (and
    with it the objective functions) for the individuals whose
    [objective_values] is [None], in order, and for no other; it leaves
    every individual in its place and keeps the objective values of those
    that had some.  An individual that is still in the population after a
    generation has the objective values it had before.  Over a whole run of
    [fit] no individual is evaluated twice. *)
Theorem objective_values_computed_once :
  (forall (self self' : GeneticProgramClass) (w w' : world),
     _evaluate_population self w = Ok (self', w') ->
     eval_calls w' = eval_calls w ++ map ident (filter unevaluated (population self)) /\
     Forall2 (fun a b =>
                ident b = ident a /\
                forall v, objective_values a = Some v -> objective_values b = Some v)
             (population self) (population self')) /\
  (forall (mutations crossovers : Z) (self self' : GeneticProgramClass) (w w' : world)
          (generation : Z),
     objects_wf (population self) w ->
     generation_step mutations crossovers (self, w) generation = Ok (self', w') ->
     objects_wf (population self') w' /\
     forall a b, In a (population self) -> In b (population self') ->
       ident b = ident a ->
       forall v, objective_values a = Some v -> objective_values b = Some v) /\
  (forall (self self' : GeneticProgramClass) (x : X) (y : Y) (w w' : world)
          (champion : F),
     world_wf w -> fit self x y w = Ok (champion, self', w') ->
     objects_wf (population self') w' /\ NoDup (eval_calls w')).
Proof.
  split; [|split].
  - intros self self' w w' H. apply evaluate_population_spec in H.
    destruct H as (pop' & -> & HF & Hc & _). split; [exact Hc|]. simpl.
    eapply Forall2_impl; [|exact HF]. intros a b (Hi & _ & _ & Hv). auto.
  - intros mutations crossovers self self' w w' generation Hwf H. split.
    + eapply generation_step_objects; eauto.
    + intros a b. eapply generation_step_keeps_values; eauto.
  - intros self self' x y w w' champion Hwf H.
    apply (fit_objects _ _ _ _ _ _ _ Hwf) in H. split; [exact H | apply H].
Qed.

(** ** Stable sorting *)

Section SortingFacts.

#[local] Set Default Proof Using "Type*".

Variable A : Type.
Variable lt : A -> A -> bool.

(** The elements that are sorted, on which [lt] is a strict weak order. *)
Variable Dom : A -> Prop.
Hypothesis lt_asym : forall x y, Dom x -> Dom y -> lt x y = true -> lt y x = false.
Hypothesis le_trans : forall x y z, Dom x -> Dom y -> Dom z ->
  lt y x = false -> lt z y = false -> lt z x = false.

Lemma py_insert_Forall (Q : A -> Prop) (x : A) (l : list A) :
  Q x -> Forall Q l -> Forall Q (py_insert lt x l).
Proof using Type.
  intros Hx. induction l as [|y l IH]; intros Hl; simpl.
  - constructor; [assumption | constructor].
  - apply Forall_cons_iff in Hl. destruct Hl as [Hy Hl].
    destruct (lt x y); repeat constructor; auto.
Qed.







(** When no comparison raises, [sorted] returns the stably sorted list. *)
Variable ltm : A -> A -> result bool.
Hypothesis ltm_total : forall x y, Dom x -> Dom y -> ltm x y = Ok (lt x y).

Lemma py_insert_m_pure (x : A) (l : list A) :
  Dom x -> Forall Dom l -> py_insert_m ltm x l = Ok (py_insert lt x l).
Proof using ltm_total.
  intros Hx. induction l as [|y l IH]; intros Hl; simpl; [reflexivity|].
  apply Forall_cons_iff in Hl. destruct Hl as [Hy Hl].
  rewrite ltm_total by assumption. simpl.
  destruct (lt x y); [reflexivity|]. rewrite IH by assumption. reflexivity.
Qed.

Lemma py_sorted_m_loop_pure (l acc : list A) :
  Forall Dom l -> Forall Dom acc ->
  for_each (fun acc x => py_insert_m ltm x acc) l acc =
  Ok (fold_left (fun acc x => py_insert lt x acc) l acc).
Proof using ltm_total.
  revert acc. induction l as [|x l IH]; intros acc Hl Hacc; simpl; [reflexivity|].
  apply Forall_cons_iff in Hl. destruct Hl as [Hx Hl].
  rewrite py_insert_m_pure by assumption. simpl.
  apply IH; [assumption | apply py_insert_Forall; assumption].
Qed.

Lemma py_sorted_m_pure (l : list A) :
  Forall Dom l -> py_sorted_m ltm l = Ok (py_sorted lt l).
Proof using ltm_total. intros H. apply py_sorted_m_loop_pure; [assumption | constructor]. Qed.

End SortingFacts.


(** ** Comparisons of rationals and floats *)

Lemma Qltb_true (a b : Q) : Qltb a b = true <-> a < b.
Proof.
  unfold Qltb. rewrite negb_true_iff. split.
  - intros H. apply Qnot_le_lt. intros Hle. apply Qle_bool_iff in Hle. congruence.
  - intros H. destruct (Qle_bool b a) eqn:E; [|reflexivity].
    apply Qle_bool_iff in E. lra.
Qed.

Lemma Qltb_false (a b : Q) : Qltb a b = false <-> b <= a.
Proof.
  unfold Qltb. rewrite negb_false_iff. apply Qle_bool_iff.
Qed.

Lemma Qeq_bool_true (a b : Q) : Qeq_bool a b = true <-> a == b.
Proof. apply Qeq_bool_iff. Qed.

Lemma Qeq_bool_false (a b : Q) : Qeq_bool a b = false <-> ~ a == b.
Proof.
  split.
  - intros H Heq. apply Qeq_bool_iff in Heq. congruence.
  - intros H. destruct (Qeq_bool a b) eqn:E; [|reflexivity].
    apply Qeq_bool_iff in E. contradiction.
Qed.

(** Every comparison of rationals in the goal and the context becomes a
    proposition. *)
Ltac q_compare :=
  repeat match goal with
         | H : Qltb _ _ = true |- _ => apply Qltb_true in H
         | H : Qltb _ _ = false |- _ => apply Qltb_false in H
         | H : Qeq_bool _ _ = true |- _ => apply Qeq_bool_true in H
         | H : Qeq_bool _ _ = false |- _ => apply Qeq_bool_false in H
         | |- context [Qltb ?a ?b] => destruct (Qltb a b) eqn:?
         | |- context [Qeq_bool ?a ?b] => destruct (Qeq_bool a b) eqn:?
         | H : context [Qltb ?a ?b] |- _ => destruct (Qltb a b) eqn:?
         | H : context [Qeq_bool ?a ?b] |- _ => destruct (Qeq_bool a b) eqn:?
         end;
  simpl in *; try reflexivity; try discriminate; try lra.

(** ** The order of __lt__ on the evaluations of a population *)





(** On two evaluations of the same shape [__lt__] does not raise and
    compares the keys. *)
Lemma ev_lt_key (s : shape) (a b : evaluation_t) :
  has_shape s a = true -> has_shape s b = true ->
  ev_lt a b = Ok (key_ltb (sort_key a) (sort_key b)).
Proof.
  destruct a as [[q| | |]|[|[r| | |] [|[c| | |] [|? ?]]]]; destruct s; simpl;
    try discriminate; intros _;
    destruct b as [[q'| | |]|[|[r'| | |] [|[c'| | |] [|? ?]]]]; simpl;
    try discriminate; intros _;
    unfold key_ltb, fl_gtb, fl_ltb; simpl; q_compare.
Qed.


(** ** The values _crowding_distance can return *)











(** ** The champion *)










(** ** _crowding_distance: sorting and the dictionary *)

Lemma py_insert_Permutation {A : Type} (lt : A -> A -> bool) (x : A) (l : list A) :
  Permutation (x :: l) (py_insert lt x l).
Proof.
  induction l as [|y l IH]; simpl; [apply Permutation_refl|].
  destruct (lt x y); [apply Permutation_refl|].
  eapply perm_trans; [apply perm_swap|]. apply perm_skip. exact IH.
Qed.

Lemma py_sorted_loop_Permutation {A : Type} (lt : A -> A -> bool) (l acc : list A) :
  Permutation (acc ++ l) (fold_left (fun acc x => py_insert lt x acc) l acc).
Proof.
  revert acc. induction l as [|x l IH]; intros acc; simpl.
  - rewrite app_nil_r. apply Permutation_refl.
  - eapply perm_trans; [|apply IH].
    eapply perm_trans; [apply Permutation_sym, Permutation_middle|].
    change (Permutation ((x :: acc) ++ l) (py_insert lt x acc ++ l)).
    apply Permutation_app_tail. apply py_insert_Permutation.
Qed.

Lemma py_sorted_Permutation {A : Type} (lt : A -> A -> bool) (l : list A) :
  Permutation l (py_sorted lt l).
Proof. apply (py_sorted_loop_Permutation lt l []). Qed.













(** ** _crowding_distance: one objective *)

Lemma subscript_last {A : Type} (l : list A) (d : A) :
  l <> [] -> subscript l (-1) = Ok (nth (length l - 1) l d).
Proof.
  intros Hl. unfold subscript. simpl.
  assert (0 < length l)%nat as Hlen by (destruct l; [congruence | simpl; lia]).
  destruct (Z.of_nat (length l) + -1 <? 0)%Z eqn:E; [apply Z.ltb_lt in E; lia|].
  replace (Z.to_nat (Z.of_nat (length l) + -1)) with (length l - 1)%nat by lia.
  rewrite (nth_error_nth' l d) by lia. reflexivity.
Qed.








(** ** _crowding_distance: the contributions of the objectives *)



Section OneObjective.

#[local] Set Default Proof Using "Type*".

Variable objective_idx : nat.
Variable order : list item.
Hypothesis order_NoDup : NoDup (map item_index order).
Hypothesis order_length : (2 <= length order)%nat.







End OneObjective.







(** ** _crowding_distance: the result *)













Section CrowdingDistance.



Variable ov : list (list Q).
Variables m n : nat.
Hypothesis Hmatrix : matrix ov m n.
Hypothesis Hm : (1 <= m)%nat.
Hypothesis Hn : (2 <= n)%nat.

#[local] Set Default Proof Using "Hmatrix Hm Hn".

Let items0 : list item := zip_items ov n.
Let objs : list nat := seq 0 (length ov).
Let orders : list (list item) := orders_from items0 objs.
Let distances : distances_t := dd_append_all (all_appends objs orders) [].













End CrowdingDistance.

(** ** The crowding distance in _evaluate_population *)




(** ** IndividualClass.__lt__ as an order *)

Lemma lt_loop_lists (la lb pre : list fl) :
  lt_loop la (EvList (pre ++ lb)) (length pre) = lt_lists la lb.
Proof.
  revert lb pre. induction la as [|a la IH]; intros lb pre; cbn [lt_loop lt_lists].
  - reflexivity.
  - rewrite ev_subscript_app. destruct lb as [|b lb]; simpl; [reflexivity|].
    destruct (fl_gtb a b); [reflexivity|]. destruct (fl_ltb a b); [reflexivity|].
    rewrite app_cons_assoc.
    replace (S (length pre)) with (length (pre ++ [b]))
      by (rewrite length_app; simpl; lia).
    apply IH.
Qed.

Lemma eq_loop_lists (la lb pre : list fl) :
  eq_loop la (EvList (pre ++ lb)) (length pre) = eq_lists la lb.
Proof.
  revert lb pre. induction la as [|a la IH]; intros lb pre; cbn [eq_loop eq_lists].
  - reflexivity.
  - rewrite ev_subscript_app. destruct lb as [|b lb]; simpl; [reflexivity|].
    destruct (fl_neqb a b); [reflexivity|].
    rewrite app_cons_assoc.
    replace (S (length pre)) with (length (pre ++ [b]))
      by (rewrite length_app; simpl; lia).
    apply IH.
Qed.

Lemma ev_lt_lists (la lb : list fl) : ev_lt (EvList la) (EvList lb) = lt_lists la lb.
Proof. exact (lt_loop_lists la lb []). Qed.

Lemma ev_eq_lists (la lb : list fl) : ev_eq (EvList la) (EvList lb) = eq_lists la lb.
Proof. exact (eq_loop_lists la lb []). Qed.

Lemma fl_ltb_irrefl (a : fl) : fl_ltb a a = false.
Proof. destruct a; simpl; q_compare. Qed.

Lemma fl_ltb_asym (a b : fl) : fl_ltb a b = true -> fl_ltb b a = false.
Proof. destruct a, b; simpl; intros H; q_compare. Qed.

Lemma fl_ltb_trans (a b c : fl) :
  fl_ltb a b = true -> fl_ltb b c = true -> fl_ltb a c = true.
Proof. destruct a, b, c; simpl; intros H1 H2; q_compare. Qed.

(** Two floats that are not [nan] and of which none is less than the other
    compare alike with every float. *)
Lemma fl_tie (a b c : fl) :
  is_nan a = false -> is_nan b = false ->
  fl_ltb a b = false -> fl_ltb b a = false ->
  fl_ltb a c = fl_ltb b c /\ fl_ltb c a = fl_ltb c b /\ fl_eqb a b = true.
Proof.
  destruct a, b, c; simpl; intros Ha Hb H1 H2; try discriminate;
    repeat split; q_compare.
Qed.

(** Of two floats that are not [nan], one is less than the other or they are
    equal. *)
Lemma fl_eqb_ltb (a b : fl) :
  fl_eqb a b = true -> fl_ltb a b = false /\ fl_ltb b a = false.
Proof. destruct a, b; simpl; intros H; try discriminate; split; q_compare. Qed.

Lemma lt_lists_irrefl (l : list fl) : lt_lists l l = Ok false.
Proof.
  induction l as [|a l IH]; simpl; [reflexivity|].
  unfold fl_gtb. rewrite fl_ltb_irrefl. exact IH.
Qed.

Lemma lt_lists_asym (la lb : list fl) :
  lt_lists la lb = Ok true -> lt_lists lb la = Ok false.
Proof.
  revert lb. induction la as [|a la IH]; intros [|b lb]; simpl; try discriminate.
  unfold fl_gtb.
  destruct (fl_ltb b a) eqn:Hba; [discriminate|].
  destruct (fl_ltb a b) eqn:Hab; [reflexivity|].
  apply IH.
Qed.

Lemma lt_lists_trans (la lb lc : list fl) :
  existsb is_nan la = false -> existsb is_nan lb = false -> existsb is_nan lc = false ->
  lt_lists la lb = Ok true -> lt_lists lb lc = Ok true -> lt_lists la lc = Ok true.
Proof.
  revert lb lc.
  induction la as [|a la IH]; intros [|b lb] [|c lc]; simpl; try discriminate.
  intros Ha Hb Hc.
  apply orb_false_elim in Ha, Hb, Hc.
  destruct Ha as [Ha Hla], Hb as [Hb Hlb], Hc as [Hc Hlc].
  unfold fl_gtb.
  destruct (fl_ltb b a) eqn:Hba; [discriminate|].
  destruct (fl_ltb c b) eqn:Hcb; [intros _; discriminate|].
  destruct (fl_ltb a b) eqn:Hab.
  - intros _. destruct (fl_ltb b c) eqn:Hbc.
    + intros _. rewrite (fl_ltb_trans a b c Hab Hbc).
      rewrite (fl_ltb_asym a c (fl_ltb_trans a b c Hab Hbc)). reflexivity.
    + intros _.
      destruct (fl_tie b c a Hb Hc Hbc Hcb) as (H1 & H2 & _).
      rewrite <- H1, <- H2, Hba, Hab. reflexivity.
  - intros H1.
    destruct (fl_tie a b c Ha Hb Hab Hba) as (H2 & H3 & _).
    rewrite H2, H3, Hcb.
    destruct (fl_ltb b c) eqn:Hbc; [reflexivity|].
    apply IH; assumption.
Qed.

(** On lists of one length without [nan], exactly one of [a < b],
    [a == b] and [b < a] holds. *)
Lemma lists_trichotomy (la lb : list fl) :
  length la = length lb ->
  existsb is_nan la = false -> existsb is_nan lb = false ->
  (lt_lists la lb = Ok true /\ eq_lists la lb = Ok false /\ lt_lists lb la = Ok false) \/
  (lt_lists la lb = Ok false /\ eq_lists la lb = Ok true /\ lt_lists lb la = Ok false) \/
  (lt_lists la lb = Ok false /\ eq_lists la lb = Ok false /\ lt_lists lb la = Ok true).
Proof.
  revert lb. induction la as [|a la IH]; intros [|b lb]; simpl; try discriminate.
  - intros _ _ _. right. left. repeat split.
  - intros Hlen Ha Hb. injection Hlen as Hlen.
    apply orb_false_elim in Ha, Hb.
    destruct Ha as [Ha Hla], Hb as [Hb Hlb].
    unfold fl_gtb, fl_neqb.
    destruct (fl_ltb a b) eqn:Hab.
    + left. rewrite (fl_ltb_asym a b Hab).
      destruct (fl_eqb a b) eqn:Heq; [|repeat split].
      apply fl_eqb_ltb in Heq. destruct Heq as [Heq _]. congruence.
    + destruct (fl_ltb b a) eqn:Hba.
      * right. right.
        destruct (fl_eqb a b) eqn:Heq; [|repeat split].
        apply fl_eqb_ltb in Heq. destruct Heq as [_ Heq]. congruence.
      * destruct (fl_tie a b a Ha Hb Hab Hba) as (_ & _ & Heq).
        rewrite Heq. simpl. apply IH; assumption.
Qed.

(** X1.  [__lt__] orders the individuals strictly.  No individual is less
    than itself, whatever its evaluation holds; when [a < b] is true,
    [b < a] is not; and on evaluations without [nan], [a < b] and [b < c]
    give [a < c].  A comparison that returns [None] counts as false. *)
Theorem lt_is_a_strict_order (a b c : IndividualClass) :
  __lt__ a a = Ok false /\
  (__lt__ a b = Ok true -> __lt__ b a = Ok false) /\
  (ev_has_nan (evaluation a) = false -> ev_has_nan (evaluation b) = false ->
   ev_has_nan (evaluation c) = false ->
   __lt__ a b = Ok true -> __lt__ b c = Ok true -> __lt__ a c = Ok true).
Proof.
  unfold __lt__.
  destruct (evaluation a) as [x|la], (evaluation b) as [y|lb],
           (evaluation c) as [z|lc];
    rewrite ?ev_lt_lists;
    (split; [first [apply lt_lists_irrefl | simpl; rewrite fl_ltb_irrefl; reflexivity]|]);
    (split; [first [apply lt_lists_asym
                   | simpl; try discriminate;
                     try (intros H; injection H as H; rewrite (fl_ltb_asym _ _ H);
                          reflexivity);
                     try (destruct la; simpl; discriminate)]|]);
    first [apply lt_lists_trans
          | simpl; intros _ _ _; try discriminate;
            try (intros H1 H2; injection H1 as H1; injection H2 as H2;
                 rewrite (fl_ltb_trans _ _ _ H1 H2); reflexivity);
            try (destruct la; simpl; discriminate);
            try (intros _; destruct lb; simpl; discriminate)].
Qed.

(** X2.  On two evaluations of the same kind (two floats, or two lists of
    the same length) that hold no [nan], exactly one of [a < b], [a == b]
    and [b < a] is true, and the two others are false: [__lt__] and
    [__eq__] agree, and none of them raises. *)
Theorem lt_and_eq_are_a_total_order (a b : IndividualClass) :
  same_kind (evaluation a) (evaluation b) ->
  ev_has_nan (evaluation a) = false -> ev_has_nan (evaluation b) = false ->
  (__lt__ a b = Ok true /\ __eq__ a b = Ok false /\ __lt__ b a = Ok false) \/
  (__lt__ a b = Ok false /\ __eq__ a b = Ok true /\ __lt__ b a = Ok false) \/
  (__lt__ a b = Ok false /\ __eq__ a b = Ok false /\ __lt__ b a = Ok true).
Proof.
  unfold __lt__, __eq__.
  destruct (evaluation a) as [x|la], (evaluation b) as [y|lb]; simpl same_kind;
    try contradiction.
  - simpl. intros _ Hx Hy.
    destruct (fl_ltb x y) eqn:Hxy.
    + left. rewrite (fl_ltb_asym x y Hxy).
      destruct (fl_eqb x y) eqn:Heq; [|repeat split].
      apply fl_eqb_ltb in Heq. destruct Heq as [Heq _]. congruence.
    + destruct (fl_ltb y x) eqn:Hyx.
      * right. right.
        destruct (fl_eqb x y) eqn:Heq; [|repeat split].
        apply fl_eqb_ltb in Heq. destruct Heq as [_ Heq]. congruence.
      * right. left.
        destruct (fl_tie x y x Hx Hy Hxy Hyx) as (_ & _ & Heq).
        rewrite Heq. repeat split.
  - rewrite !ev_lt_lists, ev_eq_lists. simpl ev_has_nan. apply lists_trichotomy.
Qed.

(** ** The objective functions and their arguments *)

Lemma skipn_nth_error {A : Type} (l : list A) (k : nat) (a : A) :
  nth_error l k = Some a -> skipn k l = a :: skipn (S k) l.
Proof.
  revert k. induction l as [|b l IH]; intros [|k]; simpl; try discriminate.
  - intros H. injection H as ->. reflexivity.
  - intros H. rewrite (IH k H). reflexivity.
Qed.

Lemma subscript_error {A : Type} (l : list A) (i : Z) (e : exn) :
  subscript l i = Raise e -> e = IndexError.
Proof.
  unfold subscript.
  destruct ((if (i <? 0)%Z then _ else _) <? 0)%Z;
    [|destruct (nth_error l _)]; congruence.
Qed.

Lemma for_each_error {A S : Type} (E : exn -> Prop) (body : S -> A -> result S)
  (xs : list A) (acc : S) (e : exn) :
  (forall s x e', body s x = Raise e' -> E e') ->
  for_each body xs acc = Raise e -> E e.
Proof.
  intros Hbody. revert acc. induction xs as [|x xs IH]; intros acc; simpl.
  - discriminate.
  - destruct (body acc x) as [acc'|e'] eqn:Hb; simpl.
    + apply IH.
    + intros H. injection H as <-. exact (Hbody _ _ _ Hb).
Qed.

Lemma apply_objectives_Ok (fs : list objective_function) (args : list (list Arg))
  (y : Y) (prediction : P) (k : nat) :
  (k + length fs <= length args)%nat ->
  apply_objectives fs args y prediction k =
  Ok (map (fun fa => fst fa y prediction (snd fa)) (combine fs (skipn k args))).
Proof.
  revert k. induction fs as [|f fs IH]; intros k Hk; simpl.
  - reflexivity.
  - simpl in Hk. rewrite subscript_nat.
    destruct (nth_error args k) as [a|] eqn:Ha.
    + simpl. rewrite IH by lia. simpl.
      rewrite (skipn_nth_error args k a Ha). reflexivity.
    + apply nth_error_None in Ha. lia.
Qed.

Lemma apply_objectives_raises (fs : list objective_function) (args : list (list Arg))
  (y : Y) (prediction : P) (k : nat) :
  (k <= length args)%nat -> (length args < k + length fs)%nat ->
  apply_objectives fs args y prediction k = Raise IndexError.
Proof.
  revert k. induction fs as [|f fs IH]; intros k Hk Hlen; simpl in *.
  - lia.
  - rewrite subscript_nat.
    destruct (nth_error args k) as [a|] eqn:Ha; [|reflexivity].
    simpl. rewrite IH; [reflexivity | | lia].
    assert (k < length args)%nat by (apply nth_error_Some; congruence). lia.
Qed.

Lemma apply_objectives_error (fs : list objective_function) (args : list (list Arg))
  (y : Y) (prediction : P) (k : nat) (e : exn) :
  apply_objectives fs args y prediction k = Raise e -> e = IndexError.
Proof.
  revert k. induction fs as [|f fs IH]; intros k; simpl.
  - discriminate.
  - destruct (subscript args (Z.of_nat k)) as [a|e'] eqn:Ha; simpl.
    + destruct (apply_objectives fs args y prediction (S k)) as [vs|e'] eqn:Hr; simpl.
      * discriminate.
      * intros H. injection H as <-. exact (IH _ Hr).
    + intros H. injection H as <-. exact (subscript_error _ _ _ Ha).
Qed.

Lemma combine_empty_arguments (fs : list objective_function) (args : list (list Arg))
  (y : Y) (prediction : P) :
  length args = length fs -> Forall (fun a => a = []) args ->
  map (fun fa => fst fa y prediction (snd fa)) (combine fs args) =
  map (fun f => f y prediction []) fs.
Proof.
  revert args. induction fs as [|f fs IH]; intros [|a args]; simpl; try discriminate.
  - reflexivity.
  - intros Hlen Hall. apply Forall_cons_iff in Hall. destruct Hall as [-> Hall].
    rewrite IH; [reflexivity | lia | exact Hall].
Qed.

(** X3.  The objective values of a prediction are computed exactly when
    [objective_functions_arguments] holds an argument list for every
    objective function: function number [i] is then applied to the labels,
    the prediction and the arguments number [i]; with fewer argument lists
    than functions the computation raises [IndexError].  The default of
    [__init__] gives every function the empty argument list, and
    [objectives] is the number of functions. *)
Theorem objective_values_need_an_argument_list_each
  (fs : list objective_function) (args : list (list Arg)) (y : Y) (prediction : P) :
  (length fs <= length args ->
   apply_objectives fs args y prediction 0 =
   Ok (map (fun fa => fst fa y prediction (snd fa)) (combine fs args)))%nat /\
  (length args < length fs ->
   apply_objectives fs args y prediction 0 = Raise IndexError)%nat /\
  (forall (ps gens : Z) (fs0 : objective_function + list objective_function)
          (mf sm : string) (ratio : Q) (ts : Z) (self : GeneticProgramClass),
     __init__ ps gens fs0 None mf sm ratio ts = Ok self ->
     objectives self = length (objective_functions self) /\
     length (objective_functions_arguments self) = objectives self /\
     apply_objectives (objective_functions self) (objective_functions_arguments self)
       y prediction 0 =
     Ok (map (fun f => f y prediction []) (objective_functions self))).
Proof.
  split; [|split].
  - intros H. exact (apply_objectives_Ok fs args y prediction 0 H).
  - intros H. apply apply_objectives_raises; lia.
  - intros ps gens fs0 mf sm ratio ts self H.
    unfold __init__ in H. injection H as <-. simpl.
    set (l := match fs0 with inl f => [f] | inr l => l end).
    assert (length (map (fun _ : Z => @nil Arg) (range (Z.of_nat (length l))))
            = length l) as Hlen.
    { rewrite length_map. unfold range. rewrite range2_length.
      rewrite Z.sub_0_r. apply Nat2Z.id. }
    split; [reflexivity|]. split; [exact Hlen|].
    rewrite apply_objectives_Ok by (simpl; lia). simpl skipn.
    rewrite combine_empty_arguments; [reflexivity | exact Hlen |].
    apply Forall_forall. intros a Ha. apply in_map_iff in Ha.
    destruct Ha as (_ & <- & _). reflexivity.
Qed.

(** The first loop of [_evaluate_population] raises nothing but
    [IndexError]. *)
Lemma compute_objective_values_error (self : GeneticProgramClass)
  (pop : list IndividualClass) (st : list IndividualClass * world) (e : exn) :
  for_each (compute_objective_values self) pop st = Raise e -> e = IndexError.
Proof.
  apply (for_each_error (fun e0 => e0 = IndexError)).
  intros s a e'. unfold compute_objective_values.
  destruct (objective_values a); [discriminate|].
  destruct (apply_objectives _ _ _ _ _) as [vs|e''] eqn:Hv; simpl; [discriminate|].
  intros H. injection H as <-. exact (apply_objectives_error _ _ _ _ _ _ Hv).
Qed.

(** With an argument list for every objective function it raises nothing. *)
Lemma compute_objective_values_total (self : GeneticProgramClass)
  (pop : list IndividualClass) (st : list IndividualClass * world) :
  (length (objective_functions self) <= length (objective_functions_arguments self))%nat ->
  exists st', for_each (compute_objective_values self) pop st = Ok st'.
Proof.
  intros Hlen. revert st. induction pop as [|a pop IH]; intros st; simpl.
  - exists st. reflexivity.
  - unfold compute_objective_values at 1.
    destruct (objective_values a).
    + simpl. apply IH.
    + rewrite apply_objectives_Ok by (simpl; lia). simpl. apply IH.
Qed.

Lemma evaluate_population_not_spea2 (self : GeneticProgramClass) (w : world) :
  objectives self <> 1%nat -> multiobjective_fitness self <> "SPEA2"%string ->
  (_evaluate_population self w = Raise NameError \/
   _evaluate_population self w = Raise IndexError) /\
  ((length (objective_functions self) <= length (objective_functions_arguments self))%nat ->
   _evaluate_population self w = Raise NameError).
Proof.
  intros Hobj Hmf. unfold _evaluate_population.
  apply Nat.eqb_neq in Hobj. apply String.eqb_neq in Hmf.
  destruct (for_each (compute_objective_values self) (population self) ([], w))
    as [[pop w1]|e] eqn:Hloop; simpl.
  - rewrite Hobj, Hmf. split; [left; reflexivity | intros _; reflexivity].
  - pose proof (compute_objective_values_error _ _ _ _ Hloop) as He. subst e.
    split; [right; reflexivity|].
    intros Hlen.
    destruct (compute_objective_values_total self (population self) ([], w) Hlen)
      as [st' Hst'].
    congruence.
Qed.

(** X4.  Only SPEA2 is implemented: with any other value of
    [multiobjective_fitness] (NSGA2, which the documentation offers,
    included) and a number of objectives other than 1,
    [_evaluate_population] never returns, and so [fit] never returns a
    champion.  The exception is the [NameError] of the unassigned
    [objective_values], unless an objective function has no argument list,
    which raises [IndexError] before. *)
Theorem only_spea2_is_implemented (self : GeneticProgramClass) (x : X) (y : Y)
  (w : world) :
  objectives self <> 1%nat -> multiobjective_fitness self <> "SPEA2"%string ->
  (_evaluate_population self w = Raise NameError \/
   _evaluate_population self w = Raise IndexError) /\
  (fit self x y w = Raise NameError \/ fit self x y w = Raise IndexError) /\
  ((length (objective_functions self) <= length (objective_functions_arguments self))%nat ->
   _evaluate_population self w = Raise NameError /\
   fit self x y w = Raise NameError).
Proof.
  intros Hobj Hmf.
  destruct (evaluate_population_not_spea2 self w Hobj Hmf) as [He Het].
  unfold fit, initialise.
  destruct (Model_generate_population _ _) as [fenotypes p].
  destruct (construct_all fenotypes _) as [pop w1].
  destruct (evaluate_population_not_spea2
              (set_population (set_ran_generations (set_train self x y) 0) pop) w1
              Hobj Hmf) as [Hf Hft].
  split; [exact He|]. split.
  - destruct Hf as [-> | ->]; [left | right]; reflexivity.
  - intros Hlen. split; [exact (Het Hlen)|].
    rewrite (Hft Hlen). reflexivity.
Qed.

(** ** _evaluate_population on a population it has evaluated *)

Lemma compute_objective_values_evaluated (self : GeneticProgramClass)
  (pop done : list IndividualClass) (w : world) :
  Forall (fun a => objective_values a <> None) pop ->
  for_each (compute_objective_values self) pop (done, w) = Ok (done ++ pop, w).
Proof.
  revert done. induction pop as [|a pop IH]; intros done Hall; simpl.
  - rewrite app_nil_r. reflexivity.
  - apply Forall_cons_iff in Hall. destruct Hall as [Ha Hall].
    unfold compute_objective_values at 1.
    destruct (objective_values a) as [v|] eqn:Hv; [|congruence].
    simpl. rewrite IH by assumption. rewrite <- app_assoc. reflexivity.
Qed.

Lemma map_m_ext {A B : Type} (f g : A -> result B) (xs : list A) :
  (forall x, In x xs -> f x = g x) -> map_m f xs = map_m g xs.
Proof.
  induction xs as [|x xs IH]; intros H; simpl; [reflexivity|].
  rewrite (H x) by (left; reflexivity).
  rewrite IH by (intros x' Hx'; apply H; right; exact Hx').
  reflexivity.
Qed.

Lemma map_enumerate_transfer (R : IndividualClass -> IndividualClass -> Prop)
  (f g : nat -> IndividualClass -> result IndividualClass) (k : nat)
  (l l' m : list IndividualClass) :
  (forall i a b a', R a a' -> f i a = Ok b -> g i a' = Ok b) ->
  map_enumerate f k l = Ok l' -> Forall2 R l m -> map_enumerate g k m = Ok l'.
Proof.
  intros Hfg. revert k l' m.
  induction l as [|a l IH]; intros k l' m H HR; inversion HR; subst; simpl in *.
  - exact H.
  - inv_bind H as b Hb. inv_bind H as rest Hrest. injection H as <-.
    rewrite (Hfg _ _ _ _ ltac:(eassumption) Hb). simpl.
    rewrite (IH _ _ _ Hrest ltac:(eassumption)). reflexivity.
Qed.

Lemma map_enumerate_rel (R : IndividualClass -> IndividualClass -> Prop)
  (f : nat -> IndividualClass -> result IndividualClass) (k : nat)
  (l l' : list IndividualClass) :
  (forall i a b, f i a = Ok b -> R a b) ->
  map_enumerate f k l = Ok l' -> Forall2 R l l'.
Proof.
  intros Hf H. apply map_enumerate_Forall2 in H.
  induction H as [|a b l l' [i Hab] _ IH]; constructor; [|exact IH].
  exact (Hf i a b Hab).
Qed.

Lemma same_but_evaluation_refl (a : IndividualClass) : same_but_evaluation a a.
Proof. repeat split. Qed.

Lemma same_but_evaluation_set (a : IndividualClass) (e : evaluation_t) :
  same_but_evaluation a (set_evaluation a e).
Proof. repeat split. Qed.

Lemma set_evaluation_same (a a' : IndividualClass) (e : evaluation_t) :
  same_but_evaluation a a' -> set_evaluation a' e = set_evaluation a e.
Proof.
  intros (H1 & H2 & H3). unfold set_evaluation. rewrite H1, H2, H3. reflexivity.
Qed.

Lemma objective_value_same (a a' : IndividualClass) (i : nat) :
  same_but_evaluation a a' -> objective_value a' i = objective_value a i.
Proof. intros (_ & _ & H). unfold objective_value. rewrite H. reflexivity. Qed.

Lemma Forall2_same_trans (l1 l2 l3 : list IndividualClass) :
  Forall2 same_but_evaluation l1 l2 -> Forall2 same_but_evaluation l2 l3 ->
  Forall2 same_but_evaluation l1 l3.
Proof.
  apply Forall2_trans_rel. intros a b c (H1 & H2 & H3) (H4 & H5 & H6).
  repeat split; congruence.
Qed.

Lemma objective_values_same (pop pop' : list IndividualClass) (o : nat) :
  Forall2 same_but_evaluation pop pop' ->
  map_m (fun individual => objective_value individual o) pop' =
  map_m (fun individual => objective_value individual o) pop.
Proof.
  induction 1 as [|a a' pop pop' Ha _ IH]; simpl; [reflexivity|].
  rewrite (objective_value_same a a' o Ha), IH. reflexivity.
Qed.

Lemma evaluated_from_not_None (pop pop' : list IndividualClass) :
  Forall2 evaluated_from pop pop' ->
  Forall (fun a => objective_values a <> None) pop'.
Proof.
  induction 1 as [|a b pop pop' (_ & _ & H & _) _ IH]; constructor; assumption.
Qed.

Lemma same_but_evaluation_not_None (pop pop' : list IndividualClass) :
  Forall2 same_but_evaluation pop pop' ->
  Forall (fun a => objective_values a <> None) pop ->
  Forall (fun a => objective_values a <> None) pop'.
Proof.
  induction 1 as [|a b pop pop' (_ & _ & H) _ IH]; intros Hall; constructor;
    apply Forall_cons_iff in Hall; destruct Hall as [Ha Hall].
  - congruence.
  - exact (IH Hall).
Qed.

Lemma evaluation_append_same (a b : IndividualClass) (v : fl) :
  evaluation_append a v = Ok b -> same_but_evaluation a b.
Proof.
  unfold evaluation_append. destruct (evaluation a); [discriminate|].
  intros H. injection H as <-. apply same_but_evaluation_set.
Qed.

(** X5.  [_evaluate_population] is idempotent: called again on the
    population it has just evaluated, it returns the same population, with
    the same evaluations, and calls [Model.evaluate] for no individual. *)
Theorem evaluating_again_changes_nothing (self self1 : GeneticProgramClass)
  (w w1 : world) :
  _evaluate_population self w = Ok (self1, w1) ->
  _evaluate_population self1 w1 = Ok (self1, w1).
Proof.
  intros H. unfold _evaluate_population in H.
  inv_bind H as [pop w0] Hloop.
  pose proof (compute_objective_values_loop _ _ _ _ _ _ Hloop)
    as (pop' & Hpop & Hev & _).
  simpl in Hpop. subst pop'.
  pose proof (evaluated_from_not_None _ _ Hev) as Hsome.
  destruct (Nat.eqb (objectives self) 1) eqn:Hobj.
  - inv_bind H as pop1 Hmap. injection H as <- <-.
    assert (Forall2 same_but_evaluation pop pop1) as Hsame.
    { apply (map_enumerate_rel same_but_evaluation _ _ _ _ ) in Hmap; [exact Hmap|].
      intros i a b Hab. inv_bind Hab as v Hv. injection Hab as <-.
      apply same_but_evaluation_set. }
    unfold _evaluate_population. cbn [population set_population].
    rewrite compute_objective_values_evaluated
      by (exact (same_but_evaluation_not_None _ _ Hsame Hsome)).
    cbn [bind app objectives set_population]. rewrite Hobj.
    match goal with
    | |- context [map_enumerate ?f 0 pop1] =>
        assert (map_enumerate f 0 pop1 = Ok pop1) as Hagain
    end.
    { refine (map_enumerate_transfer same_but_evaluation _ _ _ _ _ _ _ Hmap Hsame).
      intros i a b a' Ha Hab. inv_bind Hab as v Hv. injection Hab as <-.
      rewrite (objective_value_same a a' 0 Ha), Hv. cbn [bind].
      rewrite (set_evaluation_same a a' _ Ha). reflexivity. }
    rewrite Hagain. reflexivity.
  - destruct (String.eqb (multiobjective_fitness self) "SPEA2") eqn:Hmf;
      [|discriminate].
    inv_bind H as ov Hov. inv_bind H as evaluations Hspea.
    inv_bind H as pop1 Hmap1. inv_bind H as xs Hxs. inv_bind H as ys Hys.
    inv_bind H as u Hplot. inv_bind H as cds Hcd. inv_bind H as pop2 Hmap2.
    injection H as <- <-.
    assert (Forall2 same_but_evaluation pop pop1) as Hsame1.
    { apply (map_enumerate_rel same_but_evaluation _ _ _ _ ) in Hmap1; [exact Hmap1|].
      intros i a b Hab. inv_bind Hab as e He. injection Hab as <-.
      apply same_but_evaluation_set. }
    assert (Forall2 same_but_evaluation pop1 pop2) as Hsame2.
    { apply (map_enumerate_rel same_but_evaluation _ _ _ _ ) in Hmap2; [exact Hmap2|].
      intros i a b Hab. inv_bind Hab as cd Hcd'.
      exact (evaluation_append_same _ _ _ Hab). }
    pose proof (Forall2_same_trans _ _ _ Hsame1 Hsame2) as Hsame.
    unfold _evaluate_population. cbn [population set_population].
    rewrite compute_objective_values_evaluated
      by (exact (same_but_evaluation_not_None _ _ Hsame Hsome)).
    cbn [bind app objectives multiobjective_fitness set_population]. rewrite Hobj, Hmf.
    rewrite (map_m_ext _
               (fun obj_idx =>
                  map_m (fun individual => objective_value individual obj_idx) pop))
      by (intros o _; apply objective_values_same; exact Hsame).
    rewrite Hov. cbn [bind].
    change (_spea2 _ ov) with (_spea2 self ov). rewrite Hspea. cbn [bind].
    match goal with
    | |- context [map_enumerate ?f 0 pop2] =>
        assert (map_enumerate f 0 pop2 = Ok pop1) as Hagain
    end.
    { refine (map_enumerate_transfer same_but_evaluation _ _ _ _ _ _ _ Hmap1 Hsame).
      intros i a b a' Ha Hab. inv_bind Hab as e He. injection Hab as <-.
      rewrite He. cbn [bind]. rewrite (set_evaluation_same a a' _ Ha). reflexivity. }
    rewrite Hagain. cbn [bind]. rewrite Hxs, Hys. cbn [bind]. rewrite Hplot. cbn [bind].
    rewrite Hcd. cbn [bind]. rewrite Hmap2. reflexivity.
Qed.

(** ** _spea2 and domination *)

Lemma Zsum_filter (f : nat -> Z) (p : nat -> bool) (l : list nat) :
  Zsum (map f (filter p l)) = Zsum (map (fun k => if p k then f k else 0%Z) l).
Proof.
  induction l as [|k l IH]; simpl; [reflexivity|].
  destruct (p k); simpl; rewrite IH; reflexivity.
Qed.

Lemma Zsum_le_pointwise (g h : nat -> Z) (l : list nat) :
  (forall k, In k l -> (g k <= h k)%Z) -> (Zsum (map g l) <= Zsum (map h l))%Z.
Proof.
  induction l as [|k l IH]; intros H; simpl; [lia|].
  pose proof (H k (or_introl eq_refl)).
  pose proof (IH (fun k' Hk' => H k' (or_intror Hk'))). lia.
Qed.

Lemma Zsum_lt_pointwise (g h : nat -> Z) (l : list nat) (j : nat) :
  (forall k, In k l -> (g k <= h k)%Z) -> In j l -> (g j < h j)%Z ->
  (Zsum (map g l) < Zsum (map h l))%Z.
Proof.
  induction l as [|k l IH]; intros H Hj Hlt; simpl; [contradiction|].
  pose proof (H k (or_introl eq_refl)).
  pose proof (Zsum_le_pointwise g h l (fun k' Hk' => H k' (or_intror Hk'))).
  destruct Hj as [-> | Hj]; [lia|].
  pose proof (IH (fun k' Hk' => H k' (or_intror Hk')) Hj Hlt). lia.
Qed.

Lemma lt_in_every_objective_trans (ov : list (list Q)) (i j k : nat) :
  lt_in_every_objective ov i j = true -> lt_in_every_objective ov j k = true ->
  lt_in_every_objective ov i k = true.
Proof.
  unfold lt_in_every_objective.
  induction ov as [|row ov IH]; simpl; [reflexivity|].
  intros H1 H2. apply andb_true_iff in H1, H2.
  destruct H1 as [H1 H1'], H2 as [H2 H2'].
  rewrite (IH H1' H2'), andb_true_r. q_compare.
Qed.

Lemma lt_in_every_objective_irrefl (ov : list (list Q)) (i : nat) :
  ov <> [] -> lt_in_every_objective ov i i = false.
Proof.
  destruct ov as [|row ov]; [congruence|]. intros _.
  unfold lt_in_every_objective. simpl.
  apply andb_false_iff. left. q_compare.
Qed.

Lemma matrix_not_empty (ov : list (list Q)) (m n : nat) :
  matrix ov m n -> (1 <= m)%nat -> ov <> [].
Proof. intros [Hlen _] Hm ->. simpl in Hlen. lia. Qed.

Lemma raw_fitness_of_dominated (ov : list (list Q)) (n i j : nat) :
  ov <> [] -> (i < n)%nat -> (j < n)%nat ->
  lt_in_every_objective ov i j = true ->
  (raw_fitness ov n j + strength ov n j <= raw_fitness ov n i)%Z /\
  (1 <= strength ov n j)%Z.
Proof.
  intros Hov Hi Hj Hlt.
  assert (i <> j) as Hij.
  { intros ->. rewrite (lt_in_every_objective_irrefl ov j Hov) in Hlt. discriminate. }
  pose proof (strength_of_dominator ov n i j Hi Hj Hij Hlt) as Hs.
  split; [|exact Hs].
  unfold raw_fitness, dominators. rewrite !Zsum_filter.
  set (g := fun k => if negb (Nat.eqb k j) && lt_in_every_objective ov j k
                     then strength ov n k else 0%Z).
  set (h := fun k => if negb (Nat.eqb k i) && lt_in_every_objective ov i k
                     then strength ov n k else 0%Z).
  set (g' := fun k => if Nat.eqb k j then strength ov n j else g k).
  assert (Zsum (map g (seq 0 n)) + strength ov n j = Zsum (map g' (seq 0 n)))%Z as Hg.
  { assert (forall l, NoDup l ->
              Zsum (map g' l) =
              (Zsum (map g l) + if existsb (Nat.eqb j) l then strength ov n j else 0)%Z)
      as Hsplit.
    { induction l as [|k l IH]; intros Hnd; simpl; [lia|].
      inversion Hnd as [|? ? Hnotin Hnd']; subst.
      rewrite (IH Hnd'). unfold g' at 1.
      destruct (Nat.eqb k j) eqn:Hkj.
      - apply Nat.eqb_eq in Hkj. subst k. rewrite Nat.eqb_refl. simpl.
        assert (existsb (Nat.eqb j) l = false) as ->.
        { destruct (existsb (Nat.eqb j) l) eqn:Hex; [|reflexivity].
          apply existsb_exists in Hex. destruct Hex as (x & Hx & Hjx).
          apply Nat.eqb_eq in Hjx. subst x. contradiction. }
        unfold g. rewrite Nat.eqb_refl. simpl. lia.
      - rewrite Nat.eqb_sym, Hkj. simpl. lia. }
    rewrite (Hsplit _ (seq_NoDup n 0)).
    assert (existsb (Nat.eqb j) (seq 0 n) = true) as ->; [|reflexivity].
    apply existsb_exists. exists j. split; [apply in_seq; lia | apply Nat.eqb_refl]. }
  rewrite Hg. apply Zsum_le_pointwise.
  intros k Hk. apply in_seq in Hk. unfold g', g, h.
  destruct (Nat.eqb k j) eqn:Hkj.
  - apply Nat.eqb_eq in Hkj. subst k.
    assert (Nat.eqb j i = false) as -> by (apply Nat.eqb_neq; congruence).
    rewrite Hlt. simpl. lia.
  - simpl. destruct (lt_in_every_objective ov j k) eqn:Hjk.
    + pose proof (lt_in_every_objective_trans ov i j k Hlt Hjk) as Hik.
      assert (Nat.eqb k i = false) as ->.
      { apply Nat.eqb_neq. intros ->.
        rewrite (lt_in_every_objective_irrefl ov i Hov) in Hik. discriminate. }
      rewrite Hik. simpl. lia.
    + destruct (negb (Nat.eqb k i) && lt_in_every_objective ov i k); [|lia].
      apply strength_nonneg. lia.
Qed.

(** X6.  The raw fitness respects domination.  When individual [j]
    strictly dominates individual [i] (it is above [i] in every
    objective), the raw fitness of [j] is strictly less than the raw fitness
    of [i]: by at least the strength of [j], which is at least 1. *)
Theorem a_dominated_individual_has_a_greater_raw_fitness
  (self : GeneticProgramClass) (ov : list (list Q)) (n i j : nat) :
  (1 <= objectives self)%nat -> matrix ov (objectives self) n ->
  (i < n)%nat -> (j < n)%nat ->
  lt_in_every_objective ov i j = true ->
  exists strengths evaluations,
    spea2_strengths (objectives self) ov = Ok strengths /\
    _spea2 self ov = Ok evaluations /\
    (1 <= nth j strengths 0)%Z /\
    (nth j evaluations 0 + nth j strengths 0 <= nth i evaluations 0)%Z /\
    (nth j evaluations 0 < nth i evaluations 0)%Z.
Proof.
  intros Hobj Hm Hi Hj Hlt.
  destruct (spea2_Ok self ov n Hobj Hm) as [Hs He].
  exists (map (strength ov n) (seq 0 n)), (map (raw_fitness ov n) (seq 0 n)).
  split; [exact Hs|]. split; [exact He|].
  rewrite !nth_map_seq by assumption.
  pose proof (raw_fitness_of_dominated ov n i j
                (matrix_not_empty _ _ _ Hm Hobj) Hi Hj Hlt).
  lia.
Qed.

Lemma Qle_bool_compat (a x y : Q) : x == y -> Qle_bool a x = Qle_bool a y.
Proof.
  intros H. destruct (Qle_bool a x) eqn:H1, (Qle_bool a y) eqn:H2; try reflexivity.
  - apply Qle_bool_iff in H1. assert (~ a <= y) by (rewrite <- Qle_bool_iff; congruence).
    lra.
  - apply Qle_bool_iff in H2. assert (~ a <= x) by (rewrite <- Qle_bool_iff; congruence).
    lra.
Qed.

Lemma Qltb_compat (x y b : Q) : x == y -> Qltb x b = Qltb y b.
Proof. intros H. unfold Qltb. f_equal. apply Qle_bool_compat. exact H. Qed.

Lemma same_vector_same_comparisons (ov : list (list Q)) (i j k : nat) :
  (forall row, In row ov -> nth i row 0 == nth j row 0) ->
  le_in_every_objective ov k i = le_in_every_objective ov k j /\
  lt_in_every_objective ov i k = lt_in_every_objective ov j k.
Proof.
  unfold le_in_every_objective, lt_in_every_objective.
  induction ov as [|row ov IH]; intros H; simpl; [split; reflexivity|].
  destruct (IH (fun r Hr => H r (or_intror Hr))) as [IH1 IH2].
  pose proof (H row (or_introl eq_refl)) as Hrow.
  rewrite IH1, IH2.
  rewrite (Qle_bool_compat (nth k row 0) _ _ Hrow), (Qltb_compat _ _ (nth k row 0) Hrow).
  split; reflexivity.
Qed.

(** X7.  The raw fitness depends on the objective values only: two
    individuals with the same value in every objective get the same
    strength and the same raw fitness. *)
Theorem equal_objective_values_give_equal_raw_fitness
  (self : GeneticProgramClass) (ov : list (list Q)) (n i j : nat) :
  (1 <= objectives self)%nat -> matrix ov (objectives self) n ->
  (i < n)%nat -> (j < n)%nat ->
  (forall row, In row ov -> nth i row 0 == nth j row 0) ->
  exists strengths evaluations,
    spea2_strengths (objectives self) ov = Ok strengths /\
    _spea2 self ov = Ok evaluations /\
    nth i strengths 0%Z = nth j strengths 0%Z /\
    nth i evaluations 0%Z = nth j evaluations 0%Z.
Proof.
  intros Hobj Hm Hi Hj Hsame.
  destruct (spea2_Ok self ov n Hobj Hm) as [Hs He].
  exists (map (strength ov n) (seq 0 n)), (map (raw_fitness ov n) (seq 0 n)).
  split; [exact Hs|]. split; [exact He|].
  rewrite !nth_map_seq by assumption.
  pose proof (matrix_not_empty _ _ _ Hm Hobj) as Hov.
  split.
  - unfold strength, weak_domination_count. do 3 f_equal.
    apply filter_ext. intros k.
    apply (same_vector_same_comparisons ov i j k Hsame).
  - unfold raw_fitness, dominators. do 2 f_equal.
    apply filter_ext. intros k.
    destruct (same_vector_same_comparisons ov i j k Hsame) as [_ Hlt].
    destruct (Nat.eqb k i) eqn:Hki, (Nat.eqb k j) eqn:Hkj; simpl.
    + reflexivity.
    + apply Nat.eqb_eq in Hki. subst k.
      rewrite <- Hlt. symmetry. apply lt_in_every_objective_irrefl. exact Hov.
    + apply Nat.eqb_eq in Hkj. subst k.
      rewrite Hlt. apply lt_in_every_objective_irrefl. exact Hov.
    + exact Hlt.
Qed.

(** ** The values _crowding_distance returns *)







(** ** The three selections *)

Lemma subscript_nil {A : Type} (i : Z) : subscript (@nil A) i = Raise IndexError.
Proof.
  unfold subscript. simpl.
  destruct ((if (i <? 0)%Z then _ else _) <? 0)%Z; [reflexivity|].
  destruct (Z.to_nat _); reflexivity.
Qed.

Lemma subscript_in_range {A : Type} (l : list A) (i : Z) :
  (0 <= i < Z.of_nat (length l))%Z -> exists a, subscript l i = Ok a.
Proof.
  intros Hi. rewrite <- (Z2Nat.id i) by lia. rewrite subscript_nat.
  destruct (nth_error l (Z.to_nat i)) as [a|] eqn:Ha; [exists a; reflexivity|].
  apply nth_error_None in Ha. lia.
Qed.

Lemma range_cons (amount : Z) :
  (0 < amount)%Z -> exists rest, range amount = 0%Z :: rest.
Proof.
  intros H. unfold range, range2. rewrite Z.sub_0_r.
  destruct (Z.to_nat amount) as [|k] eqn:Hk; [lia|].
  simpl. eexists. reflexivity.
Qed.

Lemma range_length (amount : Z) : length (range amount) = Z.to_nat amount.
Proof. unfold range. rewrite range2_length, Z.sub_0_r. reflexivity. Qed.

Lemma choices_loop_nil {A : Type} (k : nat) (w : world) :
  choices_loop (@nil A) (S k) w = Raise IndexError.
Proof. simpl. rewrite subscript_nil. reflexivity. Qed.

Lemma tournament_selection_loop (self : GeneticProgramClass)
  (parent_population : list IndividualClass) (amount : Z) (w : world) :
  _tournament_selection self parent_population amount w =
  for_each (tournament_round self parent_population) (range amount) ([], w).
Proof. reflexivity. Qed.

Lemma empty_selections (self : GeneticProgramClass) (amount : Z) (w : world) :
  _weighted_random_sample self [] amount w = Raise IndexError /\
  ((0 < amount)%Z ->
   _tournament_selection self [] amount w = Raise IndexError /\
   rd_choices (@nil IndividualClass) amount w = Raise IndexError) /\
  ((amount <= 0)%Z ->
   _tournament_selection self [] amount w = Ok ([], w) /\
   rd_choices (@nil IndividualClass) amount w = Ok ([], w)).
Proof.
  split; [reflexivity|]. split; intros Ha.
  - split.
    + rewrite tournament_selection_loop.
      destruct (range_cons amount Ha) as [rest ->]. simpl.
      unfold tournament_round at 1. unfold rd_choices. simpl snd.
      destruct (Z.to_nat (tournament_size self)) as [|k].
      * reflexivity.
      * rewrite choices_loop_nil. reflexivity.
    + unfold rd_choices. destruct (Z.to_nat amount) as [|k] eqn:Hk; [lia|].
      apply choices_loop_nil.
  - split.
    + rewrite tournament_selection_loop. unfold range. rewrite range2_nil by lia.
      reflexivity.
    + unfold rd_choices. replace (Z.to_nat amount) with 0%nat by lia. reflexivity.
Qed.

(** X9.  Selection from an empty population.  Asked for at least one
    individual, the three selections raise [IndexError].  Asked for none
    (an amount that is zero or negative), the tournament and the uniform
    sample return the empty list, but the weighted sample still raises
    [IndexError]: it reads the last cumulative weight of an empty list. *)
Theorem selection_from_an_empty_population
  (self : GeneticProgramClass) (amount : Z) (w : world) :
  _weighted_random_sample self [] amount w = Raise IndexError /\
  ((0 < amount)%Z ->
   _tournament_selection self [] amount w = Raise IndexError /\
   rd_choices (@nil IndividualClass) amount w = Raise IndexError) /\
  ((amount <= 0)%Z ->
   _tournament_selection self [] amount w = Ok ([], w) /\
   rd_choices (@nil IndividualClass) amount w = Ok ([], w)).
Proof. exact (empty_selections self amount w). Qed.


Lemma Qfloor_index (u : Q) (n : nat) :
  0 <= u -> u < 1 -> (0 < n)%nat ->
  (0 <= Qfloor (u * inject_Z (Z.of_nat n)) < Z.of_nat n)%Z.
Proof.
  intros H0 H1 Hn.
  assert (0 < inject_Z (Z.of_nat n)) as HN by (rewrite <- (Zlt_Qlt 0); lia).
  split.
  - change 0%Z with (Qfloor 0). apply Qfloor_resp_le. nra.
  - rewrite Zlt_Qlt. eapply Qle_lt_trans; [apply Qfloor_le|]. nra.
Qed.

Lemma choices_loop_rand_pos {A : Type} (pop : list A) (k : nat) (w w' : world)
  (sel : list A) :
  choices_loop pop k w = Ok (sel, w') -> rand_pos w' = (rand_pos w + k)%nat.
Proof.
  revert w sel. induction k as [|k IH]; intros w sel H; simpl in H.
  - injection H as _ <-. lia.
  - inv_bind H as a Ha. inv_bind H as [rest w2] Hrest. injection H as _ <-.
    apply IH in Hrest. simpl in Hrest. lia.
Qed.

Lemma choices_loop_total {A : Type} (pop : list A) (k : nat) (w : world) :
  pop <> [] -> (forall j, 0 <= random j /\ random j < 1) ->
  exists sel w', choices_loop pop k w = Ok (sel, w').
Proof.
  intros Hpop Hrandom. revert w. induction k as [|k IH]; intros w.
  - exists [], w. reflexivity.
  - cbn [choices_loop draw].
    destruct (Hrandom (rand_pos w)) as [H0 H1].
    destruct (subscript_in_range pop
                (Qfloor (random (rand_pos w) * inject_Z (Z.of_nat (length pop)))))
      as [a Ha].
    { apply Qfloor_index; [assumption | assumption |].
      destruct pop; [congruence | simpl; lia]. }
    rewrite Ha. cbn [bind].
    destruct (IH (set_rand_pos w (S (rand_pos w)))) as (rest & w' & Hrest).
    rewrite Hrest. exists (a :: rest), w'. reflexivity.
Qed.

Lemma bisect_le (a : list Q) (x : Q) (hi : nat) : (bisect a x hi <= hi)%nat.
Proof.
  revert a. induction hi as [|hi IH]; intros [|c a]; simpl; try lia.
  destruct (Qltb x c); [lia|]. specialize (IH a). lia.
Qed.

Lemma accumulate_from_length (s : Q) (ws : list Q) :
  length (accumulate_from s ws) = length ws.
Proof.
  revert s. induction ws as [|x ws IH]; intros s; simpl; [reflexivity|].
  rewrite IH. reflexivity.
Qed.

Lemma accumulate_length (ws : list Q) : length (accumulate ws) = length ws.
Proof. destruct ws; simpl; [reflexivity|]. rewrite accumulate_from_length. reflexivity. Qed.

Lemma weighted_choices_loop_rand_pos {A : Type} (pop : list A) (cum : list Q)
  (total : Q) (k : nat) (w w' : world) (sel : list A) :
  weighted_choices_loop pop cum total k w = Ok (sel, w') ->
  rand_pos w' = (rand_pos w + k)%nat.
Proof.
  revert w sel. induction k as [|k IH]; intros w sel H; simpl in H.
  - injection H as _ <-. lia.
  - inv_bind H as a Ha. inv_bind H as [rest w2] Hrest. injection H as _ <-.
    apply IH in Hrest. simpl in Hrest. lia.
Qed.

Lemma weighted_choices_loop_total {A : Type} (pop : list A) (cum : list Q)
  (total : Q) (k : nat) (w : world) :
  pop <> [] -> exists sel w', weighted_choices_loop pop cum total k w = Ok (sel, w').
Proof.
  intros Hpop. revert w. induction k as [|k IH]; intros w.
  - exists [], w. reflexivity.
  - cbn [weighted_choices_loop draw].
    destruct (subscript_in_range pop
                (Z.of_nat (bisect cum (random (rand_pos w) * total) (length pop - 1))))
      as [a Ha].
    { pose proof (bisect_le cum (random (rand_pos w) * total) (length pop - 1)).
      destruct pop; [congruence | simpl in *; lia]. }
    rewrite Ha. cbn [bind].
    destruct (IH (set_rand_pos w (S (rand_pos w)))) as (rest & w' & Hrest).
    rewrite Hrest. exists (a :: rest), w'. reflexivity.
Qed.

Lemma sorted_individuals_total (s : shape) (pop : list IndividualClass) :
  Forall (shaped s) pop -> sorted_individuals pop = Ok (py_sorted ind_ltb pop).
Proof.
  intros Hs. unfold sorted_individuals.
  apply (py_sorted_m_pure IndividualClass ind_ltb (shaped s) __lt__);
    [intros x y Hx Hy; apply (ev_lt_key s); assumption | assumption].
Qed.

Lemma py_sorted_length {A : Type} (lt : A -> A -> bool) (l : list A) :
  length (py_sorted lt l) = length l.
Proof. symmetry. apply Permutation_length, py_sorted_Permutation. Qed.

Lemma weighted_random_sample_total (self : GeneticProgramClass) (s : shape)
  (pop : list IndividualClass) (amount : Z) (w : world) :
  pop <> [] -> Forall (shaped s) pop ->
  exists sel w', _weighted_random_sample self pop amount w = Ok (sel, w').
Proof.
  intros Hpop Hs. unfold _weighted_random_sample.
  rewrite (sorted_individuals_total s pop Hs). cbn [bind].
  set (sorted_population := py_sorted ind_ltb pop).
  assert (length sorted_population = length pop) as Hlen by apply py_sorted_length.
  assert (sorted_population <> []) as Hne.
  { intros E. rewrite E in Hlen. destruct pop; [congruence | discriminate]. }
  unfold rd_choices_weighted.
  rewrite accumulate_length, length_map, range_length, Nat2Z.id, Nat.eqb_refl.
  cbn [negb].
  set (cum := accumulate _).
  assert (cum <> []) as Hcum.
  { intros E. assert (length cum = length sorted_population) as Hl.
    { unfold cum. rewrite accumulate_length, length_map, range_length, Nat2Z.id.
      reflexivity. }
    rewrite E in Hl. destruct sorted_population; [congruence | discriminate]. }
  rewrite (subscript_last cum 0 Hcum). cbn [bind].
  apply weighted_choices_loop_total. exact Hne.
Qed.

Lemma tournament_round_total (self : GeneticProgramClass) (s : shape)
  (pop : list IndividualClass) (st : list IndividualClass * world) (i : Z) :
  pop <> [] -> Forall (shaped s) pop -> (1 <= tournament_size self)%Z ->
  (forall j, 0 <= random j /\ random j < 1) ->
  exists st', tournament_round self pop st i = Ok st'.
Proof.
  intros Hpop Hs Hts Hrandom. unfold tournament_round, rd_choices.
  destruct (choices_loop_total pop (Z.to_nat (tournament_size self)) (snd st)
              Hpop Hrandom) as (competitors & w1 & Hc).
  rewrite Hc. cbn [bind].
  destruct (choices_loop_spec _ _ _ _ _ Hc) as (Hlen & Hin & _).
  assert (Forall (shaped s) competitors) as Hcs.
  { rewrite Forall_forall in *. intros a Ha. apply Hs, Hin, Ha. }
  rewrite (sorted_individuals_total s competitors Hcs). cbn [bind].
  destruct (py_sorted ind_ltb competitors) as [|winner rest] eqn:E.
  - pose proof (py_sorted_length ind_ltb competitors) as Hl.
    rewrite E in Hl. simpl in Hl. lia.
  - rewrite subscript_0. cbn [bind]. eexists. reflexivity.
Qed.

Lemma tournament_round_rand_pos (self : GeneticProgramClass)
  (pop : list IndividualClass) (st st' : list IndividualClass * world) (i : Z) :
  tournament_round self pop st i = Ok st' ->
  rand_pos (snd st') = (rand_pos (snd st) + Z.to_nat (tournament_size self))%nat.
Proof.
  unfold tournament_round, rd_choices. intros H.
  inv_bind H as [competitors w1] Hc. inv_bind H as sorted_competitors Hsorted.
  inv_bind H as winner Hw. injection H as <-. simpl.
  exact (choices_loop_rand_pos _ _ _ _ _ Hc).
Qed.

Lemma tournament_loop_total (self : GeneticProgramClass) (s : shape)
  (pop : list IndividualClass) (rounds : list Z) (st : list IndividualClass * world) :
  pop <> [] -> Forall (shaped s) pop -> (1 <= tournament_size self)%Z ->
  (forall j, 0 <= random j /\ random j < 1) ->
  exists st', for_each (tournament_round self pop) rounds st = Ok st'.
Proof.
  intros Hpop Hs Hts Hrandom. revert st.
  induction rounds as [|r rounds IH]; intros st; simpl.
  - exists st. reflexivity.
  - destruct (tournament_round_total self s pop st r Hpop Hs Hts Hrandom) as [st1 H1].
    rewrite H1. cbn [bind]. apply IH.
Qed.

Lemma tournament_loop_rand_pos (self : GeneticProgramClass)
  (pop : list IndividualClass) (rounds : list Z) (st st' : list IndividualClass * world) :
  for_each (tournament_round self pop) rounds st = Ok st' ->
  rand_pos (snd st') =
  (rand_pos (snd st) + length rounds * Z.to_nat (tournament_size self))%nat.
Proof.
  revert st. induction rounds as [|r rounds IH]; intros st H; simpl in H.
  - injection H as <-. simpl. lia.
  - inv_bind H as st1 H1. apply IH in H.
    apply tournament_round_rand_pos in H1. simpl. lia.
Qed.

Lemma select_rand_pos (self : GeneticProgramClass) (amount : Z) (w w' : world)
  (sel : list IndividualClass) :
  select self amount w = Ok (sel, w') ->
  rand_pos w' = (rand_pos w + draws_of self amount)%nat.
Proof.
  unfold select, draws_of. intros H.
  destruct (String.eqb (sampling_method self) "tournament").
  - rewrite tournament_selection_loop in H.
    apply tournament_loop_rand_pos in H. rewrite range_length in H. exact H.
  - destruct (String.eqb (sampling_method self) "weighted_random").
    + unfold _weighted_random_sample in H. inv_bind H as sorted_population Hs.
      unfold rd_choices_weighted in H.
      destruct (negb _); [discriminate|].
      inv_bind H as total Ht.
      exact (weighted_choices_loop_rand_pos _ _ _ _ _ _ _ H).
    + exact (choices_loop_rand_pos _ _ _ _ _ H).
Qed.

Lemma select_total (self : GeneticProgramClass) (s : shape) (amount : Z) (w : world) :
  population self <> [] -> Forall (shaped s) (population self) ->
  (1 <= tournament_size self)%Z ->
  (forall j, 0 <= random j /\ random j < 1) ->
  exists r, select self amount w = Ok r.
Proof.
  intros Hpop Hs Hts Hrandom. unfold select.
  destruct (String.eqb (sampling_method self) "tournament").
  - rewrite tournament_selection_loop.
    apply (tournament_loop_total self s); assumption.
  - destruct (String.eqb (sampling_method self) "weighted_random").
    + destruct (weighted_random_sample_total self s (population self) amount w
                  Hpop Hs) as (sel & w' & H).
      exists (sel, w'). exact H.
    + destruct (choices_loop_total (population self) (Z.to_nat amount) w
                  Hpop Hrandom) as (sel & w' & H).
      exists (sel, w'). exact H.
Qed.

(** X10.  On a population that is not empty and has been evaluated, with a
    tournament size of at least 1 and a random source that returns values
    of [0, 1), each of the three sampling methods returns [amount]
    individuals (none when [amount] is negative), all of them individuals of
    the population.  It creates and evaluates no individual, and it reads
    [amount] random values, or [amount * tournament_size] for the
    tournament. *)
Theorem selection_returns_individuals_of_the_population
  (self : GeneticProgramClass) (s : shape) (amount : Z) (w : world) :
  population self <> [] -> Forall (shaped s) (population self) ->
  (1 <= tournament_size self)%Z ->
  (forall j, 0 <= random j /\ random j < 1) ->
  exists sel w',
    select self amount w = Ok (sel, w') /\
    length sel = Z.to_nat amount /\
    Forall (fun a => In a (population self)) sel /\
    next_id w' = next_id w /\ eval_calls w' = eval_calls w /\
    rand_pos w' = (rand_pos w + draws_of self amount)%nat.
Proof.
  intros Hpop Hs Hts Hrandom.
  destruct (select_total self s amount w Hpop Hs Hts Hrandom) as [[sel w'] Hsel].
  exists sel, w'. split; [exact Hsel|].
  destruct (select_spec _ _ _ _ _ Hsel) as (Hlen & Hin & Hid & Hcalls).
  pose proof (select_rand_pos _ _ _ _ _ Hsel).
  repeat split; assumption.
Qed.




(** ** The weights of _weighted_random_sample *)



Section Weights.

(** The number of individuals, as a rational. *)
Variable N : Q.
Hypothesis N_pos : 0 < N.








End Weights.




(** ** Generations *)

















Lemma filter_unevaluated_evaluated (l : list IndividualClass) :
  Forall evaluated l -> filter unevaluated l = [].
Proof.
  induction 1 as [|a l Ha _ IH]; simpl; [reflexivity|].
  unfold unevaluated at 1. unfold evaluated in Ha.
  destruct (objective_values a); [exact IH | congruence].
Qed.

Lemma evaluated_sorted_slice (pop sorted_population : list IndividualClass) (k : Z) :
  Forall evaluated pop -> sorted_individuals pop = Ok sorted_population ->
  Forall evaluated (slice_to sorted_population k).
Proof.
  intros Hall Hsorted. destruct (slice_to_firstn sorted_population k) as [n ->].
  rewrite Forall_forall in *. intros a Ha. apply Hall.
  apply (Permutation_in _ (Permutation_sym
                             (sorted_individuals_Permutation _ _ Hsorted))).
  exact (In_firstn _ _ _ Ha).
Qed.

(** One generation calls [Model.evaluate] for its offspring, in the order
    of their creation, and for nobody else. *)
Lemma generation_step_calls (mutations crossovers : Z)
  (self self' : GeneticProgramClass) (w w' : world) (generation : Z) :
  Forall evaluated (population self) ->
  generation_step mutations crossovers (self, w) generation = Ok (self', w') ->
  eval_calls w' =
    eval_calls w ++ seq (next_id w) (Z.to_nat mutations + Z.to_nat crossovers) /\
  next_id w' = (next_id w + (Z.to_nat mutations + Z.to_nat crossovers))%nat /\
  Forall evaluated (population self').
Proof.
  intros Hall H. apply generation_step_spec in H.
  destruct H as (offspring & self1 & w1 & self2 & sorted_population & Hlen & Hfresh &
                 Hself1 & Heval & Hfrom & Hsorted & Hself' & _ & Hnext & Hcalls).
  rewrite filter_app, (filter_unevaluated_evaluated _ Hall) in Hcalls.
  rewrite (filter_unevaluated_fresh _ _ Hfresh) in Hcalls. simpl in Hcalls.
  destruct Hfresh as [Hids _]. rewrite Hids, Hlen in Hcalls.
  split; [exact Hcalls|]. split; [rewrite Hnext, Hlen; reflexivity|].
  rewrite Hself'. cbn [population logs_checkpoint set_population].
  apply (evaluated_sorted_slice (population self2)); [|exact Hsorted].
  exact (evaluated_from_not_None _ _ Hfrom).
Qed.

Lemma generations_loop_calls (mutations crossovers : Z) (gens : list Z)
  (self self' : GeneticProgramClass) (w w' : world) :
  Forall evaluated (population self) ->
  for_each (generation_step mutations crossovers) gens (self, w) = Ok (self', w') ->
  eval_calls w' =
    eval_calls w
    ++ seq (next_id w) (length gens * (Z.to_nat mutations + Z.to_nat crossovers)) /\
  next_id w' =
    (next_id w + length gens * (Z.to_nat mutations + Z.to_nat crossovers))%nat.
Proof.
  revert self w. induction gens as [|g gens IH]; intros self w Hall H; simpl in H.
  - injection H as _ <-. simpl. rewrite app_nil_r. split; [reflexivity | lia].
  - inv_bind H as [s1 w1] Hstep.
    destruct (generation_step_calls _ _ _ _ _ _ _ Hall Hstep) as (Hc & Hn & Hall1).
    destruct (IH s1 w1 Hall1 H) as [Hc' Hn'].
    split; [|simpl; lia].
    rewrite Hc', Hc, Hn, <- app_assoc. f_equal. simpl length.
    rewrite <- seq_app. f_equal.
Qed.

(** X17.  The cost of a run.  [fit] calls [Model.evaluate] exactly once for
    every individual it creates, in the order of their creation: for the
    initial population and then, in every generation, for the offspring
    only.  When [Model.generate_population] returns [population_size]
    fenotypes and the mutation ratio is between 0 and 1, these are
    [population_size] calls per generation, the initial one included. *)
Theorem fit_evaluates_every_individual_once
  (self self' : GeneticProgramClass) (x : X) (y : Y) (w w' : world) (champion : F) :
  fit self x y w = Ok (champion, self', w') ->
  eval_calls w' = eval_calls w ++ seq (next_id w) (created_by_fit self w) /\
  next_id w' = (next_id w + created_by_fit self w)%nat /\
  (Z.of_nat (length (fst (Model_generate_population (population_size self)
                            (rand_pos w)))) = population_size self ->
   0 <= mutation_ratio self -> mutation_ratio self <= 1 ->
   Z.of_nat (created_by_fit self w) =
   (population_size self * Z.max 1 (generations self))%Z).
Proof.
  intros H.
  destruct (fit_spec _ _ _ _ _ _ _ H)
    as (self1 & w1 & self2 & best & Hinit & Hloop & _).
  pose proof (initialise_boundary _ _ _ _ _ _ Hinit)
    as (Hps1 & Hgens1 & Hratio1 & _).
  destruct (initialise_spec _ _ _ _ _ _ Hinit)
    as (inds & s1 & w0 & s2 & sorted_population & Hlen & [Hids _] & Hs1 & Heval &
        Hfrom & Hsorted & Hs' & Hnext & Hcalls).
  assert (Forall evaluated (population self1)) as Hall.
  { rewrite Hs'. cbn [population logs_checkpoint set_population].
    rewrite Forall_forall. intros a Ha.
    pose proof (evaluated_from_not_None _ _ Hfrom) as Hev.
    rewrite Forall_forall in Hev. apply Hev.
    exact (Permutation_in _ (Permutation_sym
                               (sorted_individuals_Permutation _ _ Hsorted)) Ha). }
  assert (mutations_of self1 = mutations_of self) as Hm
      by (unfold mutations_of; rewrite Hps1, Hratio1; reflexivity).
  assert (crossovers_of self1 = crossovers_of self) as Hc
      by (unfold crossovers_of; rewrite Hps1, Hm; reflexivity).
  rewrite Hm, Hc, Hgens1 in Hloop.
  destruct (generations_loop_calls _ _ _ _ _ _ _ Hall Hloop) as [Hcalls' Hnext'].
  rewrite range2_length in Hcalls', Hnext'.
  unfold created_by_fit. rewrite <- Hlen.
  split; [|split].
  - rewrite Hcalls', Hcalls, Hids, Hnext, <- app_assoc, <- seq_app. reflexivity.
  - rewrite Hnext', Hnext. lia.
  - intros Hsize H0 H1.
    assert (0 <= population_size self)%Z as Hps by lia.
    pose proof (mutations_in_range self Hps H0 H1) as Hmut.
    unfold crossovers_of.
    destruct (Z_le_gt_dec (generations self) 1) as [Hg | Hg].
    + replace (Z.to_nat (generations self - 1)) with 0%nat by lia.
      rewrite Z.max_l by lia. lia.
    + rewrite Z.max_r by lia. nia.
Qed.

(** ** verify_path *)

Lemma list_ascii_of_string_append (a b : string) :
  list_ascii_of_string (String.append a b) =
  list_ascii_of_string a ++ list_ascii_of_string b.
Proof. induction a as [|c a IH]; simpl; [reflexivity | rewrite IH; reflexivity]. Qed.

Lemma subscript_last_snoc {A : Type} (l : list A) (x : A) :
  subscript (l ++ [x]) (-1) = Ok x.
Proof.
  rewrite (subscript_last (l ++ [x]) x) by (destruct l; discriminate).
  rewrite length_app. simpl. replace (length l + 1 - 1)%nat with (length l) by lia.
  rewrite nth_middle. reflexivity.
Qed.

(** X18.  The folder of the outputs.  For a name that is not empty,
    [verify_path] returns the name itself when it ends with a slash and else
    [outputs/<name>/]; the result always ends with a slash, and
    [verify_path] leaves it as it is when called on it again.  The empty
    name raises [IndexError], and without a name the result is the empty
    string. *)
Theorem verify_path_returns_a_folder (t : string) :
  verify_path None = Ok EmptyString /\
  (t = EmptyString -> verify_path (Some t) = Raise IndexError) /\
  (t <> EmptyString ->
   exists p,
     verify_path (Some t) = Ok p /\
     (p = t \/ p = String.append "outputs/" (String.append t "/")) /\
     subscript (list_ascii_of_string p) (-1) = Ok "/"%char /\
     verify_path (Some p) = Ok p).
Proof.
  split; [reflexivity|]. split; [intros ->; reflexivity|].
  intros Ht. unfold verify_path at 1.
  assert (list_ascii_of_string t <> []) as Hne.
  { destruct t; [congruence | discriminate]. }
  rewrite (subscript_last _ "/"%char Hne). cbn [bind].
  set (c := nth _ _ _).
  assert (subscript (list_ascii_of_string t) (-1) = Ok c) as Hc
      by (apply subscript_last; exact Hne).
  destruct (Ascii.eqb c "/"%char) eqn:E; cbn [negb].
  - apply Ascii.eqb_eq in E. rewrite E in Hc.
    exists t. split; [reflexivity|]. split; [left; reflexivity|].
    split; [exact Hc|].
    unfold verify_path. rewrite Hc. reflexivity.
  - eexists. split; [reflexivity|]. split; [right; reflexivity|].
    assert (subscript
              (list_ascii_of_string (String.append "outputs/" (String.append t "/")))
              (-1) = Ok "/"%char) as Hlast.
    { rewrite !list_ascii_of_string_append. simpl (list_ascii_of_string "/"%string).
      rewrite app_assoc. apply subscript_last_snoc. }
    split; [exact Hlast|].
    unfold verify_path. rewrite Hlast. reflexivity.
Qed.

(** ** The offspring of a generation *)

Lemma mutate_all_fenotypes (sel : list IndividualClass) (w w' : world)
  (inds : list IndividualClass) :
  mutate_all sel w = (inds, w') ->
  Forall2 (fun a o =>
             evaluation o = EvList [] /\ objective_values o = None /\
             exists p, fenotype o = fst (Model_mutate (fenotype a) p))
          sel inds.
Proof.
  revert w w' inds. induction sel as [|a sel IH]; intros w w' inds H; simpl in H.
  - injection H as <- _. constructor.
  - destruct (Model_mutate (fenotype a) (rand_pos w)) as [f p] eqn:Hm.
    cbn [construct] in H.
    destruct (mutate_all sel _) as [rest w2] eqn:Hrest.
    injection H as <- _. constructor; [|exact (IH _ _ _ Hrest)].
    split; [reflexivity|]. split; [reflexivity|].
    exists (rand_pos w). rewrite Hm. reflexivity.
Qed.

Lemma crossover_all_fenotypes (first second : list IndividualClass) (indices : list Z)
  (w w' : world) (inds : list IndividualClass) :
  crossover_all first second indices w = Ok (inds, w') ->
  Forall (fun o =>
            evaluation o = EvList [] /\ objective_values o = None /\
            exists a b p, In a first /\ In b second /\
              fenotype o = fst (Model_crossover (fenotype a) (fenotype b) p))
         inds.
Proof.
  revert w w' inds.
  induction indices as [|i indices IH]; intros w w' inds H; simpl in H.
  - injection H as <- _. constructor.
  - inv_bind H as a Ha. inv_bind H as b Hb.
    destruct (Model_crossover (fenotype a) (fenotype b) (rand_pos w)) as [f p] eqn:Hc.
    cbn [construct] in H.
    inv_bind H as [rest w2] Hrest. injection H as <- _.
    constructor; [|exact (IH _ _ _ Hrest)].
    split; [reflexivity|]. split; [reflexivity|].
    exists a, b, (rand_pos w).
    split; [exact (subscript_in _ _ _ Ha)|]. split; [exact (subscript_in _ _ _ Hb)|].
    rewrite Hc. reflexivity.
Qed.

(** X19.  Where the offspring come from.  Reproduction keeps the population
    as it is and appends the offspring after it: first the mutations, each
    the [Model.mutate] of an individual of the population, then the
    crossovers, each the [Model.crossover] of two individuals of the
    population.  The offspring are new individuals, without evaluation and
    without objective values. *)
Theorem offspring_come_from_the_population (mutations crossovers : Z)
  (self self' : GeneticProgramClass) (w w' : world) :
  reproduce mutations crossovers self w = Ok (self', w') ->
  exists mutated crossed,
    population self' = population self ++ mutated ++ crossed /\
    length mutated = Z.to_nat mutations /\ length crossed = Z.to_nat crossovers /\
    Forall (fun o =>
              evaluation o = EvList [] /\ objective_values o = None /\
              exists a p, In a (population self) /\
                fenotype o = fst (Model_mutate (fenotype a) p)) mutated /\
    Forall (fun o =>
              evaluation o = EvList [] /\ objective_values o = None /\
              exists a b p, In a (population self) /\ In b (population self) /\
                fenotype o = fst (Model_crossover (fenotype a) (fenotype b) p)) crossed.
Proof.
  unfold reproduce. intros H.
  inv_bind H as [first w1] H1. inv_bind H as [second w2] H2.
  inv_bind H as [selected w3] H3.
  destruct (mutate_all selected w3) as [mutated w4] eqn:Hm.
  inv_bind H as [crossed w5] Hc. injection H as <- _.
  destruct (select_spec _ _ _ _ _ H1) as (_ & Hin1 & _).
  destruct (select_spec _ _ _ _ _ H2) as (_ & Hin2 & _).
  destruct (select_spec _ _ _ _ _ H3) as (Hlen3 & Hin3 & _).
  exists mutated, crossed. cbn [population set_population].
  split; [rewrite app_assoc; reflexivity|].
  destruct (mutate_all_spec _ _ _ _ Hm) as (Hlenm & _).
  destruct (crossover_all_spec _ _ _ _ _ _ Hc) as (Hlenc & _).
  split; [rewrite Hlenm; exact Hlen3|].
  split; [rewrite Hlenc, range_length; reflexivity|].
  rewrite Forall_forall in Hin1, Hin2, Hin3. split.
  - pose proof (mutate_all_fenotypes _ _ _ _ Hm) as Hf. clear -Hf Hin3.
    induction Hf as [|a o sel inds (He & Ho & p & Hp) _ IH]; constructor.
    + split; [exact He|]. split; [exact Ho|].
      exists a, p. split; [apply Hin3; left; reflexivity | exact Hp].
    + apply IH. intros x Hx. apply Hin3. right. exact Hx.
  - pose proof (crossover_all_fenotypes _ _ _ _ _ _ Hc) as Hf.
    eapply Forall_impl; [|exact Hf].
    intros o (He & Ho & a & b & p & Ha & Hb & Hp).
    split; [exact He|]. split; [exact Ho|].
    exists a, b, p. split; [exact (Hin1 a Ha)|]. split; [exact (Hin2 b Hb) | exact Hp].
Qed.

(** ** An engine without objective function *)

(** X20.  Without objective function ([objectives] is 0) the evaluation of
    a population raises [IndexError], whatever the population holds, the
    empty one included: SPEA2 reads the first row of an empty list of
    objective values.  So does [fit]. *)
Theorem no_objective_is_an_error (self : GeneticProgramClass) (x : X) (y : Y)
  (w : world) :
  objectives self = 0%nat -> multiobjective_fitness self = "SPEA2"%string ->
  _evaluate_population self w = Raise IndexError /\
  fit self x y w = Raise IndexError.
Proof.
  intros Hobj Hmf.
  assert (forall s w0, objectives s = 0%nat ->
            multiobjective_fitness s = "SPEA2"%string ->
            _evaluate_population s w0 = Raise IndexError) as Hall.
  { intros s w0 Ho Hm. unfold _evaluate_population.
    destruct (for_each (compute_objective_values s) (population s) ([], w0))
      as [[pop w1]|e] eqn:Hloop.
    - cbn [bind]. rewrite Ho, Hm. reflexivity.
    - rewrite (compute_objective_values_error _ _ _ _ Hloop). reflexivity. }
  split; [exact (Hall self w Hobj Hmf)|].
  unfold fit, initialise.
  destruct (Model_generate_population _ _) as [fenotypes p].
  destruct (construct_all fenotypes _) as [pop w1].
  rewrite Hall by assumption. reflexivity.
Qed.

(** ** The champion in multi-objective mode *)







(** ** What fit changes *)

Lemma same_configuration_refl (a : GeneticProgramClass) : same_configuration a a.
Proof. repeat split. Qed.

Lemma same_configuration_trans (a b c : GeneticProgramClass) :
  same_configuration a b -> same_configuration b c -> same_configuration a c.
Proof.
  unfold same_configuration.
  intros (H1 & H2 & H3 & H4 & H5 & H6 & H7 & H8 & H9 & H10)
         (K1 & K2 & K3 & K4 & K5 & K6 & K7 & K8 & K9 & K10).
  repeat split; congruence.
Qed.

Lemma generation_step_configuration (mutations crossovers : Z)
  (self self' : GeneticProgramClass) (w w' : world) (generation : Z) :
  generation_step mutations crossovers (self, w) generation = Ok (self', w') ->
  same_configuration self self' /\
  x_train self' = x_train self /\ y_train self' = y_train self /\
  darwin_champion self' = darwin_champion self.
Proof.
  intros H. apply generation_step_spec in H.
  destruct H as (offspring & self1 & w1 & self2 & sorted_population & _ & _ &
                 -> & _ & _ & _ & -> & _).
  repeat split.
Qed.

Lemma last_range2 (g : Z) : last (range2 1 g) 0%Z = Z.max 0 (g - 1).
Proof.
  unfold range2. destruct (Z.to_nat (g - 1)) as [|k] eqn:Hk.
  - simpl. lia.
  - rewrite seq_S, map_app. cbn [map]. rewrite last_last. lia.
Qed.

(** X22.  What [fit] changes.  A run of [fit] leaves the configuration of
    the engine (the arguments of [__init__] and [objectives]) as it was; it
    stores the training data, sets [darwin_champion] to the champion it
    returns, and leaves in [ran_generations] the number of the last
    generation, [generations - 1], or 0 when there was none. *)
Theorem fit_keeps_the_configuration
  (self self' : GeneticProgramClass) (x : X) (y : Y) (w w' : world) (champion : F) :
  fit self x y w = Ok (champion, self', w') ->
  same_configuration self self' /\
  x_train self' = x /\ y_train self' = y /\
  darwin_champion self' = Some champion /\
  ran_generations self' = Z.max 0 (generations self - 1).
Proof.
  intros H.
  destruct (fit_spec _ _ _ _ _ _ _ H)
    as (self1 & w1 & self2 & best & Hinit & Hloop & _ & _ & Hself').
  destruct (initialise_spec _ _ _ _ _ _ Hinit)
    as (inds & s1 & w0 & s2 & sorted1 & _ & _ & Hs1 & Heval1 & _ & _ & Hs1' & _).
  assert (same_configuration self self1 /\ x_train self1 = x /\ y_train self1 = y)
    as (Hc1 & Hx1 & Hy1).
  { rewrite Hs1', Hs1. repeat split. }
  pose proof (generations_loop _ _ _ _ _ _ _ Hloop) as (_ & _ & _ & Hran & _).
  pose proof (initialise_boundary _ _ _ _ _ _ Hinit) as (_ & Hgens1 & _ & Hran1 & _).
  assert (same_configuration self self2 /\ x_train self2 = x /\ y_train self2 = y)
    as (Hc2 & Hx2 & Hy2).
  { apply (for_each_invariant
             (fun st : GeneticProgramClass * world =>
                same_configuration self (fst st) /\
                x_train (fst st) = x /\ y_train (fst st) = y) _ _ _ _ )
      with (3 := Hloop); [|cbn [fst]; split; [exact Hc1 | split; assumption]].
    intros [sa wa] g [sb wb] _ (Ha & Hxa & Hya) Hstep. cbn [fst] in *.
    destruct (generation_step_configuration _ _ _ _ _ _ _ Hstep)
      as (Hb & Hxb & Hyb & _).
    split; [exact (same_configuration_trans _ _ _ Ha Hb)|]. split; congruence. }
  rewrite Hself'.
  split; [exact Hc2|]. split; [exact Hx2|]. split; [exact Hy2|].
  split; [reflexivity|].
  cbn [ran_generations set_darwin_champion].
  rewrite Hran, Hran1, Hgens1. apply last_range2.
Qed.

(** X23.  [predict] after [fit].  Once [fit] has returned a champion,
    [predict] is the evaluation of that champion by the Model, on any
    input; on an engine fresh from [__init__] there is no champion and
    [predict] hands [None] to the Model. *)
Theorem predict_evaluates_the_champion
  (self self' : GeneticProgramClass) (x : X) (y : Y) (w w' : world) (champion : F)
  (x' : X) :
  (fit self x y w = Ok (champion, self', w') ->
   predict self' x' = Ok (Model_evaluate champion x')) /\
  (forall (ps gens : Z) (fs : objective_function + list objective_function)
          (args : option (list (list Arg))) (mf sm : string) (ratio : Q) (ts : Z)
          (fresh : GeneticProgramClass),
     __init__ ps gens fs args mf sm ratio ts = Ok fresh ->
     predict fresh x' = Model_evaluate_None x').
Proof.
  split.
  - intros H.
    destruct (fit_spec _ _ _ _ _ _ _ H) as (_ & _ & self2 & _ & _ & _ & _ & _ & ->).
    reflexivity.
  - intros ps gens fs args mf sm ratio ts fresh H.
    unfold __init__ in H. injection H as <-. reflexivity.
Qed.

(** ** fit returns *)






















End GeneticProgram.

(** * Runs on a concrete Model *)

(** Fenotypes are points of the plane, the prediction of a point is the
    point itself and the two objectives are its coordinates.  The initial
    population is the beginning of a table, mutation moves a point to the
    right and crossover takes one coordinate from each parent.  The random
    source cycles through 0, 1/3 and 2/3. *)
Definition point : Type := (Q * Q)%type.

Definition table_population (table : list point) (n : Z) (p : nat) : list point * nat :=
  (firstn (Z.to_nat n) table, p).

Definition move_right (f : point) (p : nat) : point * nat := ((fst f + 1, snd f), p).

Definition mix (f g : point) (p : nat) : point * nat := ((fst f, snd g), p).

Definition itself (f : point) (x : unit) : point := f.

Definition abscissa : objective_function unit point unit := fun _ prediction _ => fst prediction.

Definition ordinate : objective_function unit point unit := fun _ prediction _ => snd prediction.

Definition thirds (k : nat) : Q := inject_Z (Z.of_nat (k mod 3)) / 3.

Definition new_world : world := {| rand_pos := 0; next_id := 0; eval_calls := [] |}.

Definition engine (population_size0 generations0 : Z)
  (fs : list (objective_function unit point unit)) (sampling_method0 : string)
  (mutation_ratio0 : Q) (tournament_size0 : Z)
  : GeneticProgramClass point unit unit point unit :=
  {| population_size := population_size0;
     generations := generations0;
     objective_functions := fs;
     objective_functions_arguments := map (fun _ => []) fs;
     multiobjective_fitness := "SPEA2";
     sampling_method := sampling_method0;
     mutation_ratio := mutation_ratio0;
     tournament_size := tournament_size0;
     logs_level := 0;
     objectives := length fs;
     darwin_champion := None;
     population := [];
     x_train := tt;
     y_train := tt;
     logs := [];
     ran_generations := 0 |}.

(** A front of four points that do not dominate one another. *)
Definition front : list point := [(1, 4); (2, 3); (3, 2); (4, 1)].


Definition front_values : list (list Q) := [[1; 2; 3; 4]; [4; 3; 2; 1]].

Definition two_objectives : GeneticProgramClass point unit unit point unit :=
  engine 4 3 [abscissa; ordinate] "tournament" (2 # 5) 2.

Definition one_objective : GeneticProgramClass point unit unit point unit :=
  engine 4 3 [abscissa] "weighted_random" (2 # 5) 2.

Abbreviation fit_on table self :=
  (fit (table_population table) move_right mix itself thirds self tt tt new_world).




(** The scenario of the front: no point is dominated, the two extreme
    points get the crowding value [+inf] and the two others 0. *)
Example front_raw_fitness : _spea2 two_objectives front_values = Ok [0; 0; 0; 0]%Z.
Proof. vm_compute. reflexivity. Qed.

Example front_crowding_distance :
  _crowding_distance front_values = Ok [PInf; Fin (0 # 4); Fin (0 # 4); PInf].
Proof. vm_compute. reflexivity. Qed.

(** Single-objective mode: with the objective values 5, 1 and 3 the
    population is sorted as 1, 3, 5 and the champion is the point scoring
    1. *)
Example single_objective_champion :
  exists self' w',
    fit_on [(5, 0); (1, 0); (3, 0)] (engine 3 1 [abscissa] "tournament" (2 # 5) 2)
      = Ok ((1, 0), self', w') /\
    map (@evaluation point) (population self')
      = [EvFloat (Fin 1); EvFloat (Fin 3); EvFloat (Fin 5)].
Proof. eexists. eexists. split; vm_compute; reflexivity. Qed.

(** The three sampling methods on the front, over three generations. *)
Example sampling_methods_run :
  (exists r, fit_on front (engine 4 3 [abscissa; ordinate] "tournament" (2 # 5) 2) = Ok r) /\
  (exists r, fit_on front (engine 4 3 [abscissa; ordinate] "weighted_random" (2 # 5) 2) = Ok r) /\
  (exists r, fit_on front (engine 4 3 [abscissa; ordinate] "random" (2 # 5) 2) = Ok r) /\
  (exists r, fit_on front one_objective = Ok r).
Proof. repeat split; eexists; vm_compute; reflexivity. Qed.

(** Any other value of [multiobjective_fitness] than SPEA2 makes the
    evaluation of a multi-objective population raise. *)
Example nsga2_raises :
  _evaluate_population itself
    {| population_size := 4; generations := 3;
       objective_functions := [abscissa; ordinate];
       objective_functions_arguments := [[]; []];
       multiobjective_fitness := "NSGA2"; sampling_method := "tournament";
       mutation_ratio := 2 # 5; tournament_size := 2; logs_level := 0;
       objectives := 2; darwin_champion := None;
       population := fst (construct_all front new_world);
       x_train := tt; y_train := tt; logs := []; ran_generations := 0 |}
    new_world = Raise NameError.
Proof. vm_compute. reflexivity. Qed.



(** A population of new individuals, one per point of a table. *)
Definition new_population (table : list point) : list (IndividualClass point) :=
  fst (construct_all table new_world).


(** C5: a run on which the theorem applies. *)
Lemma population_size_at_generation_boundaries_witness :
  Z.of_nat (length (fst (table_population front (population_size two_objectives)
                           (rand_pos new_world)))) = population_size two_objectives /\
  exists champion self' w',
    fit_on front two_objectives = Ok (champion, self', w') /\
    (exists checkpoints,
       logs self' = logs two_objectives ++ checkpoints /\
       map fst checkpoints = 0%Z :: range2 1 (generations two_objectives) /\
       Forall (fun c => Z.of_nat (length (snd c)) = population_size two_objectives)
              checkpoints) /\
    Z.of_nat (length (population self')) = population_size two_objectives.
Proof.
  split; [reflexivity|].
  destruct (fit_on front two_objectives) as [[[champion self'] w']|e] eqn:E.
  - exists champion, self', w'. split; [reflexivity|].
    destruct (population_size_at_generation_boundaries point unit unit point unit
                (table_population front) move_right mix itself thirds
                two_objectives self' tt tt new_world w' champion eq_refl E)
      as (Hlogs & Hfinal & _).
    split; [exact Hlogs | exact Hfinal].
  - vm_compute in E. discriminate E.
Defined.

(** C5: with a mutation ratio of 2 and a population of 2, reproduction
    leaves 6 individuals: 4 mutations and no crossover, where
    [population_size + mutations + crossovers] is 4. *)
Lemma reproduction_size_counterexample :
  let self := engine 2 2 [abscissa] "random" 2 2 in
  Z.of_nat (length (fst (table_population front (population_size self)
                           (rand_pos new_world)))) = population_size self /\
  (exists champion self' w', fit_on front self = Ok (champion, self', w')) /\
  exists self1 w1 s w2,
    initialise (table_population front) itself self tt tt new_world = Ok (self1, w1) /\
    Z.of_nat (length (population self1)) = population_size self /\
    reproduce move_right mix thirds (mutations_of self) (crossovers_of self) self1 w1
      = Ok (s, w2) /\
    Z.of_nat (length (population s)) = 6%Z /\
    (population_size self + mutations_of self + crossovers_of self)%Z = 4%Z.
Proof.
  cbv zeta. split; [reflexivity|]. split.
  - eexists. eexists. eexists. vm_compute. reflexivity.
  - eexists. eexists. eexists. eexists.
    split; [vm_compute; reflexivity|].
    split; [reflexivity|].
    split; [vm_compute; reflexivity|].
    split; vm_compute; reflexivity.
Qed.

Lemma new_world_wf : world_wf new_world.
Proof. split; [constructor | intros i []]. Qed.

(** What [fit] has done on the front when its loop starts. *)
Abbreviation after_initialise :=
  (initialise (table_population front) itself two_objectives tt tt new_world).

(** C6: a call, a generation and a run on which the theorem applies.  In
    the call the second individual has its objective values already. *)
Lemma objective_values_computed_once_witness :
  (exists self' w',
     let self := set_population two_objectives
                   [new_individual 0 (1, 4);
                    set_objective_values (new_individual 1 (2, 3)) [2; 3];
                    new_individual 2 (3, 2)] in
     _evaluate_population itself self new_world = Ok (self', w') /\
     eval_calls w' =
       eval_calls new_world
       ++ map (@ident point) (filter (@unevaluated point) (population self)) /\
     Forall2 (fun a b =>
                ident b = ident a /\
                forall v, objective_values a = Some v -> objective_values b = Some v)
             (population self) (population self')) /\
  (exists self1 w1 self2 w2,
     after_initialise = Ok (self1, w1) /\
     objects_wf (population self1) w1 /\
     generation_step move_right mix itself thirds 2 2 (self1, w1) 1 = Ok (self2, w2) /\
     objects_wf (population self2) w2 /\
     forall a b, In a (population self1) -> In b (population self2) ->
       ident b = ident a ->
       forall v, objective_values a = Some v -> objective_values b = Some v) /\
  (world_wf new_world /\
   exists champion self' w',
     fit_on front two_objectives = Ok (champion, self', w') /\
     objects_wf (population self') w' /\ NoDup (eval_calls w')).
Proof.
  pose proof (objective_values_computed_once point unit unit point unit
                (table_population front) move_right mix itself thirds)
    as (Hcall & Hstep & Hrun).
  split; [|split].
  - match goal with
    | |- exists self' w', let self := ?s in _ =>
        destruct (_evaluate_population itself s new_world) as [[self' w']|e] eqn:E
    end.
    + exists self', w'. cbv zeta. split; [exact E|]. exact (Hcall _ _ _ _ E).
    + vm_compute in E. discriminate E.
  - destruct after_initialise as [[self1 w1]|e] eqn:E1;
      [|vm_compute in E1; discriminate E1].
    assert (objects_wf (population self1) w1) as Hwf.
    { eapply initialise_objects; [exact new_world_wf | exact E1]. }
    destruct (generation_step move_right mix itself thirds 2 2 (self1, w1) 1)
      as [[self2 w2]|e] eqn:E2.
    + exists self1, w1, self2, w2. split; [reflexivity|]. split; [exact Hwf|].
      split; [exact E2|]. exact (Hstep 2%Z 2%Z self1 self2 w1 w2 1%Z Hwf E2).
    + exfalso. revert E2. vm_compute in E1.
      injection E1 as <- <-. vm_compute. discriminate.
  - split; [exact new_world_wf|].
    destruct (fit_on front two_objectives) as [[[champion self'] w']|e] eqn:E.
    + exists champion, self', w'. split; [reflexivity|].
      exact (Hrun two_objectives self' tt tt new_world w' champion new_world_wf E).
    + vm_compute in E. discriminate E.
Defined.


(** The checkpoints of that run: the initial one and two cycles. *)
Example three_generations_checkpoints :
  exists champion self' w',
    fit_on front two_objectives = Ok (champion, self', w') /\
    map fst (logs self') = [0; 1; 2]%Z.
Proof. eexists. eexists. eexists. split; vm_compute; reflexivity. Qed.

(** C8: the theorem on a tournament of three rounds. *)
Lemma tournament_of_one_is_uniform_witness :
  let self := engine 4 3 [abscissa] "tournament" (2 # 5) 1 in
  tournament_size self = 1%Z /\
  _tournament_selection thirds self (new_population front) 3 new_world =
  rd_choices thirds (new_population front) 3 new_world.
Proof.
  cbv zeta. split; [reflexivity|].
  apply (tournament_of_one_is_uniform point unit unit point unit thirds).
  reflexivity.
Defined.

(** C9: a configuration with a negative population size, a negative number
    of generations, a mutation ratio above 1 and a tournament size of 0 is
    accepted. *)
Lemma init_accepts_invalid_configuration :
  exists self,
    __init__ point tt tt (-5) (-1) (inr [abscissa; ordinate]) None
      "SPEA2" "tournament" (3 # 2) 0 = Ok self /\
    population_size self = (-5)%Z /\ generations self = (-1)%Z /\
    mutation_ratio self = 3 # 2 /\ tournament_size self = 0%Z.
Proof. eexists. split; [reflexivity|]. repeat split. Qed.

(** C10: a new individual, whose evaluation is the empty list, is equal to
    an individual with two evaluation components. *)
Lemma eq_true_on_different_lengths :
  exists a b : IndividualClass point,
    evaluation a = EvList [] /\ evaluation b = EvList [Fin 0; Fin 1] /\
    length (@nil fl) <> length [Fin 0; Fin 1] /\
    __eq__ a b = Ok true.
Proof.
  exists (new_individual 0 (1, 4)),
         (set_evaluation (new_individual 1 (2, 3)) (EvList [Fin 0; Fin 1])).
  repeat split. simpl. discriminate.
Qed.

(** C10: the theorem on two evaluations of the same length. *)
Lemma eq_compares_the_components_of_self_witness :
  let self := set_evaluation (new_individual 0 (1, 4)) (EvList [Fin 0; PInf]) in
  let other := set_evaluation (new_individual 1 (2, 3)) (EvList [Fin (0 # 4); PInf]) in
  length [Fin 0; PInf] = length [Fin (0 # 4); PInf] /\
  (__eq__ self other = Ok true <->
   components_equal [Fin 0; PInf] [Fin (0 # 4); PInf]).
Proof.
  cbv zeta. split; [reflexivity|].
  apply (eq_compares_the_components_of_self point
           (new_individual 0 (1, 4)) (new_individual 1 (2, 3))
           [Fin 0; PInf] [Fin (0 # 4); PInf]).
  reflexivity.
Defined.

(** * The further properties on the concrete Model *)

(** An individual with a given evaluation. *)
Definition with_evaluation (l : list fl) : IndividualClass point :=
  set_evaluation (new_individual 0 (0, 0)) (EvList l).

(** X1: three evaluations in ascending order. *)
Lemma lt_is_a_strict_order_witness :
  let a := with_evaluation [Fin 0; Fin 1] in
  let b := with_evaluation [Fin 0; PInf] in
  let c := with_evaluation [Fin 1; Fin 0] in
  __lt__ a a = Ok false /\
  __lt__ a b = Ok true /\ __lt__ b a = Ok false /\
  ev_has_nan (evaluation a) = false /\ ev_has_nan (evaluation b) = false /\
  ev_has_nan (evaluation c) = false /\
  __lt__ b c = Ok true /\ __lt__ a c = Ok true.
Proof.
  cbv zeta.
  destruct (lt_is_a_strict_order point (with_evaluation [Fin 0; Fin 1])
              (with_evaluation [Fin 0; PInf]) (with_evaluation [Fin 1; Fin 0]))
    as (Hirrefl & Hasym & Htrans).
  split; [exact Hirrefl|]. split; [reflexivity|].
  split; [apply Hasym; reflexivity|].
  split; [reflexivity|]. split; [reflexivity|]. split; [reflexivity|].
  split; [reflexivity|]. apply Htrans; reflexivity.
Defined.

(** X2: two evaluations of two components. *)
Lemma lt_and_eq_are_a_total_order_witness :
  let a := with_evaluation [Fin 0; Fin 1] in
  let b := with_evaluation [Fin 0; PInf] in
  same_kind (evaluation a) (evaluation b) /\
  ev_has_nan (evaluation a) = false /\ ev_has_nan (evaluation b) = false /\
  ((__lt__ a b = Ok true /\ __eq__ a b = Ok false /\ __lt__ b a = Ok false) \/
   (__lt__ a b = Ok false /\ __eq__ a b = Ok true /\ __lt__ b a = Ok false) \/
   (__lt__ a b = Ok false /\ __eq__ a b = Ok false /\ __lt__ b a = Ok true)).
Proof.
  cbv zeta. split; [reflexivity|]. split; [reflexivity|]. split; [reflexivity|].
  apply (lt_and_eq_are_a_total_order point (with_evaluation [Fin 0; Fin 1])
           (with_evaluation [Fin 0; PInf])); reflexivity.
Defined.

(** X3: two objective functions with their two argument lists, with one
    argument list only, and the default of [__init__]. *)
Lemma objective_values_need_an_argument_list_each_witness :
  ((length [abscissa; ordinate] <= length [@nil unit; []])%nat /\
   apply_objectives [abscissa; ordinate] [[]; []] tt (1, 4) 0 = Ok [1; 4]) /\
  ((length [@nil unit] < length [abscissa; ordinate])%nat /\
   apply_objectives [abscissa; ordinate] [[]] tt (1, 4) 0 = Raise IndexError) /\
  (exists self,
     __init__ point tt tt 4 3 (inr [abscissa; ordinate]) None
       "SPEA2" "tournament" (2 # 5) 2 = Ok self /\
     objectives self = length (objective_functions self) /\
     length (objective_functions_arguments self) = objectives self /\
     apply_objectives (objective_functions self) (objective_functions_arguments self)
       tt (1, 4) 0 =
     Ok (map (fun f => f tt (1, 4) []) (objective_functions self))).
Proof.
  split; [|split].
  - split; [simpl; lia|].
    exact (proj1 (objective_values_need_an_argument_list_each point unit unit point
                    unit tt tt [abscissa; ordinate] [[]; []] tt (1, 4))
                 ltac:(simpl; lia)).
  - split; [simpl; lia|].
    exact (proj1 (proj2 (objective_values_need_an_argument_list_each point unit unit
                           point unit tt tt [abscissa; ordinate] [[]] tt (1, 4)))
                 ltac:(simpl; lia)).
  - eexists. split; [reflexivity|].
    exact (proj2 (proj2 (objective_values_need_an_argument_list_each point unit unit
                           point unit tt tt [] [] tt (1, 4)))
                 4%Z 3%Z (inr [abscissa; ordinate]) "SPEA2"%string
                 "tournament"%string (2 # 5) 2%Z _ eq_refl).
Defined.

(** An engine asked for NSGA2. *)
Definition nsga2 : GeneticProgramClass point unit unit point unit :=
  {| population_size := 4; generations := 3;
     objective_functions := [abscissa; ordinate];
     objective_functions_arguments := [[]; []];
     multiobjective_fitness := "NSGA2"; sampling_method := "tournament";
     mutation_ratio := 2 # 5; tournament_size := 2; logs_level := 0;
     objectives := 2; darwin_champion := None;
     population := [];
     x_train := tt; y_train := tt; logs := []; ran_generations := 0 |}.

(** X4: NSGA2 on the front. *)
Lemma only_spea2_is_implemented_witness :
  objectives nsga2 <> 1%nat /\ multiobjective_fitness nsga2 <> "SPEA2"%string /\
  (length (objective_functions nsga2) <= length (objective_functions_arguments nsga2))%nat /\
  _evaluate_population itself nsga2 new_world = Raise NameError /\
  fit_on front nsga2 = Raise NameError.
Proof.
  split; [discriminate|]. split; [discriminate|]. split; [simpl; lia|].
  apply (only_spea2_is_implemented point unit unit point unit
           (table_population front) move_right mix itself thirds nsga2 tt tt new_world);
    [discriminate | discriminate | simpl; lia].
Defined.

(** The front, not yet evaluated. *)
Abbreviation unevaluated_front := (set_population two_objectives (new_population front)).

(** X5: the front, evaluated twice. *)
Lemma evaluating_again_changes_nothing_witness :
  exists self1 w1,
    _evaluate_population itself unevaluated_front new_world = Ok (self1, w1) /\
    _evaluate_population itself self1 w1 = Ok (self1, w1).
Proof.
  destruct (_evaluate_population itself unevaluated_front new_world)
    as [[self1 w1]|e] eqn:E.
  - exists self1, w1. split; [reflexivity|].
    exact (evaluating_again_changes_nothing point unit unit point unit itself
             unevaluated_front self1 new_world w1 E).
  - vm_compute in E. discriminate E.
Defined.

(** Three individuals: the second one dominates the first one, and the third
    one has the objective values of the second one. *)
Definition chain_values : list (list Q) := [[1; 2; 2]; [1; 3; 3]].

Lemma chain_values_matrix : matrix chain_values 2 3.
Proof. split; [reflexivity | repeat constructor]. Qed.

(** X6: the second individual of the chain dominates the first one. *)
Lemma a_dominated_individual_has_a_greater_raw_fitness_witness :
  (1 <= objectives two_objectives)%nat /\
  matrix chain_values (objectives two_objectives) 3 /\
  (0 < 3)%nat /\ (1 < 3)%nat /\
  lt_in_every_objective chain_values 0 1 = true /\
  exists strengths evaluations,
    spea2_strengths (objectives two_objectives) chain_values = Ok strengths /\
    _spea2 two_objectives chain_values = Ok evaluations /\
    (1 <= nth 1 strengths 0)%Z /\
    (nth 1 evaluations 0 + nth 1 strengths 0 <= nth 0 evaluations 0)%Z /\
    (nth 1 evaluations 0 < nth 0 evaluations 0)%Z.
Proof.
  split; [simpl; lia|]. split; [exact chain_values_matrix|].
  split; [lia|]. split; [lia|]. split; [reflexivity|].
  apply (a_dominated_individual_has_a_greater_raw_fitness point unit unit point unit
           two_objectives chain_values 3 0 1);
    [simpl; lia | exact chain_values_matrix | lia | lia | reflexivity].
Defined.

Lemma chain_values_equal :
  forall row, In row chain_values -> nth 1 row 0 == nth 2 row 0.
Proof. intros row [<- | [<- | []]]; reflexivity. Qed.

(** X7: the second and the third individual of the chain. *)
Lemma equal_objective_values_give_equal_raw_fitness_witness :
  (1 <= objectives two_objectives)%nat /\
  matrix chain_values (objectives two_objectives) 3 /\
  (1 < 3)%nat /\ (2 < 3)%nat /\
  (forall row, In row chain_values -> nth 1 row 0 == nth 2 row 0) /\
  exists strengths evaluations,
    spea2_strengths (objectives two_objectives) chain_values = Ok strengths /\
    _spea2 two_objectives chain_values = Ok evaluations /\
    nth 1 strengths 0%Z = nth 2 strengths 0%Z /\
    nth 1 evaluations 0%Z = nth 2 evaluations 0%Z.
Proof.
  split; [simpl; lia|]. split; [exact chain_values_matrix|].
  split; [lia|]. split; [lia|]. split; [exact chain_values_equal|].
  apply (equal_objective_values_give_equal_raw_fitness point unit unit point unit
           two_objectives chain_values 3 1 2);
    [simpl; lia | exact chain_values_matrix | lia | lia | exact chain_values_equal].
Defined.


(** X9: the three selections on the empty population, asked for two
    individuals and for none. *)
Lemma selection_from_an_empty_population_witness :
  _weighted_random_sample thirds two_objectives [] 0 new_world = Raise IndexError /\
  (0 < 2)%Z /\
  _tournament_selection thirds two_objectives [] 2 new_world = Raise IndexError /\
  rd_choices thirds (@nil (IndividualClass point)) 2 new_world = Raise IndexError /\
  (0 <= 0)%Z /\
  _tournament_selection thirds two_objectives [] 0 new_world = Ok ([], new_world) /\
  rd_choices thirds (@nil (IndividualClass point)) 0 new_world = Ok ([], new_world).
Proof.
  destruct (selection_from_an_empty_population point unit unit point unit thirds
              two_objectives 2 new_world) as (_ & Hpos & _).
  destruct (selection_from_an_empty_population point unit unit point unit thirds
              two_objectives 0 new_world) as (Hweighted & _ & Hneg).
  split; [exact Hweighted|]. split; [lia|].
  split; [exact (proj1 (Hpos ltac:(lia)))|].
  split; [exact (proj2 (Hpos ltac:(lia)))|]. split; [lia|].
  split; [exact (proj1 (Hneg ltac:(lia))) | exact (proj2 (Hneg ltac:(lia)))].
Defined.

(** The individuals of the front as [_evaluate_population] leaves them, in
    the order of [sorted]. *)
Definition evaluated_individual (i : nat) (f : point) (cd : fl) : IndividualClass point :=
  {| ident := i; fenotype := f; evaluation := EvList [Fin 0; cd];
     objective_values := Some [fst f; snd f] |}.

Definition ranked_front : list (IndividualClass point) :=
  [evaluated_individual 1 (2, 3) (Fin 0); evaluated_individual 2 (3, 2) (Fin 0);
   evaluated_individual 0 (1, 4) PInf; evaluated_individual 3 (4, 1) PInf].

Lemma ranked_front_shaped : Forall (shaped ShPair) ranked_front.
Proof. repeat constructor. Qed.

Lemma thirds_range : forall j, 0 <= thirds j < 1.
Proof.
  intros j. unfold thirds.
  pose proof (Nat.mod_upper_bound j 3 ltac:(lia)) as H.
  destruct (j mod 3)%nat as [|[|[|m]]]; [| | |lia]; split; vm_compute;
    congruence.
Qed.

(** X10: five individuals selected from the front by each method. *)
Lemma selection_returns_individuals_of_the_population_witness :
  let self := set_population two_objectives ranked_front in
  population self <> [] /\ Forall (shaped ShPair) (population self) /\
  (1 <= tournament_size self)%Z /\ (forall j, 0 <= thirds j < 1) /\
  exists sel w',
    select thirds self 5 new_world = Ok (sel, w') /\
    length sel = Z.to_nat 5 /\
    Forall (fun a => In a (population self)) sel /\
    next_id w' = next_id new_world /\ eval_calls w' = eval_calls new_world /\
    rand_pos w' = (rand_pos new_world + draws_of self 5)%nat.
Proof.
  cbv zeta. split; [discriminate|]. split; [exact ranked_front_shaped|].
  split; [simpl; lia|]. split; [exact thirds_range|].
  apply (selection_returns_individuals_of_the_population point unit unit point unit
           thirds (set_population two_objectives ranked_front) ShPair 5 new_world);
    [discriminate | exact ranked_front_shaped | simpl; lia | exact thirds_range].
Defined.









(** X17: the run on the front creates and evaluates 12 individuals, 4 per
    generation. *)
Lemma fit_evaluates_every_individual_once_witness :
  Z.of_nat (length (fst (table_population front (population_size two_objectives)
                           (rand_pos new_world)))) = population_size two_objectives /\
  0 <= mutation_ratio two_objectives /\ mutation_ratio two_objectives <= 1 /\
  exists champion self' w',
    fit_on front two_objectives = Ok (champion, self', w') /\
    eval_calls w' =
      eval_calls new_world
      ++ seq (next_id new_world)
             (created_by_fit (table_population front) two_objectives new_world) /\
    next_id w' =
      (next_id new_world
       + created_by_fit (table_population front) two_objectives new_world)%nat /\
    Z.of_nat (created_by_fit (table_population front) two_objectives new_world) =
    (population_size two_objectives * Z.max 1 (generations two_objectives))%Z.
Proof.
  split; [reflexivity|]. split; [simpl; lra|]. split; [simpl; lra|].
  destruct (fit_on front two_objectives) as [[[champion self'] w']|e] eqn:E.
  - exists champion, self', w'. split; [reflexivity|].
    destruct (fit_evaluates_every_individual_once point unit unit point unit
                (table_population front) move_right mix itself thirds
                two_objectives self' tt tt new_world w' champion E)
      as (Hcalls & Hnext & Hcount).
    split; [exact Hcalls|]. split; [exact Hnext|].
    apply Hcount; [reflexivity | simpl; lra | simpl; lra].
  - vm_compute in E. discriminate E.
Defined.

(** X18: the folder of an experiment called run. *)
Lemma verify_path_returns_a_folder_witness :
  "run"%string <> EmptyString /\
  exists p,
    verify_path (Some "run"%string) = Ok p /\
    (p = "run"%string \/ p = String.append "outputs/" (String.append "run" "/")) /\
    subscript (list_ascii_of_string p) (-1) = Ok "/"%char /\
    verify_path (Some p) = Ok p.
Proof.
  split; [discriminate|].
  apply (verify_path_returns_a_folder "run"). discriminate.
Defined.

(** X19: the reproduction of the first generation of the run on the
    front. *)
Lemma offspring_come_from_the_population_witness :
  exists self1 w1 self2 w2,
    after_initialise = Ok (self1, w1) /\
    reproduce move_right mix thirds 2 2 self1 w1 = Ok (self2, w2) /\
    exists mutated crossed,
      population self2 = population self1 ++ mutated ++ crossed /\
      length mutated = Z.to_nat 2 /\ length crossed = Z.to_nat 2 /\
      Forall (fun o =>
                evaluation o = EvList [] /\ objective_values o = None /\
                exists a p, In a (population self1) /\
                  fenotype o = fst (move_right (fenotype a) p)) mutated /\
      Forall (fun o =>
                evaluation o = EvList [] /\ objective_values o = None /\
                exists a b p, In a (population self1) /\ In b (population self1) /\
                  fenotype o = fst (mix (fenotype a) (fenotype b) p)) crossed.
Proof.
  destruct after_initialise as [[self1 w1]|e] eqn:E1;
    [|vm_compute in E1; discriminate E1].
  destruct (reproduce move_right mix thirds 2 2 self1 w1) as [[self2 w2]|e] eqn:E2.
  - exists self1, w1, self2, w2. split; [reflexivity|]. split; [exact E2|].
    exact (offspring_come_from_the_population point unit unit point unit move_right
             mix thirds 2%Z 2%Z self1 self2 w1 w2 E2).
  - exfalso. revert E2. vm_compute in E1.
    injection E1 as <- <-. vm_compute. discriminate.
Defined.

(** X20: an engine with an empty list of objective functions. *)
Lemma no_objective_is_an_error_witness :
  let self := engine 4 3 [] "tournament" (2 # 5) 2 in
  objectives self = 0%nat /\ multiobjective_fitness self = "SPEA2"%string /\
  _evaluate_population itself self new_world = Raise IndexError /\
  fit_on front self = Raise IndexError.
Proof.
  cbv zeta. split; [reflexivity|]. split; [reflexivity|].
  apply (no_objective_is_an_error point unit unit point unit
           (table_population front) move_right mix itself thirds
           (engine 4 3 [] "tournament" (2 # 5) 2) tt tt new_world); reflexivity.
Defined.


(** X22: the engine after the run on the front. *)
Lemma fit_keeps_the_configuration_witness :
  exists champion self' w',
    fit_on front two_objectives = Ok (champion, self', w') /\
    same_configuration two_objectives self' /\
    x_train self' = tt /\ y_train self' = tt /\
    darwin_champion self' = Some champion /\
    ran_generations self' = Z.max 0 (generations two_objectives - 1).
Proof.
  destruct (fit_on front two_objectives) as [[[champion self'] w']|e] eqn:E.
  - exists champion, self', w'. split; [reflexivity|].
    exact (fit_keeps_the_configuration point unit unit point unit
             (table_population front) move_right mix itself thirds
             two_objectives self' tt tt new_world w' champion E).
  - vm_compute in E. discriminate E.
Defined.

(** A Model that refuses [None]. *)
Definition refuse_None (x : unit) : result point := Raise TypeError.

(** X23: [predict] after the run on the front, and on a new engine. *)
Lemma predict_evaluates_the_champion_witness :
  (exists champion self' w',
     fit_on front two_objectives = Ok (champion, self', w') /\
     predict itself refuse_None self' tt = Ok (itself champion tt)) /\
  (exists fresh,
     __init__ point tt tt 4 3 (inr [abscissa; ordinate]) None
       "SPEA2" "tournament" (2 # 5) 2 = Ok fresh /\
     predict itself refuse_None fresh tt = refuse_None tt).
Proof.
  split.
  - destruct (fit_on front two_objectives) as [[[champion self'] w']|e] eqn:E.
    + exists champion, self', w'. split; [reflexivity|].
      exact (proj1 (predict_evaluates_the_champion point unit unit point unit tt tt
                      (table_population front) move_right mix itself thirds
                      refuse_None two_objectives self' tt tt new_world w' champion tt)
                   E).
    + vm_compute in E. discriminate E.
  - eexists. split; [reflexivity|].
    exact (proj2 (predict_evaluates_the_champion point unit unit point unit tt tt
                    (table_population front) move_right mix itself thirds
                    refuse_None two_objectives two_objectives tt tt new_world
                    new_world (0, 0) tt)
                 4%Z 3%Z (inr [abscissa; ordinate]) None "SPEA2"%string
                 "tournament"%string (2 # 5) 2%Z _ eq_refl).
Defined.

